(** * RtlRichTextPrinter: a shallow embedding of src/src/rtl-support.ts

    The printer lays out right-to-left rich text on a jsPDF document.  The
    embedding keeps the shape of the TypeScript class:

    - JavaScript strings are lists of UTF-16 code units ([N]);
    - JavaScript numbers are exact rationals ([Q]), and the additions,
      subtractions and comparisons are written in the order in which the
      source performs them.  An equation stated with [=] between sums
      that are built in that order does not depend on the number type.  A
      statement with [==] relates sums of different association: it holds
      of the rationals, and of binary64 numbers up to rounding only.  The
      arithmetic of the two width loops is also given over any number
      type ([breakLines], [probeSum]), and on binary64 numbers it shows
      where rounding changes the outcome;
    - the jsPDF document is a record of the mutable fields the printer
      reads and writes, together with the list of paint operations it has
      received; glyph metrics are a parameter [textWidth];
    - methods that mutate the document are state-passing functions;
    - style vectors are objects in the source; the one function that
      mutates them (parseSegmentsWithState) is also given on a heap of
      objects, every other function copies or rebinds them and is given
      on values. *)

From Stdlib Require Import Ascii String List Bool NArith ZArith QArith Lia Lqa PrimFloat.
Import ListNotations.

(* ================================================================== *)
(** ** JavaScript strings *)

Definition jstring := list N.

Fixpoint jeqb (a b : jstring) : bool :=
  match a, b with
  | [], [] => true
  | x :: a', y :: b' => N.eqb x y && jeqb a' b'
  | _, _ => false
  end.

(** [jprefix p s]: does [s] start with [p]?  On success the rest of [s]. *)
Fixpoint jprefix (p s : jstring) : option jstring :=
  match p, s with
  | [], _ => Some s
  | x :: p', y :: s' => if N.eqb x y then jprefix p' s' else None
  | _ :: _, [] => None
  end.

(** Code units of an ASCII literal of the source. *)
Fixpoint lit (s : string) : jstring :=
  match s with
  | EmptyString => []
  | String c s' => N_of_ascii c :: lit s'
  end.

(* ================================================================== *)
(** ** The marker alphabet (static MARKERS) *)

Module MARKERS.
Definition BOLD_START      : N := 0xE000.
Definition BOLD_END        : N := 0xE001.
Definition UNDERLINE_START : N := 0xE004.
Definition UNDERLINE_END   : N := 0xE005.
Definition STRIKE_START    : N := 0xE006.
Definition STRIKE_END      : N := 0xE007.
Definition LTR_START       : N := 0xE008.
Definition LTR_END         : N := 0xE009.

(** [Object.values(MARKERS)], in declaration order. *)
Definition values : list N :=
  [BOLD_START; BOLD_END; UNDERLINE_START; UNDERLINE_END;
   STRIKE_START; STRIKE_END; LTR_START; LTR_END].
End MARKERS.

Definition SPACE_CHAR : N := 32.

(** One step of the regular expression [(m1|m2|...|m8)]: the alternation
    of the eight single code units. *)
Definition isMarker (c : N) : bool := existsb (N.eqb c) MARKERS.values.

(* ================================================================== *)
(** ** Style vector and segments *)

Record StyleState := mkStyle {
  isBold : bool;
  isUnderline : bool;
  isStrike : bool;
  isLtr : bool
}.

Record TextSegment := mkSegment {
  text : jstring;
  segBold : bool;
  segUnderline : bool;
  segStrike : bool;
  segLtr : bool
}.

Definition plainStyle : StyleState := mkStyle false false false false.

Definition setBold (b : bool) (s : StyleState) :=
  mkStyle b (isUnderline s) (isStrike s) (isLtr s).
Definition setUnderline (b : bool) (s : StyleState) :=
  mkStyle (isBold s) b (isStrike s) (isLtr s).
Definition setStrike (b : bool) (s : StyleState) :=
  mkStyle (isBold s) (isUnderline s) b (isLtr s).
Definition setLtr (b : bool) (s : StyleState) :=
  mkStyle (isBold s) (isUnderline s) (isStrike s) b.

(** The object literal pushed by parseSegmentsWithState: the four flags
    are copied, the segment holds no reference to the state object. *)
Definition snapshot (part : jstring) (s : StyleState) : TextSegment :=
  mkSegment part (isBold s) (isUnderline s) (isStrike s) (isLtr s).

(* ================================================================== *)
(** ** parseSegmentsWithState *)

(** [word.split(regex)] for the capturing marker regex: the text between
    two markers (possibly empty), then the marker itself, and so on; the
    last part is the text after the last marker. *)
Fixpoint splitMarkers (word : jstring) : list jstring :=
  match word with
  | [] => [[]]
  | c :: w =>
      if isMarker c then [] :: [c] :: splitMarkers w
      else match splitMarkers w with
           | p :: ps => (c :: p) :: ps
           | [] => [[c]]
           end
  end.

(** The body of the [switch (part)] statement. *)
Definition switchPart (acc : list TextSegment * StyleState) (part : jstring)
  : list TextSegment * StyleState :=
  let '(segments, state) := acc in
  if jeqb part [MARKERS.BOLD_START] then (segments, setBold true state)
  else if jeqb part [MARKERS.BOLD_END] then (segments, setBold false state)
  else if jeqb part [MARKERS.UNDERLINE_START] then (segments, setUnderline true state)
  else if jeqb part [MARKERS.UNDERLINE_END] then (segments, setUnderline false state)
  else if jeqb part [MARKERS.STRIKE_START] then (segments, setStrike true state)
  else if jeqb part [MARKERS.STRIKE_END] then (segments, setStrike false state)
  else if jeqb part [MARKERS.LTR_START] then (segments, setLtr true state)
  else if jeqb part [MARKERS.LTR_END] then (segments, setLtr false state)
  else match part with
       | [] => (segments, state)
       | _ :: _ => (segments ++ [snapshot part state], state)
       end.

Definition parseSegmentsWithState (word : jstring) (state : StyleState)
  : list TextSegment * StyleState :=
  fold_left switchPart (splitMarkers word) ([], state).

(** *** The style vector as a mutable object

    In the source the [state] parameter is an object that the loop
    mutates in place, and every caller passes a copy made with the spread
    syntax.  The heap below holds these objects; a reference is an index. *)

Definition Ref := nat.
Definition Heap := list StyleState.

Definition deref (h : Heap) (r : Ref) : StyleState := nth r h plainStyle.

Fixpoint assign (h : Heap) (r : Ref) (v : StyleState) : Heap :=
  match h, r with
  | [], _ => []
  | _ :: h', O => v :: h'
  | x :: h', S r' => x :: assign h' r' v
  end.





(** stripMarkers: [text.replace(regex, '')] with the global marker regex. *)
Definition stripMarkers (t : jstring) : jstring :=
  filter (fun c => negb (isMarker c)) t.

(** [toPersianDigits]: each ASCII digit ([\d]) is replaced by the entry of
    the table U+06F0..U+06F9 at its value. *)
Definition isDigit (c : N) : bool := (48 <=? c)%N && (c <=? 57)%N.

Definition persianDigits : list N :=
  [0x6F0; 0x6F1; 0x6F2; 0x6F3; 0x6F4; 0x6F5; 0x6F6; 0x6F7; 0x6F8; 0x6F9]%N.

Definition toPersianDigits (t : jstring) : jstring :=
  map (fun c => if isDigit c then nth (N.to_nat (c - 48)) persianDigits c else c) t.

(** The test of the regular expression [[\u0600-\u06FF]] on the text. *)
Definition hasPersianChar (t : jstring) : bool :=
  existsb (fun c => (0x600 <=? c)%N && (c <=? 0x6FF)%N) t.

(* ================================================================== *)
(** ** The drawing surface *)

Record Font := mkFont { fontName : string; fontStyle : string }.

(** Paint requests received by the document, oldest first. *)
Inductive Op :=
| OpText (t : jstring) (x y : Q) (isOutputRtl : bool) (f : Font) (size : Q)
| OpLine (x1 y1 x2 y2 : Q)
| OpAddPage.

Record Doc := mkDoc {
  docFont : Font;
  docFontSize : Q;
  docLineWidth : Q;
  docDash : list Q * Q;
  docDrawColor : Z * Z * Z;
  docPageWidth : Q;
  docPageHeight : Q;
  docPages : Z;
  docOps : list Op
}.

Definition getFont (d : Doc) : Font := docFont d.

Definition setFont (name style : string) (d : Doc) : Doc :=
  mkDoc (mkFont name style) (docFontSize d) (docLineWidth d) (docDash d)
        (docDrawColor d) (docPageWidth d) (docPageHeight d) (docPages d) (docOps d).

Definition getFontSize (d : Doc) : Q := docFontSize d.

Definition setLineWidth (w : Q) (d : Doc) : Doc :=
  mkDoc (docFont d) (docFontSize d) w (docDash d)
        (docDrawColor d) (docPageWidth d) (docPageHeight d) (docPages d) (docOps d).

Definition setLineDashPattern (pat : list Q) (phase : Q) (d : Doc) : Doc :=
  mkDoc (docFont d) (docFontSize d) (docLineWidth d) (pat, phase)
        (docDrawColor d) (docPageWidth d) (docPageHeight d) (docPages d) (docOps d).

Definition setDrawColor (r g b : Z) (d : Doc) : Doc :=
  mkDoc (docFont d) (docFontSize d) (docLineWidth d) (docDash d)
        (r, g, b) (docPageWidth d) (docPageHeight d) (docPages d) (docOps d).

Definition emit (o : Op) (d : Doc) : Doc :=
  mkDoc (docFont d) (docFontSize d) (docLineWidth d) (docDash d)
        (docDrawColor d) (docPageWidth d) (docPageHeight d) (docPages d)
        (docOps d ++ [o]).

(** [doc.text(t, x, y, { align: 'right', isOutputRtl })] *)
Definition docText (t : jstring) (x y : Q) (isOutputRtl : bool) (d : Doc) : Doc :=
  emit (OpText t x y isOutputRtl (docFont d) (docFontSize d)) d.

Definition docLine (x1 y1 x2 y2 : Q) (d : Doc) : Doc :=
  emit (OpLine x1 y1 x2 y2) d.

Definition addPage (d : Doc) : Doc :=
  mkDoc (docFont d) (docFontSize d) (docLineWidth d) (docDash d)
        (docDrawColor d) (docPageWidth d) (docPageHeight d) (docPages d + 1)
        (docOps d ++ [OpAddPage]).

(** [a > b] on numbers. *)
Definition Qgtb (a b : Q) : bool := negb (Qle_bool a b).

(* ================================================================== *)
(** ** The printer *)

Inductive Align := AlignRight | AlignCenter | AlignLeft.

Definition isRight (a : Align) : bool :=
  match a with AlignRight => true | _ => false end.

(** The page-break callback may paint on the document (header, footer)
    before it returns the next baseline. *)
Definition PageBreakCallback := Z -> Doc -> Q * Doc.

Record RtlPrinterConfig := mkConfig {
  cfgMaxWidth : Q;
  cfgLineHeight : Q;
  cfgDefaultStartX : option Q;
  cfgAlign : option Align;
  cfgJustify : option bool;
  cfgMarginTop : option Q;
  cfgMarginBottom : option Q;
  cfgFooterHeight : option Q;
  cfgHeaderHeight : option Q;
  cfgOnPageBreak : option PageBreakCallback;
  cfgFontName : string;
  cfgConvertDigitsToPersian : option bool;
  cfgUnderlineOffsetRatio : option Q;
  cfgStrikeOffsetRatio : option Q
}.

(** The readonly fields of the class. *)
Record Printer := mkPrinter {
  maxWidth : Q;
  lineHeight : Q;
  defaultStartX : Q;
  align : Align;
  justify : bool;
  marginTop : Q;
  marginBottom : Q;
  footerHeight : Q;
  headerHeight : Q;
  pageHeight : Q;
  onPageBreak : option PageBreakCallback;
  printerFontName : string;
  convertDigitsToPersian : bool;
  underlineOffsetRatio : Q;
  strikeOffsetRatio : Q
}.

(** [a ?? b] *)
Definition orElse {A} (o : option A) (dflt : A) : A :=
  match o with Some a => a | None => dflt end.

(** The fixed safety buffer subtracted from the configured width. *)
Definition WIDTH_BUFFER : Q := 5.

Definition constructor (config : RtlPrinterConfig) (doc : Doc) : Printer :=
  mkPrinter
    (cfgMaxWidth config - WIDTH_BUFFER)
    (cfgLineHeight config)
    (orElse (cfgDefaultStartX config) (docPageWidth doc - 10))
    (orElse (cfgAlign config) AlignRight)
    (orElse (cfgJustify config) true)
    (orElse (cfgMarginTop config) 10)
    (orElse (cfgMarginBottom config) 10)
    (orElse (cfgFooterHeight config) 0)
    (orElse (cfgHeaderHeight config) 0)
    (docPageHeight doc)
    (cfgOnPageBreak config)
    (cfgFontName config)
    (orElse (cfgConvertDigitsToPersian config) true)
    (orElse (cfgUnderlineOffsetRatio config) (18 # 100))
    (orElse (cfgStrikeOffsetRatio config) (1 # 10)).

(** The mutable part: the document and the private page counter. *)
Record World := mkWorld { doc : Doc; pageCounter : Z }.

Definition initialPageCounter : Z := 1.

(* ================================================================== *)
(** ** Character classes of the regular expressions *)

(** [\s], also the characters removed by [trim()]. *)
Definition isSpace (c : N) : bool :=
  existsb (N.eqb c)
    [0x09; 0x0A; 0x0B; 0x0C; 0x0D; 0x20; 0xA0; 0x1680; 0x2028; 0x2029;
     0x202F; 0x205F; 0x3000; 0xFEFF]%N
  || ((0x2000 <=? c)%N && (c <=? 0x200A)%N).

(** The characters that [.] does not match. *)
Definition isLineTerminator (c : N) : bool :=
  existsb (N.eqb c) [0x0A; 0x0D; 0x2028; 0x2029]%N.

Definition isUpper (c : N) : bool := (65 <=? c)%N && (c <=? 90)%N.
Definition isLower (c : N) : bool := (97 <=? c)%N && (c <=? 122)%N.

(** [A-Za-z] *)
Definition isLetter (c : N) : bool := isUpper c || isLower c.

(** The second class of the LTR block regex: letters, digits, [\s], and
    the punctuation marks full stop, comma, colon, semicolon, question
    mark, exclamation mark, apostrophe, quotation mark, parentheses,
    square brackets, braces, ampersand, asterisk and hyphen. *)
Definition isLtrBlockChar (c : N) : bool :=
  isLetter c || isDigit c || isSpace c
  || existsb (N.eqb c)
       [46; 44; 58; 59; 63; 33; 39; 34; 40; 41; 91; 93; 123; 125; 38; 42; 45]%N.

(** Case folding of the [i] flag, on the ASCII patterns used here: a code
    unit matches a pattern letter when both have the same upper case. *)
Definition upcase (c : N) : N := if isLower c then (c - 32)%N else c.

Definition ciEqb (pat c : N) : bool := N.eqb (upcase pat) (upcase c).

(** Case-insensitive prefix test; on success the rest of the string. *)
Fixpoint ciPrefix (pat s : jstring) : option jstring :=
  match pat, s with
  | [], _ => Some s
  | x :: pat', y :: s' => if ciEqb x y then ciPrefix pat' s' else None
  | _ :: _, [] => None
  end.

Fixpoint takeWhile (f : N -> bool) (s : jstring) : jstring :=
  match s with
  | [] => []
  | c :: s' => if f c then c :: takeWhile f s' else []
  end.

Fixpoint dropWhile (f : N -> bool) (s : jstring) : jstring :=
  match s with
  | [] => []
  | c :: s' => if f c then dropWhile f s' else s
  end.

Definition LT : N := 60.      (* < *)
Definition GT : N := 62.      (* > *)
Definition SLASH : N := 47.   (* / *)
Definition LPAREN : N := 40.
Definition RPAREN : N := 41.
Definition NEWLINE : N := 10.

(* ================================================================== *)
(** ** Global replacement *)

(** One attempt of a regular expression at the head of a string: on a
    match, the replacement text and the number of code units matched. *)
Definition Matcher := jstring -> option (jstring * nat).

(** [s.replace(re, ...)] for a global [re] that matches no empty string:
    scan from the left; where [re] matches, emit the replacement and
    resume after the match; elsewhere copy one code unit.  [skip] counts
    the code units of the last match that are still to be passed over. *)
Fixpoint replaceAll (re : Matcher) (skip : nat) (s : jstring) : jstring :=
  match s with
  | [] => []
  | c :: s' =>
      match skip with
      | S k => replaceAll re k s'
      | O =>
          match re s with
          | Some (out, n) => out ++ replaceAll re (pred n) s'
          | None => c :: replaceAll re 0 s'
          end
      end
  end.

Definition replace (re : Matcher) (s : jstring) : jstring := replaceAll re 0 s.

(** [/<br\s*\/?>/gi], replaced by a newline. *)
Definition brRegex : Matcher := fun s =>
  match s with
  | c :: s1 =>
      if N.eqb c LT then
        match ciPrefix (lit "br") s1 with
        | Some s2 =>
            let s3 := dropWhile isSpace s2 in
            let s4 := match s3 with
                      | c' :: s' => if N.eqb c' SLASH then s' else s3
                      | [] => s3
                      end in
            match s4 with
            | c' :: s5 =>
                if N.eqb c' GT then Some ([NEWLINE], (length s - length s5)%nat) else None
            | [] => None
            end
        | None => None
        end
      else None
  | [] => None
  end.

(** The lazy capture followed by the closing tag: the shortest run of
    characters other than line terminators after which [close] matches. *)
Fixpoint lazyUntil (close : jstring) (s : jstring) : option jstring :=
  match ciPrefix close s with
  | Some _ => Some []
  | None =>
      match s with
      | c :: s' =>
          if isLineTerminator c then None
          else match lazyUntil close s' with
               | Some inner => Some (c :: inner)
               | None => None
               end
      | [] => None
      end
  end.

(** One alternative [name] of a style regex, after the opening bracket:
    the name, the closing bracket, the lazy capture and the closing tag
    with the same name (the back reference). *)
Definition tagBody (name : string) (s1 : jstring) : option (jstring * nat) :=
  match ciPrefix (lit name ++ [GT]) s1 with
  | Some s2 =>
      let close := LT :: SLASH :: lit name ++ [GT] in
      match lazyUntil close s2 with
      | Some inner =>
          Some (inner, (length (lit name) + 1 + length inner + length close)%nat)
      | None => None
      end
  | None => None
  end.

Fixpoint firstAlternative (names : list string) (s1 : jstring) : option (jstring * nat) :=
  match names with
  | [] => None
  | name :: rest =>
      match tagBody name s1 with
      | Some r => Some r
      | None => firstAlternative rest s1
      end
  end.

(** A style regex with the alternatives [names], case-insensitive, and
    the replacement: start marker, captured text, end marker. *)
Definition styleRegex (names : list string) (start stop : N) : Matcher := fun s =>
  match s with
  | c :: s1 =>
      if N.eqb c LT then
        match firstAlternative names s1 with
        | Some (inner, n) => Some (start :: inner ++ [stop], S n)
        | None => None
        end
      else None
  | [] => None
  end.

(** [while (processed !== previous) { previous = processed; processed =
    processed.replace(...) }]; every pass that changes the text shortens
    it, so [fuel] past the length is never used up. *)
Fixpoint untilStable (fuel : nat) (f : jstring -> jstring) (processed : jstring) : jstring :=
  match fuel with
  | O => processed
  | S k =>
      let next := f processed in
      if jeqb next processed then next else untilStable k f next
  end.

Definition replaceStyle (names : list string) (start stop : N) (processed : jstring) : jstring :=
  untilStable (S (length processed)) (replace (styleRegex names start stop)) processed.

(** The replacement callback of the LTR block regex. *)
Definition wrapLtr (block : jstring) : jstring :=
  if existsb (N.eqb MARKERS.LTR_START) block || existsb (N.eqb MARKERS.LTR_END) block
  then block
  else MARKERS.LTR_START :: block ++ [MARKERS.LTR_END].

(** The LTR block regex: one or more letters, then any number of
    characters of the second class, both greedy. *)
Definition ltrBlockRegex : Matcher := fun s =>
  match s with
  | c :: s1 =>
      if isLetter c then
        let block := c :: takeWhile isLtrBlockChar s1 in
        Some (wrapLtr block, length block)
      else None
  | [] => None
  end.

(** [/<[^>]+>/g], replaced by the empty string. *)
Definition anyTagRegex : Matcher := fun s =>
  match s with
  | c :: s1 =>
      if N.eqb c LT then
        let inner := takeWhile (fun x => negb (N.eqb x GT)) s1 in
        match inner, dropWhile (fun x => negb (N.eqb x GT)) s1 with
        | _ :: _, _ :: _ => Some ([], S (S (length inner)))
        | _, _ => None
        end
      else None
  | [] => None
  end.

Definition TEMP_OPEN : jstring := lit "__TEMP_OPEN__".

Definition charRegex (c : N) (out : jstring) : Matcher := fun s =>
  match s with
  | x :: _ => if N.eqb x c then Some (out, 1%nat) else None
  | [] => None
  end.

Definition literalRegex (pat out : jstring) : Matcher := fun s =>
  match jprefix pat s with
  | Some _ => Some (out, length pat)
  | None => None
  end.

(** The text after tag conversion, LTR wrapping and tag removal, before
    the parentheses are exchanged. *)
Definition markText (text : jstring) : jstring :=
  let processed := replace brRegex text in
  let processed :=
    replaceStyle ["b"; "strong"]%string MARKERS.BOLD_START MARKERS.BOLD_END processed in
  let processed :=
    replaceStyle ["u"; "ins"]%string MARKERS.UNDERLINE_START MARKERS.UNDERLINE_END processed in
  let processed :=
    replaceStyle ["s"; "strike"; "del"]%string MARKERS.STRIKE_START MARKERS.STRIKE_END processed in
  let processed :=
    replaceStyle ["ltr"]%string MARKERS.LTR_START MARKERS.LTR_END processed in
  let processed := replace ltrBlockRegex processed in
  replace anyTagRegex processed.

(** The three chained replacements that exchange the parentheses. *)
Definition fixParentheses (processed : jstring) : jstring :=
  replace (literalRegex TEMP_OPEN [RPAREN])
    (replace (charRegex RPAREN [LPAREN])
       (replace (charRegex LPAREN TEMP_OPEN) processed)).

Definition preprocessText (text : jstring) : jstring :=
  fixParentheses (markText text).

(** [text.split(sep)] for a one-character separator. *)
Fixpoint splitOn (sep : N) (s : jstring) : list jstring :=
  match s with
  | [] => [[]]
  | c :: s' =>
      if N.eqb c sep then [] :: splitOn sep s'
      else match splitOn sep s' with
           | part :: parts => (c :: part) :: parts
           | [] => [[c]]
           end
  end.

Definition tokenize (text : jstring) : list jstring :=
  filter (fun w => negb (jeqb w [])) (splitOn SPACE_CHAR text).

(** [!paragraph.trim()] *)
Definition isBlank (paragraph : jstring) : bool := forallb isSpace paragraph.

(* ================================================================== *)
(** ** Layout *)

(** The arguments of one invocation of renderLine. *)
Record LineCall := mkLineCall {
  lcWords : list jstring;
  lcStartX : Q;
  lcY : Q;
  lcJustify : bool;
  lcState : StyleState
}.

Section Layout.

(** Glyph metrics of the surface: the width of a text under a font and
    a font size. *)
Variable textWidth : Font -> Q -> jstring -> Q.

Variable p : Printer.

Definition getTextWidth (d : Doc) (t : jstring) : Q :=
  textWidth (docFont d) (docFontSize d) t.

Definition styleName (bold : bool) : string :=
  if bold then "bold"%string else "normal"%string.

(** *** getWordWidthWithState *)

Definition textForMeasure (segment : TextSegment) : jstring :=
  if convertDigitsToPersian p && negb (segLtr segment)
  then toPersianDigits (text segment)
  else text segment.

Definition measureSegment (acc : Q * Doc) (segment : TextSegment) : Q * Doc :=
  let '(width, d) := acc in
  let d := setFont (printerFontName p) (styleName (segBold segment)) d in
  (width + getTextWidth d (textForMeasure segment), d).

(** The segmentation is called on a spread copy of [state], so the
    caller's vector is passed by value (lemma [parseOnCopy_value]). *)
Definition getWordWidthWithState (word : jstring) (state : StyleState) (d : Doc)
  : (Q * StyleState) * Doc :=
  let '(segments, nextState) := parseSegmentsWithState word state in
  let currentFont := getFont d in
  let '(width, d) := fold_left measureSegment segments (0, d) in
  let d := setFont (fontName currentFont) (fontStyle currentFont) d in
  ((width, nextState), d).

(** *** renderWordWithState *)

Definition overlap : Q := 3 # 10.

Definition decorated (g : TextSegment) : bool := segUnderline g || segStrike g.

Definition printableText (segment : TextSegment) : jstring :=
  if convertDigitsToPersian p && negb (segLtr segment)
  then toPersianDigits (text segment)
  else text segment.

(** The body of the loop over [segments], at index [i]. *)
Definition renderSegment (segments : list TextSegment) (i : nat)
    (segment : TextSegment) (y fontSize : Q) (currentX : Q) (d : Doc) : Q * Doc :=
  match text segment with
  | [] => (currentX, d)
  | _ :: _ =>
    let isRtlOutput := negb (segLtr segment) && hasPersianChar (text segment) in
    let style := styleName (segBold segment) in
    let currentFont := getFont d in
    let d := setFont (printerFontName p) style d in
    let segmentWidth := getTextWidth d (printableText segment) in
    let d := docText (printableText segment) currentX y isRtlOutput d in
    let rightX := currentX in
    let leftX := currentX - segmentWidth in
    let d :=
      if segUnderline segment || segStrike segment then
        let prevSegment := if (0 <? i)%nat then nth_error segments (i - 1) else None in
        let rightX :=
          match prevSegment with
          | Some g => if decorated g then rightX + overlap else rightX
          | None => rightX
          end in
        let nextSegment :=
          if (i <? length segments - 1)%nat then nth_error segments (i + 1) else None in
        let leftX :=
          match nextSegment with
          | Some g => if decorated g then leftX - overlap else leftX
          | None => leftX
          end in
        let d := setLineDashPattern [0] 0 d in
        let d := setDrawColor 0 0 0 d in
        let underlineY := y + fontSize * underlineOffsetRatio p in
        let strikeY := y - fontSize * strikeOffsetRatio p in
        let d := if segUnderline segment
                 then docLine rightX underlineY leftX underlineY d else d in
        let d := if segStrike segment
                 then docLine rightX strikeY leftX strikeY d else d in
        d
      else d in
    let currentX := currentX - segmentWidth in
    let d := setFont (fontName currentFont) (fontStyle currentFont) d in
    (currentX, d)
  end.

Fixpoint renderSegments (segments : list TextSegment) (i : nat)
    (rest : list TextSegment) (y fontSize : Q) (currentX : Q) (d : Doc) : Q * Doc :=
  match rest with
  | [] => (currentX, d)
  | segment :: rest' =>
      let '(currentX, d) := renderSegment segments i segment y fontSize currentX d in
      renderSegments segments (S i) rest' y fontSize currentX d
  end.

(** As in the measurement, the segmentation works on a spread copy of
    [state]. *)
Definition renderWordWithState (word : jstring) (x y : Q) (state : StyleState) (d : Doc)
  : (Q * StyleState) * Doc :=
  let '(segments, nextState) := parseSegmentsWithState word state in
  let fontSize := getFontSize d in
  let d := setLineWidth (15 # 100) d in
  let '(currentX, d) := renderSegments segments 0 segments y fontSize x d in
  let d := setFont (printerFontName p) "normal" d in
  ((currentX, nextState), d).

(** *** Line renderers *)

(** The callback of [words.reduce] that sums the measured widths while
    threading the style vector. *)
Definition sumWidth (acc : Q * StyleState * Doc) (w : jstring) : Q * StyleState * Doc :=
  let '(sum, s, d) := acc in
  let '((width, s'), d) := getWordWidthWithState w s d in
  (sum + width, s', d).

(** The loop of renderJustifiedLine over [words], from index [i]. *)
Fixpoint justifiedLoop (len i : nat) (rest : list jstring) (y spaceWidth
    extraSpacePerGap fontSize : Q) (currentX : Q) (state : StyleState) (d : Doc)
  : Q * StyleState * Doc :=
  match rest with
  | [] => (currentX, state, d)
  | word :: rest' =>
      let '((currentX, state), d) := renderWordWithState word currentX y state d in
      let '(currentX, d) :=
        if (i <? len - 1)%nat then
          let gapWidth := spaceWidth + extraSpacePerGap in
          let rightX := currentX in
          let leftX := currentX - gapWidth in
          let underlineY := y + fontSize * underlineOffsetRatio p in
          let strikeY := y - fontSize * strikeOffsetRatio p in
          let d := if isUnderline state
                   then docLine rightX underlineY leftX underlineY d else d in
          let d := if isStrike state
                   then docLine rightX strikeY leftX strikeY d else d in
          (currentX - gapWidth, d)
        else (currentX, d) in
      justifiedLoop len (S i) rest' y spaceWidth extraSpacePerGap fontSize
                    currentX state d
  end.

(** The loop of renderRegularLine over [words], from index [i]. *)
Fixpoint regularLoop (len i : nat) (rest : list jstring) (y spaceWidth fontSize : Q)
    (currentX : Q) (state : StyleState) (d : Doc) : Q * StyleState * Doc :=
  match rest with
  | [] => (currentX, state, d)
  | word :: rest' =>
      let '((currentX, state), d) := renderWordWithState word currentX y state d in
      let '(currentX, d) :=
        if (i <? len - 1)%nat then
          let rightX := currentX in
          let leftX := currentX - spaceWidth in
          let underlineY := y + fontSize * underlineOffsetRatio p in
          let strikeY := y - fontSize * strikeOffsetRatio p in
          let d := if isUnderline state
                   then docLine rightX underlineY leftX underlineY
                                (setDrawColor 0 0 0 d)
                   else d in
          let d := if isStrike state
                   then docLine rightX strikeY leftX strikeY
                                (setDrawColor 0 0 0 d)
                   else d in
          (currentX - spaceWidth, d)
        else (currentX, d) in
      regularLoop len (S i) rest' y spaceWidth fontSize currentX state d
  end.

Definition renderRegularLine (words : list jstring) (startX y : Q)
    (initialState : StyleState) (d : Doc) : Doc :=
  let currentX := startX in
  let spaceWidth := getTextWidth d [SPACE_CHAR] in
  let '(alignmentOffset, d) :=
    match align p with
    | AlignRight => (0, d)
    | a =>
        let '(sum, _, d) := fold_left sumWidth words (0, initialState, d) in
        let lineLength := sum + inject_Z (Z.of_nat (length words) - 1) * spaceWidth in
        let remainingWidth := maxWidth p - lineLength in
        match a with
        | AlignLeft => (remainingWidth, d)
        | _ => (remainingWidth / 2, d)
        end
    end in
  let currentX := currentX - alignmentOffset in
  let fontSize := getFontSize d in
  let '(_, _, d) :=
    regularLoop (length words) 0 words y spaceWidth fontSize currentX initialState d in
  d.

(** The amount added to every gap of a justified line. *)
Definition extraSpacePerGap (totalWordsWidth spaceWidth : Q) (spacesCount : Z) : Q :=
  (maxWidth p - totalWordsWidth - spaceWidth * inject_Z spacesCount)
  / inject_Z spacesCount.

Definition renderJustifiedLine (words : list jstring) (startX y : Q)
    (initialState : StyleState) (d : Doc) : Doc :=
  let '(totalWordsWidth, _, d) := fold_left sumWidth words (0, initialState, d) in
  let spacesCount := (Z.of_nat (length words) - 1)%Z in
  if (spacesCount <=? 0)%Z then renderRegularLine words startX y initialState d
  else
    let spaceWidth := getTextWidth d [SPACE_CHAR] in
    let extra := extraSpacePerGap totalWordsWidth spaceWidth spacesCount in
    let fontSize := getFontSize d in
    let '(_, _, d) :=
      justifiedLoop (length words) 0 words y spaceWidth extra fontSize
                    startX initialState d in
    d.

Definition renderLine (words : list jstring) (startX y : Q) (shouldJustify : bool)
    (initialState : StyleState) (d : Doc) : Doc :=
  if shouldJustify && isRight (align p)
  then renderJustifiedLine words startX y initialState d
  else renderRegularLine words startX y initialState d.

(** *** checkPageBreak *)

Definition PAGE_SAFETY : Q := 2.

Definition pageThreshold : Q := pageHeight p - footerHeight p - marginBottom p.

Definition checkPageBreak (y : Q) (w : World) : Q * World :=
  let threshold := pageThreshold in
  if Qgtb (y + lineHeight p + PAGE_SAFETY) threshold then
    let d := addPage (doc w) in
    let counter := (pageCounter w + 1)%Z in
    match onPageBreak p with
    | Some callback =>
        let '(y', d) := callback counter d in (y', mkWorld d counter)
    | None => (marginTop p + headerHeight p, mkWorld d counter)
    end
  else (y, w).

(** *** renderWords *)

(** The variables of the loop; [psCalls] records the invocations of
    renderLine so far, oldest first, and is never read by the loop. *)
Record PackState := mkPack {
  psY : Q;
  psLineWords : list jstring;
  psLineWidth : Q;
  psState : StyleState;
  psLineStartingState : StyleState;
  psWorld : World;
  psCalls : list LineCall
}.

(** The body of [for (const word of words)]. *)
Definition packWord (startX : Q) (justifyArg : bool) (spaceWidth : Q)
    (ps : PackState) (word : jstring) : PackState :=
  let spaceToUse := if (0 <? length (psLineWords ps))%nat then spaceWidth else 0 in
  let '((wordWidth, nextState), d) :=
    getWordWidthWithState word (psState ps) (doc (psWorld ps)) in
  let w := mkWorld d (pageCounter (psWorld ps)) in
  if Qgtb (psLineWidth ps + wordWidth + spaceToUse) (maxWidth p) then
    let '(y, w) := checkPageBreak (psY ps) w in
    let shouldJustify := justifyArg && (1 <? length (psLineWords ps))%nat in
    let d := renderLine (psLineWords ps) startX y shouldJustify
                        (psLineStartingState ps) (doc w) in
    mkPack (y + lineHeight p) [word] wordWidth nextState (psState ps)
           (mkWorld d (pageCounter w))
           (psCalls ps ++ [mkLineCall (psLineWords ps) startX y shouldJustify
                                      (psLineStartingState ps)])
  else
    mkPack (psY ps) (psLineWords ps ++ [word])
           (psLineWidth ps + (wordWidth + spaceToUse)) nextState
           (psLineStartingState ps) w (psCalls ps).

Definition packStart (startY : Q) (w : World) : PackState :=
  mkPack startY [] 0 plainStyle plainStyle w [].

Definition packWords (words : list jstring) (startX startY : Q) (justifyArg : bool)
    (w : World) : PackState :=
  let spaceWidth := getTextWidth (doc w) [SPACE_CHAR] in
  fold_left (packWord startX justifyArg spaceWidth) words (packStart startY w).

(** The flush after the loop. *)
Definition flushLine (startX : Q) (ps : PackState) : Q * World * list LineCall :=
  match psLineWords ps with
  | [] => (psY ps, psWorld ps, [])
  | _ :: _ =>
      let '(y, w) := checkPageBreak (psY ps) (psWorld ps) in
      let d := renderLine (psLineWords ps) startX y false
                          (psLineStartingState ps) (doc w) in
      (y + lineHeight p, mkWorld d (pageCounter w),
       [mkLineCall (psLineWords ps) startX y false (psLineStartingState ps)])
  end.

(** Returns the next baseline, the world, and the invocations of
    renderLine it made. *)
Definition renderWords (words : list jstring) (startX startY : Q) (justifyArg : bool)
    (w : World) : Q * World * list LineCall :=
  let ps := packWords words startX startY justifyArg w in
  let '(y, w', final) := flushLine startX ps in
  (y, w', psCalls ps ++ final).

(** *** print *)

Record PrintOptions := mkOptions {
  optStartX : option Q;
  optStartY : Q;
  optJustify : option bool
}.

Definition printParagraph (startX : Q) (shouldJustify : bool)
    (acc : Q * World * list LineCall) (paragraph : jstring)
  : Q * World * list LineCall :=
  let '(currentY, w, calls) := acc in
  if isBlank paragraph then (currentY + lineHeight p, w, calls)
  else
    let words := tokenize paragraph in
    let '(y, w, made) := renderWords words startX currentY shouldJustify w in
    (y, w, calls ++ made).

Definition print (text : jstring) (options : PrintOptions) (w : World)
  : Q * World * list LineCall :=
  let startX := orElse (optStartX options) (defaultStartX p) in
  let shouldJustify := orElse (optJustify options) (justify p) in
  let processedText := preprocessText text in
  let paragraphs := splitOn NEWLINE processedText in
  fold_left (printParagraph startX shouldJustify) paragraphs (optStartY options, w, []).

End Layout.

(* ================================================================== *)
(** ** Segmentation as the specification words it

    The word is a stream of tokens: maximal runs of literal characters
    and style markers.  A START marker sets one flag of the vector, an
    END marker clears it, and a literal run becomes a segment that
    carries the vector of that point. *)

Inductive StyleKind := Bold | Underline | Strike | Ltr.

Inductive Token :=
| Literal (run : jstring)
| StyleStart (k : StyleKind)
| StyleEnd (k : StyleKind).

Definition markerToken (c : N) : option Token :=
  if N.eqb c MARKERS.BOLD_START then Some (StyleStart Bold)
  else if N.eqb c MARKERS.BOLD_END then Some (StyleEnd Bold)
  else if N.eqb c MARKERS.UNDERLINE_START then Some (StyleStart Underline)
  else if N.eqb c MARKERS.UNDERLINE_END then Some (StyleEnd Underline)
  else if N.eqb c MARKERS.STRIKE_START then Some (StyleStart Strike)
  else if N.eqb c MARKERS.STRIKE_END then Some (StyleEnd Strike)
  else if N.eqb c MARKERS.LTR_START then Some (StyleStart Ltr)
  else if N.eqb c MARKERS.LTR_END then Some (StyleEnd Ltr)
  else None.

Fixpoint tokens (word : jstring) : list Token :=
  match word with
  | [] => []
  | c :: w =>
      match markerToken c with
      | Some t => t :: tokens w
      | None =>
          match tokens w with
          | Literal run :: ts => Literal (c :: run) :: ts
          | ts => Literal [c] :: ts
          end
      end
  end.


Definition setFlag (k : StyleKind) (b : bool) (s : StyleState) : StyleState :=
  match k with
  | Bold => setBold b s
  | Underline => setUnderline b s
  | Strike => setStrike b s
  | Ltr => setLtr b s
  end.

Definition foldStyle (s : StyleState) (t : Token) : StyleState :=
  match t with
  | StyleStart k => setFlag k true s
  | StyleEnd k => setFlag k false s
  | Literal _ => s
  end.

Fixpoint segmentsOf (ts : list Token) (s : StyleState) : list TextSegment * StyleState :=
  match ts with
  | [] => ([], s)
  | Literal run :: ts' =>
      let '(segs, s') := segmentsOf ts' s in (snapshot run s :: segs, s')
  | t :: ts' => segmentsOf ts' (foldStyle s t)
  end.


(** The token a part of the split stands for. *)
Definition partToken (part : jstring) : list Token :=
  match part with
  | [] => []
  | [c] => match markerToken c with
           | Some t => [t]
           | None => [Literal part]
           end
  | _ => [Literal part]
  end.

(** The code units a token was read from. *)
Definition tokenText (t : Token) : jstring :=
  match t with
  | Literal run => run
  | StyleStart Bold => [MARKERS.BOLD_START]
  | StyleEnd Bold => [MARKERS.BOLD_END]
  | StyleStart Underline => [MARKERS.UNDERLINE_START]
  | StyleEnd Underline => [MARKERS.UNDERLINE_END]
  | StyleStart Strike => [MARKERS.STRIKE_START]
  | StyleEnd Strike => [MARKERS.STRIKE_END]
  | StyleStart Ltr => [MARKERS.LTR_START]
  | StyleEnd Ltr => [MARKERS.LTR_END]
  end.

Definition isLiteral (t : Token) : bool :=
  match t with Literal _ => true | _ => false end.


Definition markerFree (t : jstring) : bool := forallb (fun c => negb (isMarker c)) t.

(* ================================================================== *)
(** ** Observations used in the statements *)

(** Left-to-right sum, as the loops of the code accumulate it. *)
Definition Qsum (l : list Q) : Q := fold_left Qplus l 0.

(** The text paint requests of a log: text, right edge and font. *)
Definition painted (ops : list Op) : list (jstring * Q * Font) :=
  flat_map (fun o => match o with
                     | OpText t x _ _ f _ => [(t, x, f)]
                     | _ => []
                     end) ops.

Definition paintedText (r : jstring * Q * Font) : jstring := fst (fst r).
Definition paintedFont (r : jstring * Q * Font) : Font := snd r.

(** The number of page requests of a log. *)
Definition pageRequests (ops : list Op) : nat :=
  length (filter (fun o => match o with OpAddPage => true | _ => false end) ops).

Section Widths.

Variable textWidth : Font -> Q -> jstring -> Q.
Variable p : Printer.

(** The font under which a segment is measured and painted. *)
Definition segmentFont (g : TextSegment) : Font :=
  mkFont (printerFontName p) (styleName (segBold g)).

(** The width the measurement pass queries for a segment at a font size. *)
Definition measuredWidth (size : Q) (g : TextSegment) : Q :=
  textWidth (segmentFont g) size (textForMeasure p g).

(** The width by which the renderer moves its cursor for a segment. *)
Definition paintedWidth (size : Q) (g : TextSegment) : Q :=
  textWidth (segmentFont g) size (printableText p g).

(** Text paint requests for the segments of a word whose right edge is
    at [x]. *)
Fixpoint paintRun (size : Q) (x : Q) (segments : list TextSegment)
  : list (jstring * Q * Font) :=
  match segments with
  | [] => []
  | g :: rest =>
      (printableText p g, x, segmentFont g)
        :: paintRun size (x - paintedWidth size g) rest
  end.

(** The width of a word at a font size under an incoming style. *)
Definition wordWidth (size : Q) (word : jstring) (state : StyleState) : Q :=
  Qsum (map (measuredWidth size) (fst (parseSegmentsWithState word state))).

(** The style vector after a list of words. *)
Definition stateAfter (words : list jstring) (state : StyleState) : StyleState :=
  fold_left (fun s w => snd (parseSegmentsWithState w s)) words state.

(** The widths of the words of a line that starts in [state]. *)
Fixpoint wordWidths (size : Q) (words : list jstring) (state : StyleState) : list Q :=
  match words with
  | [] => []
  | w :: rest =>
      wordWidth size w state
        :: wordWidths size rest (snd (parseSegmentsWithState w state))
  end.

End Widths.

(** The style vector in which every line of a list of renderLine
    invocations starts, when the first one starts in [s]: each line starts
    in the vector reached after the words of the lines before it. *)
Fixpoint callsFrom (s : StyleState) (calls : list LineCall) : Prop :=
  match calls with
  | [] => True
  | c :: rest => lcState c = s /\ callsFrom (stateAfter (lcWords c) s) rest
  end.

(** The words handed to renderLine, in order. *)
Definition wordsOf (calls : list LineCall) : list jstring :=
  concat (map lcWords calls).

(** The path condition under which renderLine reaches the justified
    loop. *)
Definition justifiedRenderer (p : Printer) (c : LineCall) : bool :=
  lcJustify c && isRight (align p) && (1 <? length (lcWords c))%nat.

(** The number of gaps of a line, as a number. *)
Definition gapsOf (words : list jstring) : Q :=
  inject_Z (Z.of_nat (pred (length words))).

(** What holds of the variables of the line breaker after the words
    [seen], whatever the widths are. *)
Definition packInvariant (startX : Q) (justifyArg : bool) (seen : list jstring)
    (ps : PackState) : Prop :=
  wordsOf (psCalls ps) ++ psLineWords ps = seen
  /\ callsFrom plainStyle (psCalls ps)
  /\ psLineStartingState ps = stateAfter (wordsOf (psCalls ps)) plainStyle
  /\ psState ps = stateAfter seen plainStyle
  /\ Forall (fun c => lcJustify c = justifyArg && (1 <? length (lcWords c))%nat
                      /\ lcStartX c = startX)
            (psCalls ps)
  /\ (psLineWords ps = [] -> seen = []).

(* ================================================================== *)
(** ** Plain text and mirrored parentheses *)

(** The text holds a tag construct: an opening angle bracket with a
    closing angle bracket somewhere after it. *)
Fixpoint hasTag (t : jstring) : bool :=
  match t with
  | [] => false
  | c :: t' => (N.eqb c LT && existsb (N.eqb GT) t') || hasTag t'
  end.

(** Plain literal text: no tag construct and no marker sentinel. *)
Definition plainText (t : jstring) : Prop :=
  hasTag t = false /\ markerFree t = true.

Definition hasParenthesis (t : jstring) : bool :=
  existsb (fun c => N.eqb c LPAREN || N.eqb c RPAREN) t.

(** The opening parenthesis becomes the closing one and conversely. *)
Definition mirrorParen (c : N) : N :=
  if N.eqb c LPAREN then RPAREN
  else if N.eqb c RPAREN then LPAREN
  else c.

(** A letter is guarded when the character before it is the LTR start
    marker or belongs to the LTR block class. *)
Definition letterGuard (prev c : N) : bool :=
  negb (isLetter c) || N.eqb prev MARKERS.LTR_START || isLtrBlockChar prev.

Fixpoint guarded (prev : N) (s : jstring) : bool :=
  match s with
  | [] => true
  | c :: rest => letterGuard prev c && guarded c rest
  end.

(** The tag regexes match only at an opening angle bracket that has a
    closing angle bracket after it. *)
Definition needsTag (re : Matcher) : Prop :=
  forall c s r, re (c :: s) = Some r -> c = LT /\ In GT s.

(** Every match of the regex is replaced by a shorter text and lies
    within the string. *)
Definition shrinking (re : Matcher) : Prop :=
  forall s out n, re s = Some (out, n) -> (length out < n <= length s)%nat.

(** The text after the first two of the three chained replacements. *)
Definition parenToken (c : N) : jstring :=
  if N.eqb c LPAREN then TEMP_OPEN
  else if N.eqb c RPAREN then [LPAREN]
  else [c].

(* ================================================================== *)
(** ** The arithmetic of the width loops

    The line breaker of renderWords and the loop of getTextWidth over one
    paragraph, on the measured widths alone and over any number type: the
    same additions and comparisons, in the order in which the source
    performs them. *)

Section WidthLoops.

Variable num : Type.
Variable plus : num -> num -> num.
Variable greater : num -> num -> bool.
Variable zero : num.

(** The variable [lineWidth] as [running], the widths of the words of
    [lineWords] as [lineWidths], and the lines handed to renderLine so
    far, each as the widths of its words. *)
Record Breaker := mkBreaker {
  closedLines : list (list num);
  lineWidths : list num;
  running : num
}.

(** The body of [for (const word of words)] of renderWords. *)
Definition breakStep (spaceWidth maxWidth : num) (b : Breaker) (wordWidth : num)
  : Breaker :=
  let spaceToUse := match lineWidths b with [] => zero | _ :: _ => spaceWidth end in
  if greater (plus (plus (running b) wordWidth) spaceToUse) maxWidth then
    mkBreaker (closedLines b ++ [lineWidths b]) [wordWidth] wordWidth
  else
    mkBreaker (closedLines b) (lineWidths b ++ [wordWidth])
              (plus (running b) (plus wordWidth spaceToUse)).

(** The loop and the flush after it: the lines, in order. *)
Definition breakLines (spaceWidth maxWidth : num) (widths : list num)
  : list (list num) :=
  let b := fold_left (breakStep spaceWidth maxWidth) widths (mkBreaker [] [] zero) in
  closedLines b ++ match lineWidths b with [] => [] | _ :: _ => [lineWidths b] end.

(** The inner loop of getTextWidth: every word adds its width, and every
    word but the last adds a space width after it. *)
Fixpoint probeSum (spaceWidth : num) (widths : list num) (width : num) : num :=
  match widths with
  | [] => width
  | w :: rest =>
      let width := plus width w in
      let width := match rest with [] => width | _ :: _ => plus width spaceWidth end in
      probeSum spaceWidth rest width
  end.

End WidthLoops.

Arguments closedLines {num}.
Arguments lineWidths {num}.
Arguments running {num}.

(** [a > b] on binary64 numbers. *)
Definition float_gt (a b : float) : bool := PrimFloat.ltb b a.

Section Measured.

Variable textWidth : Font -> Q -> jstring -> Q.
Variable p : Printer.

(** The widths that the loop of renderWords obtains from
    getWordWidthWithState, word after word, from the state [ps] on: each
    word is measured at the font size the document has and in the style
    vector the loop has reached when its turn comes. *)
Fixpoint measuredWidths (startX : Q) (justifyArg : bool) (spaceWidth : Q)
    (ps : PackState) (words : list jstring) : list Q :=
  match words with
  | [] => []
  | word :: rest =>
      wordWidth textWidth p (docFontSize (doc (psWorld ps))) word (psState ps)
      :: measuredWidths startX justifyArg spaceWidth
           (packWord textWidth p startX justifyArg spaceWidth ps word) rest
  end.

(** The line [line] got its last word by an append that passed the test
    of the line breaker: after the words [seen] the current line was
    [line] without its last word and not empty, and the running width
    plus the width of the word plus the space width, added in this order,
    did not exceed the maximum width. *)
Definition passedTest (startX startY : Q) (justifyArg : bool) (w : World)
    (words line : list jstring) : Prop :=
  exists seen word rest,
    words = seen ++ word :: rest
    /\ let spaceWidth := getTextWidth textWidth (doc w) [SPACE_CHAR] in
       let ps := fold_left (packWord textWidth p startX justifyArg spaceWidth) seen
                           (packStart startY w) in
       let width :=
         wordWidth textWidth p (docFontSize (doc (psWorld ps))) word (psState ps) in
       psLineWords ps <> []
       /\ line = psLineWords ps ++ [word]
       /\ psLineWidth ps + width + spaceWidth <= maxWidth p.

End Measured.

(** The loop of renderWords and the loop on the measured widths keep in
    step: same running width, same lengths of the lines. *)
Definition inStep (ps : PackState) (b : Breaker Q) : Prop :=
  running b = psLineWidth ps
  /\ length (lineWidths b) = length (psLineWords ps)
  /\ map (@length Q) (closedLines b)
     = map (fun c => length (lcWords c)) (psCalls ps).

(** In exact arithmetic the running width is the sum of the widths of the
    line plus one space width for each gap, and a line of two or more
    words fits. *)
Definition exactBreaker (spaceWidth maxWidth : Q) (b : Breaker Q) : Prop :=
  running b
  == Qsum (lineWidths b) + inject_Z (Z.of_nat (pred (length (lineWidths b)))) * spaceWidth
  /\ ((2 <= length (lineWidths b))%nat -> running b <= maxWidth)
  /\ Forall (fun ws =>
               (2 <= length ws)%nat ->
               Qsum ws + inject_Z (Z.of_nat (pred (length ws))) * spaceWidth <= maxWidth)
            (closedLines b).

(* ================================================================== *)
(** ** A concrete surface and printer for the examples *)

Module Demo.

(** Every glyph is one unit wide in the normal weight and two units
    wide in bold, whatever the font size. *)
Definition glyphWidth (f : Font) (size : Q) (t : jstring) : Q :=
  inject_Z (Z.of_nat (length t))
  * (if String.eqb (fontStyle f) "bold" then 2 else 1).

Definition page : Doc :=
  mkDoc (mkFont "Vazir" "normal") 10 0 ([], 0) (0, 0, 0)%Z 210 100 1 [].

Definition config (width : Q) (callback : option PageBreakCallback) : RtlPrinterConfig :=
  mkConfig width 10 None None None (Some 10) (Some 10) (Some 10) (Some 0)
           callback "Vazir"%string None None None.

Definition printer (width : Q) (callback : option PageBreakCallback) : Printer :=
  constructor (config width callback) page.

Definition world : World := mkWorld page initialPageCounter.

(** A callback that paints a header line and resumes at baseline 25. *)
Definition header : PageBreakCallback :=
  fun pageNumber d => (25, docLine 0 12 210 12 d).

End Demo.

(* ================================================================== *)
(** ** Further observations *)

(** [parts.join(sep)] for a one-character separator. *)
Fixpoint joinWith (sep : N) (parts : list jstring) : jstring :=
  match parts with
  | [] => []
  | [part] => part
  | part :: rest => part ++ sep :: joinWith sep rest
  end.

(** The text holds the code unit [c]. *)
Definition holds (c : N) (t : jstring) : bool := existsb (N.eqb c) t.

(** The Persian digit of an ASCII digit. *)
Definition persianDigit (c : N) : N := (c - 48 + 0x6F0)%N.

(** No text paint request of the document holds a marker. *)
Definition cleanLog (d : Doc) : Prop :=
  Forall (fun r => markerFree (paintedText r) = true) (painted (docOps d)).

(** The page-break callback paints no marker. *)
Definition callbackKeepsClean (p : Printer) : Prop :=
  match onPageBreak p with
  | Some callback => forall n d, cleanLog d -> cleanLog (snd (callback n d))
  | None => True
  end.

(** The page-break callback adds no page of its own. *)
Definition callbackKeepsPages (p : Printer) : Prop :=
  match onPageBreak p with
  | Some callback => forall n d, docPages (snd (callback n d)) = docPages d
  | None => True
  end.

Section TextWidthProbe.

Variable textWidth : Font -> Q -> jstring -> Q.
Variable p : Printer.

(** The loop of the public getTextWidth over the words of a paragraph,
    from index [i]. *)
Fixpoint paragraphWidth (len i : nat) (rest : list jstring) (spaceWidth : Q)
    (width : Q) (state : StyleState) (d : Doc) : Q * Doc :=
  match rest with
  | [] => (width, d)
  | word :: rest' =>
      let '((w, nextState), d) := getWordWidthWithState textWidth p word state d in
      let width := width + w in
      let width := if (i <? len - 1)%nat then width + spaceWidth else width in
      paragraphWidth len (S i) rest' spaceWidth width nextState d
  end.

(** The body of its loop over the paragraphs. *)
Definition widestParagraph (spaceWidth : Q) (acc : Q * Doc) (paragraph : jstring)
  : Q * Doc :=
  let '(widest, d) := acc in
  if isBlank paragraph then (widest, d)
  else
    let words := tokenize paragraph in
    let '(width, d) :=
      paragraphWidth (length words) 0 words spaceWidth 0 plainStyle d in
    (if Qgtb width widest then width else widest, d).

(** The public method [getTextWidth(text)] of the printer (the name
    getTextWidth above is the method of the document). *)
Definition printerGetTextWidth (text0 : jstring) (d : Doc) : Q * Doc :=
  let processed := preprocessText text0 in
  let paragraphs := splitOn NEWLINE processed in
  let spaceWidth := getTextWidth textWidth d [SPACE_CHAR] in
  fold_left (widestParagraph spaceWidth) paragraphs (0, d).

(** The width of a paragraph as the inner loop of getTextWidth adds it
    up: from 0, the width of each word and, after every word but the last,
    a space width. *)
Definition probedWidth (size spaceWidth : Q) (words : list jstring) : Q :=
  probeSum Q Qplus spaceWidth (wordWidths textWidth p size words plainStyle) 0.

(** The width of a line of words that starts in the plain style, as a sum
    of its widths plus one space width for each gap. *)
Definition lineWidth (size spaceWidth : Q) (words : list jstring) : Q :=
  Qsum (wordWidths textWidth p size words plainStyle) + gapsOf words * spaceWidth.

End TextWidthProbe.

(** Glyph widths are not negative. *)
Definition nonNegative (textWidth : Font -> Q -> jstring -> Q) : Prop :=
  forall f size t, 0 <= textWidth f size t.

(** The baseline leaves room for a line above the bottom threshold. *)
Definition fitsPage (p : Printer) (y : Q) : Prop :=
  y + lineHeight p + PAGE_SAFETY <= pageThreshold p.

(** The baseline is one at which rendering resumes after a page break. *)
Definition resumeBaseline (p : Printer) (y : Q) : Prop :=
  match onPageBreak p with
  | Some callback => exists n d, y = fst (callback n d)
  | None => y = marginTop p + headerHeight p
  end.

(** The baseline [y] after [n] steps of [y += h], one addition after the
    other as the code performs them. *)
Definition advance (h : Q) (n : nat) (y : Q) : Q := Nat.iter n (fun y => y + h) y.

(** The lines follow each other from baseline [y]: line [k] (from 0) is
    at [y] advanced [k] times by [h]. *)
Definition evenlySpaced (y h : Q) (calls : list LineCall) : Prop :=
  forall k c, nth_error calls k = Some c -> lcY c = advance h k y.

(** The line is rendered on the page or where a page resumes. *)
Definition onPage (p : Printer) (c : LineCall) : Prop :=
  fitsPage p (lcY c) \/ resumeBaseline p (lcY c).

(** The state of the loop of renderWords while no page break happened:
    the baseline advanced by one line height for each line rendered. *)
Definition unbroken (p : Printer) (startY : Q) (w0 : World) (ps : PackState) : Prop :=
  (pageCounter w0 <= pageCounter (psWorld ps))%Z
  /\ (pageCounter (psWorld ps) = pageCounter w0 ->
      evenlySpaced startY (lineHeight p) (psCalls ps)
      /\ psY ps = advance (lineHeight p) (length (psCalls ps)) startY).

(** The [styles] table of preprocessText: the tag names of each regular
    expression with the markers of its replacement. *)
Definition styles : list (list string * N * N) :=
  [ (["b"; "strong"]%string, MARKERS.BOLD_START, MARKERS.BOLD_END);
    (["u"; "ins"]%string, MARKERS.UNDERLINE_START, MARKERS.UNDERLINE_END);
    (["s"; "strike"; "del"]%string, MARKERS.STRIKE_START, MARKERS.STRIKE_END);
    (["ltr"]%string, MARKERS.LTR_START, MARKERS.LTR_END) ].

(** The [styles.forEach] loop. *)
Definition applyStyles (processed : jstring) : jstring :=
  fold_left (fun processed (style : list string * N * N) =>
               let '(names, start, stop) := style in
               replaceStyle names start stop processed)
            styles processed.

(** An element: opening tag, inner text, closing tag of the same name. *)
Definition element (name : string) (inner : jstring) : jstring :=
  LT :: lit name ++ GT :: inner ++ LT :: SLASH :: lit name ++ [GT].

(** A code unit that the dot of a regular expression matches and that
    starts neither a tag nor an LTR block. *)
Definition inertChar (c : N) : bool :=
  negb (N.eqb c LT) && negb (isLetter c) && negb (isLineTerminator c).

(** The line paint requests among [ops]. *)
Definition lineOps (ops : list Op) : list Op :=
  filter (fun o => match o with OpLine _ _ _ _ => true | _ => false end) ops.

(** Neither the underline nor the strike flag is set. *)
Definition undecorated (s : StyleState) : Prop :=
  isUnderline s = false /\ isStrike s = false.

(** A code unit other than the two markers that start a decoration. *)
Definition startsNoDecoration (c : N) : bool :=
  negb (N.eqb c MARKERS.UNDERLINE_START) && negb (N.eqb c MARKERS.STRIKE_START).

(** The page-break callback draws no line. *)
Definition callbackDrawsNoLine (p : Printer) : Prop :=
  match onPageBreak p with
  | Some callback =>
      forall n d, lineOps (docOps (snd (callback n d))) = lineOps (docOps d)
  | None => True
  end.

(** The state of the loop of renderWords on words without a marker that
    starts a decoration. *)
Definition plainPack (d0 : Doc) (ps : PackState) : Prop :=
  lineOps (docOps (doc (psWorld ps))) = lineOps (docOps d0)
  /\ undecorated (psState ps)
  /\ undecorated (psLineStartingState ps)
  /\ Forall (fun word => forallb startsNoDecoration word = true) (psLineWords ps).

(* ================================================================== *)
(** * Properties *)

Lemma jeqb_spec a b : reflect (a = b) (jeqb a b).
Proof.
  revert b; induction a as [|x a IH]; intros [|y b]; simpl;
    try (constructor; congruence).
  destruct (N.eqb_spec x y) as [->|Hxy]; simpl.
  - destruct (IH b) as [->|Hab]; constructor; congruence.
  - constructor; congruence.
Qed.

Lemma jeqb_refl a : jeqb a a = true.
Proof. destruct (jeqb_spec a a); congruence. Qed.

(** ** Segmentation *)

Lemma markerToken_isMarker c :
  isMarker c = match markerToken c with Some _ => true | None => false end.
Proof.
  unfold isMarker, markerToken, MARKERS.values; simpl.
  repeat (destruct (N.eqb c _); simpl; [reflexivity|]).
  reflexivity.
Qed.

Lemma markerToken_not_literal c t : markerToken c = Some t -> forall r, t <> Literal r.
Proof.
  unfold markerToken.
  repeat (destruct (N.eqb c _); [intros [= <-]; discriminate|]).
  discriminate.
Qed.

(** The split alternates marker-free text and single markers, starting
    with text. *)
Lemma splitMarkers_shape word :
  exists part parts,
    splitMarkers word = part :: parts
    /\ forallb (fun c => negb (isMarker c)) part = true
    /\ match parts with
       | [] => True
       | q :: _ => exists m, q = [m] /\ isMarker m = true
       end.
Proof.
  induction word as [|c w (part & parts & E & Hfree & Hnext)]; simpl.
  - exists [], []; auto.
  - destruct (isMarker c) eqn:Hc.
    + exists [], ([c] :: splitMarkers w); repeat split; eauto.
    + rewrite E. exists (c :: part), parts; repeat split; auto.
      simpl. now rewrite Hc.
Qed.

Lemma tokens_split word : tokens word = flat_map partToken (splitMarkers word).
Proof.
  induction word as [|c w IH]; simpl; [reflexivity|].
  rewrite markerToken_isMarker.
  destruct (markerToken c) as [t|] eqn:Hc; simpl.
  - rewrite Hc. simpl. now rewrite IH.
  - destruct (splitMarkers_shape w) as (part & parts & E & Hfree & Hnext).
    rewrite IH, E. cbn [flat_map].
    assert (Hcp : partToken (c :: part) = [Literal (c :: part)]).
    { destruct part; simpl; [now rewrite Hc | reflexivity]. }
    rewrite Hcp. cbn [app].
    destruct part as [|c1 part].
    + cbn [partToken app]. destruct parts as [|q parts]; [reflexivity|].
      destruct Hnext as (m & -> & Hm). simpl.
      rewrite markerToken_isMarker in Hm.
      destruct (markerToken m) as [t|] eqn:Htm; [|discriminate].
      simpl. destruct t; try reflexivity.
      now destruct (markerToken_not_literal _ _ Htm run).
    + assert (Hp : partToken (c1 :: part) = [Literal (c1 :: part)]).
      { destruct part; simpl; [|reflexivity].
        simpl in Hfree. rewrite markerToken_isMarker in Hfree.
        destruct (markerToken c1); [discriminate | reflexivity]. }
      rewrite Hp. reflexivity.
Qed.

Lemma switchPart_token segments state part :
  switchPart (segments, state) part =
  (segments ++ fst (segmentsOf (partToken part) state),
   snd (segmentsOf (partToken part) state)).
Proof.
  unfold switchPart.
  repeat match goal with
  | |- context [jeqb part ?m] =>
      destruct (jeqb_spec part m) as [->|?];
      [simpl; now rewrite app_nil_r|]
  end.
  destruct part as [|c [|c' part]]; simpl.
  - now rewrite app_nil_r.
  - unfold markerToken.
    repeat match goal with
    | |- context [N.eqb c ?m] =>
        destruct (N.eqb_spec c m) as [->|?]; [congruence|]
    end.
    reflexivity.
  - reflexivity.
Qed.

Lemma segmentsOf_app ts1 ts2 s :
  segmentsOf (ts1 ++ ts2) s =
  (fst (segmentsOf ts1 s) ++ fst (segmentsOf ts2 (snd (segmentsOf ts1 s))),
   snd (segmentsOf ts2 (snd (segmentsOf ts1 s)))).
Proof.
  revert s; induction ts1 as [|t ts1 IH]; intros s; simpl.
  - now destruct (segmentsOf ts2 s).
  - destruct t; simpl; try apply IH.
    rewrite IH. destruct (segmentsOf ts1 s); reflexivity.
Qed.

Lemma fold_switchPart parts segments state :
  fold_left switchPart parts (segments, state) =
  (segments ++ fst (segmentsOf (flat_map partToken parts) state),
   snd (segmentsOf (flat_map partToken parts) state)).
Proof.
  revert segments state; induction parts as [|part parts IH]; intros.
  - simpl. now rewrite app_nil_r.
  - cbn [fold_left flat_map].
    rewrite switchPart_token, IH, segmentsOf_app. cbn [fst snd].
    now rewrite app_assoc.
Qed.

Lemma parse_tokens word state :
  parseSegmentsWithState word state = segmentsOf (tokens word) state.
Proof.
  unfold parseSegmentsWithState.
  rewrite fold_switchPart, tokens_split. simpl.
  now destruct (segmentsOf _ state).
Qed.

Lemma markerToken_text c t : markerToken c = Some t -> tokenText t = [c].
Proof.
  unfold markerToken.
  repeat match goal with
  | |- context [N.eqb c ?m] =>
      destruct (N.eqb_spec c m) as [->|?]; [intros [= <-]; reflexivity|]
  end.
  discriminate.
Qed.

Lemma tokens_text word : flat_map tokenText (tokens word) = word.
Proof.
  induction word as [|c w IH]; simpl; [reflexivity|].
  destruct (markerToken c) as [t|] eqn:Hc; simpl.
  - now rewrite (markerToken_text _ _ Hc), IH.
  - destruct (tokens w) as [|[run| |] ts]; simpl in *; now rewrite IH.
Qed.

Lemma tokens_runs word :
  Forall (fun t => match t with
                   | Literal run => run <> [] /\ markerFree run = true
                   | _ => True
                   end) (tokens word).
Proof.
  induction word as [|c w IH]; simpl; [constructor|].
  destruct (markerToken c) as [t|] eqn:Hc.
  - constructor; [|exact IH].
    destruct t; auto. now destruct (markerToken_not_literal _ _ Hc run).
  - assert (Hm : negb (isMarker c) = true)
      by now rewrite markerToken_isMarker, Hc.
    destruct (tokens w) as [|[run| |] ts]; inversion IH; subst;
      constructor; auto; simpl; rewrite ?Hm; try (split; [discriminate|]); auto.
    simpl. tauto.
Qed.







Lemma deref_assign_other h : forall r r' v, r <> r' -> deref (assign h r v) r' = deref h r'.
Proof.
  induction h as [|x h IH]; intros [|r] [|r'] v H; simpl; try reflexivity; try congruence.
  apply IH. congruence.
Qed.













(** ** Measurement and painting of a word *)

Lemma setFont_own d : setFont (fontName (getFont d)) (fontStyle (getFont d)) d = d.
Proof. destruct d as [[n s] ? ? ? ? ? ? ? ?]; reflexivity. Qed.

Lemma segmentsOf_nonempty ts s :
  Forall (fun t => match t with
                   | Literal run => run <> [] /\ markerFree run = true
                   | _ => True
                   end) ts ->
  Forall (fun g => text g <> []) (fst (segmentsOf ts s)).
Proof.
  revert s; induction ts as [|t ts IH]; intros s H; simpl; [constructor|].
  inversion H; subst.
  destruct t; simpl; auto.
  specialize (IH s H3). destruct (segmentsOf ts s); simpl in *.
  constructor; [simpl; tauto | exact IH].
Qed.

Lemma parse_nonempty word state :
  Forall (fun g => text g <> []) (fst (parseSegmentsWithState word state)).
Proof. rewrite parse_tokens. apply segmentsOf_nonempty, tokens_runs. Qed.

Section WordProperties.

Variable textWidth : Font -> Q -> jstring -> Q.
Variable p : Printer.

Lemma measure_fold segments : forall acc d,
  fold_left (measureSegment textWidth p) segments (acc, d)
  = (fold_left Qplus (map (measuredWidth textWidth p (docFontSize d)) segments) acc,
     snd (fold_left (measureSegment textWidth p) segments (acc, d)))
  /\ forall n s,
       setFont n s (snd (fold_left (measureSegment textWidth p) segments (acc, d)))
       = setFont n s d.
Proof.
  induction segments as [|g segments IH]; intros acc d; simpl; [auto|].
  destruct (IH (acc + getTextWidth textWidth
                        (setFont (printerFontName p) (styleName (segBold g)) d)
                        (textForMeasure p g))
               (setFont (printerFontName p) (styleName (segBold g)) d))
    as [E F].
  split.
  - rewrite E at 1. reflexivity.
  - intros n s. rewrite F. reflexivity.
Qed.

Lemma getWordWidthWithState_eq word state d :
  getWordWidthWithState textWidth p word state d
  = ((wordWidth textWidth p (docFontSize d) word state,
      snd (parseSegmentsWithState word state)), d).
Proof.
  unfold getWordWidthWithState, wordWidth, Qsum.
  destruct (parseSegmentsWithState word state) as [segments nextState]; simpl.
  destruct (measure_fold segments 0 d) as [E F].
  rewrite E, F. now rewrite setFont_own.
Qed.

Lemma painted_app a b : painted (a ++ b) = painted a ++ painted b.
Proof. apply flat_map_app. Qed.

Lemma renderSegment_spec segments i g y fontSize x d :
  text g <> [] ->
  let r := renderSegment textWidth p segments i g y fontSize x d in
  fst r = x - paintedWidth textWidth p (docFontSize d) g
  /\ painted (docOps (snd r))
     = painted (docOps d) ++ [(printableText p g, x, segmentFont p g)]
  /\ docFontSize (snd r) = docFontSize d
  /\ pageRequests (docOps (snd r)) = pageRequests (docOps d).
Proof.
  intros Hne. unfold renderSegment.
  destruct (text g) as [|c t] eqn:Ht; [congruence|].
  cbv zeta.
  destruct (segUnderline g), (segStrike g); cbn [orb];
    repeat match goal with
    | |- context [match ?o with Some _ => _ | None => _ end] => destruct o
    | |- context [if ?b then _ else _] => destruct b
    end;
    cbn [fst snd setFont setLineDashPattern setDrawColor docLine docText emit
         docOps docFontSize docFont getFont fontName fontStyle];
    unfold pageRequests;
    rewrite ?painted_app, ?filter_app, <- ?app_assoc; cbn [painted flat_map app filter length];
    rewrite ?app_nil_r, ?length_app; cbn [length]; rewrite ?Nat.add_0_r;
    repeat split; reflexivity.
Qed.

Lemma renderSegments_spec segments y fontSize rest : forall i x d,
  Forall (fun g => text g <> []) rest ->
  let r := renderSegments textWidth p segments i rest y fontSize x d in
  fst r = fold_left Qminus (map (paintedWidth textWidth p (docFontSize d)) rest) x
  /\ painted (docOps (snd r))
     = painted (docOps d) ++ paintRun textWidth p (docFontSize d) x rest
  /\ docFontSize (snd r) = docFontSize d
  /\ pageRequests (docOps (snd r)) = pageRequests (docOps d).
Proof.
  induction rest as [|g rest IH]; intros i x d H; simpl.
  - rewrite app_nil_r. auto.
  - inversion H as [|? ? Hg Hrest]; subst.
    destruct (renderSegment_spec segments i g y fontSize x d Hg) as (E1 & E2 & E3 & E4).
    destruct (renderSegment textWidth p segments i g y fontSize x d) as [x1 d1].
    simpl in E1, E2, E3, E4.
    destruct (IH (S i) x1 d1 Hrest) as (F1 & F2 & F3 & F4).
    rewrite F1, F2, F3, F4, E1, E2, E3, E4.
    rewrite <- app_assoc. simpl. auto.
Qed.

Lemma renderWordWithState_spec word x y state d :
  let r := renderWordWithState textWidth p word x y state d in
  let segments := fst (parseSegmentsWithState word state) in
  fst (fst r)
    = fold_left Qminus (map (paintedWidth textWidth p (docFontSize d)) segments) x
  /\ snd (fst r) = snd (parseSegmentsWithState word state)
  /\ painted (docOps (snd r))
     = painted (docOps d) ++ paintRun textWidth p (docFontSize d) x segments
  /\ docFontSize (snd r) = docFontSize d
  /\ pageRequests (docOps (snd r)) = pageRequests (docOps d).
Proof.
  unfold renderWordWithState.
  pose proof (parse_nonempty word state) as Hne.
  destruct (parseSegmentsWithState word state) as [segments nextState].
  simpl in Hne |- *.
  destruct (renderSegments_spec segments y (getFontSize d) segments 0%nat x
              (setLineWidth (15 # 100) d) Hne) as (E1 & E2 & E3 & E4).
  destruct (renderSegments textWidth p segments 0 segments y (getFontSize d) x
              (setLineWidth (15 # 100) d)) as [x1 d1].
  simpl in *. auto.
Qed.

Lemma fold_minus_plus widths : forall x a,
  fold_left Qminus widths x + fold_left Qplus widths a == x + a.
Proof.
  induction widths as [|w widths IH]; intros x a; simpl; [reflexivity|].
  rewrite IH. ring.
Qed.

Lemma fold_minus_Qsum widths x :
  fold_left Qminus widths x == x - Qsum widths.
Proof.
  unfold Qsum. pose proof (fold_minus_plus widths x 0) as H. lra.
Qed.

End WordProperties.

Lemma Qgtb_lt a b : Qgtb a b = true <-> b < a.
Proof.
  unfold Qgtb. rewrite negb_true_iff.
  destruct (Qle_bool a b) eqn:E.
  - apply Qle_bool_iff in E. split; [discriminate | intros H; lra].
  - split; [intros _|reflexivity].
    destruct (Qlt_le_dec b a) as [H|H]; [exact H|].
    apply Qle_bool_iff in H. congruence.
Qed.

Lemma Qgtb_le a b : Qgtb a b = false <-> a <= b.
Proof.
  unfold Qgtb. rewrite negb_false_iff. apply Qle_bool_iff.
Qed.

(** C9.  Measuring a word leaves the document exactly as it found it:
    the font (family and style) that was current before the call is
    current after it, and no other field of the surface changes. *)
Theorem getWordWidthWithState_restores_font :
  forall textWidth p (word : jstring) (state : StyleState) (d : Doc),
    snd (getWordWidthWithState textWidth p word state d) = d
    /\ getFont (snd (getWordWidthWithState textWidth p word state d)) = getFont d.
Proof.
  intros. rewrite getWordWidthWithState_eq. split; reflexivity.
Qed.

(** C1.  Measurement and painting of a word agree.  For a word and an
    incoming style, measured on a document and painted on a document of
    the same font size: every segment is measured on the very string that
    is painted for it, in the same font; the measured width is the sum of
    the widths by which the renderer moves its cursor, so the cursor ends
    at the right edge minus the measured width; both passes leave the
    same outgoing style. *)
Theorem measure_paint_consistent :
  forall textWidth p (word : jstring) (state : StyleState) (x y : Q) (d d' : Doc),
    docFontSize d' = docFontSize d ->
    let segments := fst (parseSegmentsWithState word state) in
    let m := getWordWidthWithState textWidth p word state d in
    let r := renderWordWithState textWidth p word x y state d' in
    (forall g, textForMeasure p g = printableText p g)
    /\ (forall g, textForMeasure p g
                  = if convertDigitsToPersian p && negb (segLtr g)
                    then toPersianDigits (text g) else text g)
    /\ fst (fst m) = Qsum (map (measuredWidth textWidth p (docFontSize d)) segments)
    /\ painted (docOps (snd r))
       = painted (docOps d') ++ paintRun textWidth p (docFontSize d') x segments
    /\ map paintedText (paintRun textWidth p (docFontSize d') x segments)
       = map (textForMeasure p) segments
    /\ map paintedFont (paintRun textWidth p (docFontSize d') x segments)
       = map (segmentFont p) segments
    /\ fst (fst r)
       = fold_left Qminus (map (paintedWidth textWidth p (docFontSize d')) segments) x
    /\ fst (fst m) = Qsum (map (paintedWidth textWidth p (docFontSize d')) segments)
    /\ fst (fst r) == x - fst (fst m)
    /\ snd (fst r) = snd (fst m).
Proof.
  intros textWidth p word state x y d d' Hsize segments m r.
  destruct (renderWordWithState_spec textWidth p word x y state d')
    as (E1 & E2 & E3 & _).
  fold r in E1, E2, E3. fold segments in E1, E3.
  assert (Em : m = ((wordWidth textWidth p (docFontSize d) word state,
                     snd (parseSegmentsWithState word state)), d))
    by apply getWordWidthWithState_eq.
  assert (Hrun : forall size x0 l,
             map paintedText (paintRun textWidth p size x0 l) = map (textForMeasure p) l
             /\ map paintedFont (paintRun textWidth p size x0 l) = map (segmentFont p) l).
  { intros size x0 l; revert x0; induction l as [|g l IH]; intros x0; simpl; [auto|].
    destruct (IH (x0 - paintedWidth textWidth p size g)) as [A B].
    rewrite A, B. auto. }
  rewrite Em; simpl.
  repeat split; auto; try apply Hrun.
  - rewrite Hsize. reflexivity.
  - rewrite E1, Hsize. apply fold_minus_Qsum.
Qed.

Lemma measure_paint_consistent_witness :
  docFontSize (setFont "Vazir" "bold" Demo.page) = docFontSize Demo.page
  /\ fst (fst (renderWordWithState Demo.glyphWidth (Demo.printer 60 None)
                 (MARKERS.BOLD_START :: lit "ab12" ++ MARKERS.BOLD_END :: lit "c")
                 100 20 plainStyle (setFont "Vazir" "bold" Demo.page)))
     == 100 - fst (fst (getWordWidthWithState Demo.glyphWidth (Demo.printer 60 None)
                 (MARKERS.BOLD_START :: lit "ab12" ++ MARKERS.BOLD_END :: lit "c")
                 plainStyle Demo.page)).
Proof.
  split; [reflexivity|].
  apply (measure_paint_consistent Demo.glyphWidth (Demo.printer 60 None)
           (MARKERS.BOLD_START :: lit "ab12" ++ MARKERS.BOLD_END :: lit "c")
           plainStyle 100 20 Demo.page (setFont "Vazir" "bold" Demo.page)).
  reflexivity.
Defined.

(** ** Lines *)

Lemma fold_plus_shift l : forall a, fold_left Qplus l a == a + fold_left Qplus l 0.
Proof.
  induction l as [|w l IH]; intros a; simpl; [ring|].
  rewrite IH, (IH (0 + w)). ring.
Qed.

Lemma Qsum_cons a l : Qsum (a :: l) == a + Qsum l.
Proof. unfold Qsum; simpl. rewrite fold_plus_shift. ring. Qed.

Section LineProperties.

Variable textWidth : Font -> Q -> jstring -> Q.
Variable p : Printer.

Lemma sumWidth_fold words : forall acc s d,
  fold_left (sumWidth textWidth p) words (acc, s, d)
  = (fold_left Qplus (wordWidths textWidth p (docFontSize d) words s) acc,
     stateAfter words s, d).
Proof.
  induction words as [|w words IH]; intros acc s d; simpl; [reflexivity|].
  rewrite getWordWidthWithState_eq, IH. reflexivity.
Qed.

Lemma renderWord_cursor word x y state d :
  fst (fst (renderWordWithState textWidth p word x y state d))
  == x - wordWidth textWidth p (docFontSize d) word state.
Proof.
  destruct (renderWordWithState_spec textWidth p word x y state d) as (E & _).
  rewrite E. apply fold_minus_Qsum.
Qed.

Lemma justifiedLoop_cursor len y spaceWidth extra fontSize rest :
  forall i x state d,
    (i + length rest = len)%nat ->
    let r := justifiedLoop textWidth p len i rest y spaceWidth extra fontSize
                           x state d in
    fst (fst r)
      == x - Qsum (wordWidths textWidth p (docFontSize d) rest state)
           - gapsOf rest * (spaceWidth + extra)
    /\ snd (fst r) = stateAfter rest state
    /\ docFontSize (snd r) = docFontSize d
    /\ exists more, painted (docOps (snd r)) = painted (docOps d) ++ more.
Proof.
  induction rest as [|word rest IH]; intros i x state d Hlen.
  - simpl. unfold gapsOf, Qsum. simpl. repeat split; try ring.
    exists []. now rewrite app_nil_r.
  - cbn [justifiedLoop].
    pose proof (renderWord_cursor word x y state d) as Hx.
    destruct (renderWordWithState_spec textWidth p word x y state d)
      as (_ & Hs & Hp & Hsize & _).
    destruct (renderWordWithState textWidth p word x y state d)
      as [[x1 state1] d1].
    cbn [fst snd] in Hx, Hs, Hp, Hsize.
    destruct rest as [|word' rest'].
    + assert (Hlast : (i <? len - 1)%nat = false)
        by (apply Nat.ltb_ge; simpl in Hlen; lia).
      rewrite Hlast. simpl.
      repeat split; auto.
      * rewrite Hx. unfold gapsOf. simpl. rewrite Qsum_cons.
        unfold Qsum at 1. simpl. ring.
      * eexists. exact Hp.
    + assert (Hgap : (i <? len - 1)%nat = true)
        by (apply Nat.ltb_lt; simpl in Hlen; lia).
      rewrite Hgap. cbv zeta.
      set (d2 := if isStrike state1 then _ else _).
      assert (Hd2 : docFontSize d2 = docFontSize d
                    /\ exists more, painted (docOps d2) = painted (docOps d) ++ more).
      { subst d2. split.
        - destruct (isStrike state1), (isUnderline state1); simpl; exact Hsize.
        - destruct (isStrike state1), (isUnderline state1); simpl;
            rewrite ?painted_app, Hp, <- ?app_assoc; eexists; reflexivity. }
      destruct Hd2 as [Hsize2 [more2 Hp2]].
      destruct (IH (S i) (x1 - (spaceWidth + extra)) state1 d2) as (F1 & F2 & F3 & F4).
      { simpl in Hlen |- *. lia. }
      repeat split.
      * rewrite F1, Hsize2, Hx, Hs.
        cbn [wordWidths]. rewrite (Qsum_cons (wordWidth _ _ _ word state)).
        unfold gapsOf. cbn [length pred].
        rewrite Nat2Z.inj_succ, <- Z.add_1_r, inject_Z_plus.
        change (inject_Z 1) with 1. ring.
      * rewrite F2, Hs. reflexivity.
      * rewrite F3. exact Hsize2.
      * destruct F4 as [more F4]. rewrite F4, Hp2, <- app_assoc. eexists; reflexivity.
Qed.

Lemma justifiedLoop_first len y spaceWidth extra fontSize word rest i x state d :
  (i + length (word :: rest) = len)%nat ->
  exists more,
    painted (docOps (snd (justifiedLoop textWidth p len i (word :: rest) y
                            spaceWidth extra fontSize x state d)))
    = painted (docOps d)
      ++ paintRun textWidth p (docFontSize d) x
           (fst (parseSegmentsWithState word state))
      ++ more.
Proof.
  intros Hlen. cbn [justifiedLoop].
  destruct (renderWordWithState_spec textWidth p word x y state d)
    as (_ & _ & Hp & _).
  destruct (renderWordWithState textWidth p word x y state d)
    as [[x1 state1] d1].
  cbn [fst snd] in Hp.
  match goal with
  | |- context [let '(cx, dd) := ?e in _] => set (gap := e)
  end.
  assert (Hgap : painted (docOps (snd gap)) = painted (docOps d1)).
  { subst gap. destruct (i <? len - 1)%nat; [|reflexivity].
    cbv zeta. destruct (isStrike state1), (isUnderline state1); simpl;
      rewrite ?painted_app; simpl; rewrite ?app_nil_r; reflexivity. }
  destruct gap as [x2 d2]. cbn [snd] in Hgap.
  destruct (justifiedLoop_cursor len y spaceWidth extra fontSize rest
              (S i) x2 state1 d2) as (_ & _ & _ & more & Hmore).
  { simpl in Hlen |- *. lia. }
  exists more. rewrite Hmore, Hgap, Hp, <- app_assoc. reflexivity.
Qed.

End LineProperties.

(** C8.  A justified line of more than one word.  The line is painted by
    the justified loop with the extra space per gap
    [(maxWidth - totalWordsWidth - spaceWidth * (N - 1)) / (N - 1)], taken
    as it comes: it is negative as soon as words and spaces together
    exceed [maxWidth].  The segments of the first word are painted from
    the right edge [startX], and in exact arithmetic the cursor after the
    last word is at [startX - maxWidth]. *)
Theorem renderJustifiedLine_edges :
  forall textWidth p (words : list jstring) (startX y : Q)
         (initialState : StyleState) (d : Doc),
    (1 < length words)%nat ->
    let total := Qsum (wordWidths textWidth p (docFontSize d) words initialState) in
    let spaceWidth := getTextWidth textWidth d [SPACE_CHAR] in
    let spacesCount := (Z.of_nat (length words) - 1)%Z in
    let extra := extraSpacePerGap p total spaceWidth spacesCount in
    let loop := justifiedLoop textWidth p (length words) 0 words y spaceWidth extra
                              (getFontSize d) startX initialState d in
    renderJustifiedLine textWidth p words startX y initialState d = snd loop
    /\ extra == (maxWidth p - total - spaceWidth * inject_Z spacesCount)
                / inject_Z spacesCount
    /\ (maxWidth p < total + spaceWidth * inject_Z spacesCount -> extra < 0)
    /\ (exists more,
          painted (docOps (snd loop))
          = painted (docOps d)
            ++ paintRun textWidth p (docFontSize d) startX
                 (fst (parseSegmentsWithState (hd [] words) initialState))
            ++ more)
    /\ fst (fst loop) == startX - maxWidth p.
Proof.
  intros textWidth p words startX y initialState d Hlen
         total spaceWidth spacesCount extra loop.
  assert (Hcount : (0 < spacesCount)%Z) by (subst spacesCount; lia).
  assert (Hq : 0 < inject_Z spacesCount).
  { change 0 with (inject_Z 0). now rewrite <- Zlt_Qlt. }
  split; [|split; [|split; [|split]]].
  - unfold renderJustifiedLine.
    rewrite sumWidth_fold.
    fold spacesCount.
    destruct (Z.leb_spec spacesCount 0) as [H|_]; [lia|].
    cbv zeta. fold spaceWidth. unfold Qsum in total. fold total. fold extra.
    fold loop. now destruct loop as [[? ?] ?].
  - reflexivity.
  - intros Hover. unfold extra, extraSpacePerGap.
    apply Qlt_shift_div_r; [exact Hq|]. lra.
  - subst loop. destruct words as [|word rest]; [simpl in Hlen; lia|].
    apply justifiedLoop_first. reflexivity.
  - destruct (justifiedLoop_cursor textWidth p (length words) y spaceWidth extra
                (getFontSize d) words 0%nat startX initialState d eq_refl)
      as (E & _).
    fold loop in E. fold total in E. rewrite E.
    assert (Hg : gapsOf words = inject_Z spacesCount).
    { unfold gapsOf, spacesCount. f_equal. lia. }
    rewrite Hg. unfold extra, extraSpacePerGap. field. lra.
Qed.

Lemma renderJustifiedLine_edges_witness :
  (1 < length [lit "abcdefgh"; lit "ijklmnop"])%nat
  /\ fst (fst (justifiedLoop Demo.glyphWidth (Demo.printer 15 None) 2 0
                 [lit "abcdefgh"; lit "ijklmnop"] 20 1
                 (extraSpacePerGap (Demo.printer 15 None) (16 # 1) 1 1)
                 10 100 plainStyle Demo.page))
     == 100 - 10
  /\ extraSpacePerGap (Demo.printer 15 None) (16 # 1) 1 1 < 0.
Proof.
  split; [simpl; lia|].
  pose proof (renderJustifiedLine_edges Demo.glyphWidth (Demo.printer 15 None)
                [lit "abcdefgh"; lit "ijklmnop"] 100 20 plainStyle Demo.page
                ltac:(simpl; lia)) as H.
  split.
  - exact (proj2 (proj2 (proj2 (proj2 H)))).
  - apply (proj1 (proj2 (proj2 H))). reflexivity.
Defined.

(** ** The line breaker *)

Lemma stateAfter_app a b s : stateAfter (a ++ b) s = stateAfter b (stateAfter a s).
Proof. apply fold_left_app. Qed.

Lemma wordsOf_app a b : wordsOf (a ++ b) = wordsOf a ++ wordsOf b.
Proof. unfold wordsOf. now rewrite map_app, concat_app. Qed.

Lemma wordsOf_snoc a c : wordsOf (a ++ [c]) = wordsOf a ++ lcWords c.
Proof. rewrite wordsOf_app. unfold wordsOf at 2. simpl. now rewrite app_nil_r. Qed.

Lemma callsFrom_app a c s :
  callsFrom s a -> lcState c = stateAfter (wordsOf a) s -> callsFrom s (a ++ [c]).
Proof.
  revert s; induction a as [|c0 a IH]; intros s Ha Hc; simpl in *.
  - auto.
  - destruct Ha as [E Ha]. split; [exact E|].
    apply IH; [exact Ha|].
    rewrite Hc. unfold wordsOf; simpl. now rewrite stateAfter_app.
Qed.

Section BreakerProperties.

Variable textWidth : Font -> Q -> jstring -> Q.
Variable p : Printer.
Variable startX : Q.
Variable justifyArg : bool.
Variable spaceWidth : Q.

(** The state of the loop after a word, with the measurement spelled
    out. *)
Lemma packWord_eq ps word :
  let spaceToUse := if (0 <? length (psLineWords ps))%nat then spaceWidth else 0 in
  let width := wordWidth textWidth p (docFontSize (doc (psWorld ps))) word (psState ps) in
  let nextState := snd (parseSegmentsWithState word (psState ps)) in
  packWord textWidth p startX justifyArg spaceWidth ps word
  = if Qgtb (psLineWidth ps + width + spaceToUse) (maxWidth p) then
      let yw := checkPageBreak p (psY ps) (psWorld ps) in
      let shouldJustify := justifyArg && (1 <? length (psLineWords ps))%nat in
      mkPack (fst yw + lineHeight p) [word] width nextState (psState ps)
        (mkWorld (renderLine textWidth p (psLineWords ps) startX (fst yw)
                    shouldJustify (psLineStartingState ps) (doc (snd yw)))
                 (pageCounter (snd yw)))
        (psCalls ps ++ [mkLineCall (psLineWords ps) startX (fst yw) shouldJustify
                                   (psLineStartingState ps)])
    else
      mkPack (psY ps) (psLineWords ps ++ [word])
             (psLineWidth ps + (width + spaceToUse)) nextState
             (psLineStartingState ps) (psWorld ps) (psCalls ps).
Proof.
  unfold packWord. rewrite getWordWidthWithState_eq. cbv zeta.
  assert (Hw : mkWorld (doc (psWorld ps)) (pageCounter (psWorld ps)) = psWorld ps)
    by now destruct (psWorld ps).
  rewrite Hw.
  destruct (Qgtb _ _); [|reflexivity].
  now destruct (checkPageBreak p (psY ps) (psWorld ps)).
Qed.

Lemma packWord_invariant seen ps word :
  packInvariant startX justifyArg seen ps ->
  packInvariant startX justifyArg (seen ++ [word])
                (packWord textWidth p startX justifyArg spaceWidth ps word).
Proof.
  intros (Hw & Hc & Hl & Hs & Hj & He).
  rewrite packWord_eq. cbv zeta.
  destruct (Qgtb _ _); unfold packInvariant; cbn [psCalls psLineWords
    psLineStartingState psState].
  - rewrite !wordsOf_snoc. cbn [lcWords]. rewrite Hw.
    repeat split; auto.
    + apply callsFrom_app; [exact Hc|]. exact Hl.
    + rewrite stateAfter_app, <- Hs. reflexivity.
    + apply Forall_app; split; [exact Hj|]. constructor; [|constructor]. auto.
    + discriminate.
  - repeat split; auto.
    + rewrite app_assoc, Hw. reflexivity.
    + rewrite stateAfter_app, <- Hs. reflexivity.
    + intros H. now destruct (psLineWords ps).
Qed.

Lemma packWords_invariant words : forall seen ps,
  packInvariant startX justifyArg seen ps ->
  packInvariant startX justifyArg (seen ++ words)
    (fold_left (packWord textWidth p startX justifyArg spaceWidth) words ps).
Proof.
  induction words as [|word words IH]; intros seen ps H; simpl.
  - now rewrite app_nil_r.
  - replace (seen ++ word :: words) with ((seen ++ [word]) ++ words)
      by now rewrite <- app_assoc.
    apply IH, packWord_invariant, H.
Qed.

Lemma packStart_invariant startY w :
  packInvariant startX justifyArg [] (packStart startY w).
Proof. unfold packInvariant, packStart; simpl. repeat split; auto. Qed.

End BreakerProperties.

Section RenderLineProperties.

Variable textWidth : Font -> Q -> jstring -> Q.
Variable p : Printer.

Lemma regularLoop_fontSize len y spaceWidth fontSize rest :
  forall i x state d,
    docFontSize (snd (regularLoop textWidth p len i rest y spaceWidth fontSize
                                  x state d))
    = docFontSize d.
Proof.
  induction rest as [|word rest IH]; intros i x state d; [reflexivity|].
  cbn [regularLoop].
  destruct (renderWordWithState_spec textWidth p word x y state d)
    as (_ & _ & _ & Hsize & _).
  destruct (renderWordWithState textWidth p word x y state d)
    as [[x1 state1] d1].
  cbn [snd] in Hsize.
  destruct (i <? len - 1)%nat; cbv zeta.
  - rewrite IH. destruct (isStrike state1), (isUnderline state1); exact Hsize.
  - rewrite IH. exact Hsize.
Qed.

Lemma renderRegularLine_fontSize words startX y state d :
  docFontSize (renderRegularLine textWidth p words startX y state d) = docFontSize d.
Proof.
  unfold renderRegularLine.
  destruct (align p); rewrite ?sumWidth_fold; cbv zeta;
    match goal with
    | |- context [regularLoop ?a ?b ?c ?d ?e ?f ?g ?h ?i ?j ?k] =>
        pose proof (regularLoop_fontSize c f g h e d i j k) as H;
        destruct (regularLoop a b c d e f g h i j k) as [[? ?] ?]
    end; exact H.
Qed.

(** renderLine reaches the justified loop under [justifiedRenderer]
    and is the regular renderer otherwise. *)
Lemma renderLine_dispatch c d :
  renderLine textWidth p (lcWords c) (lcStartX c) (lcY c) (lcJustify c) (lcState c) d
  = if justifiedRenderer p c
    then
      let spaceWidth := getTextWidth textWidth d [SPACE_CHAR] in
      let total := Qsum (wordWidths textWidth p (docFontSize d) (lcWords c) (lcState c)) in
      let extra := extraSpacePerGap p total spaceWidth
                     (Z.of_nat (length (lcWords c)) - 1) in
      snd (justifiedLoop textWidth p (length (lcWords c)) 0 (lcWords c) (lcY c)
             spaceWidth extra (getFontSize d) (lcStartX c) (lcState c) d)
    else renderRegularLine textWidth p (lcWords c) (lcStartX c) (lcY c) (lcState c) d.
Proof.
  unfold renderLine, justifiedRenderer.
  destruct (lcJustify c && isRight (align p)); [|reflexivity].
  cbn [andb]. unfold renderJustifiedLine. rewrite sumWidth_fold.
  destruct (Nat.ltb_spec 1 (length (lcWords c))) as [H|H].
  - destruct (Z.leb_spec (Z.of_nat (length (lcWords c)) - 1) 0) as [H'|_]; [lia|].
    cbv zeta. unfold Qsum.
    match goal with
    | |- context [justifiedLoop ?a ?b ?c ?d ?e ?f ?g ?h ?i ?j ?k ?l] =>
        now destruct (justifiedLoop a b c d e f g h i j k l) as [[? ?] ?]
    end.
  - destruct (Z.leb_spec (Z.of_nat (length (lcWords c)) - 1) 0) as [_|H']; [|lia].
    reflexivity.
Qed.

Lemma renderLine_fontSize words startX y shouldJustify state d :
  docFontSize (renderLine textWidth p words startX y shouldJustify state d)
  = docFontSize d.
Proof.
  pose proof (renderLine_dispatch (mkLineCall words startX y shouldJustify state) d)
    as E.
  cbn [lcWords lcStartX lcY lcJustify lcState] in E. rewrite E. clear E.
  destruct (justifiedRenderer p _).
  - cbv zeta.
    match goal with
    | |- docFontSize (snd (justifiedLoop ?a ?b ?c ?d ?e ?f ?g ?h ?i ?j ?k ?l)) = _ =>
        destruct (justifiedLoop_cursor a b c f g h i e d j k l eq_refl)
          as (_ & _ & H & _)
    end.
    exact H.
  - apply renderRegularLine_fontSize.
Qed.

End RenderLineProperties.

Lemma Qsum_app a b : Qsum (a ++ b) == Qsum a + Qsum b.
Proof.
  unfold Qsum. rewrite fold_left_app, fold_plus_shift. reflexivity.
Qed.

Lemma Qsum_single a : Qsum [a] == a.
Proof. unfold Qsum; simpl. ring. Qed.

Lemma gapsOf_snoc l w :
  gapsOf (l ++ [w]) == gapsOf l + (if (0 <? length l)%nat then 1 else 0).
Proof.
  unfold gapsOf. rewrite length_app. simpl.
  destruct l as [|w0 l]; simpl; [reflexivity|].
  rewrite Nat.add_1_r, Nat2Z.inj_succ, <- Z.add_1_r, inject_Z_plus. reflexivity.
Qed.

Lemma wordWidths_app textWidth p size a b s :
  wordWidths textWidth p size (a ++ b) s
  = wordWidths textWidth p size a s
    ++ wordWidths textWidth p size b (stateAfter a s).
Proof.
  revert s; induction a as [|w a IH]; intros s; simpl; [reflexivity|].
  now rewrite IH.
Qed.

Section RenderWordsProperties.

Variable textWidth : Font -> Q -> jstring -> Q.
Variable p : Printer.

Lemma flushLine_calls startX ps :
  snd (flushLine textWidth p startX ps)
  = match psLineWords ps with
    | [] => []
    | _ :: _ =>
        [mkLineCall (psLineWords ps) startX
           (fst (checkPageBreak p (psY ps) (psWorld ps))) false
           (psLineStartingState ps)]
    end.
Proof.
  unfold flushLine. destruct (psLineWords ps); [reflexivity|].
  now destruct (checkPageBreak p (psY ps) (psWorld ps)).
Qed.

Lemma renderWords_calls words startX startY justifyArg w :
  snd (renderWords textWidth p words startX startY justifyArg w)
  = psCalls (packWords textWidth p words startX startY justifyArg w)
    ++ snd (flushLine textWidth p startX
              (packWords textWidth p words startX startY justifyArg w)).
Proof.
  unfold renderWords. cbv zeta.
  now destruct (flushLine _ _ _ _) as [[? ?] ?].
Qed.

Lemma packWords_structure words startX startY justifyArg w :
  packInvariant startX justifyArg words
    (packWords textWidth p words startX startY justifyArg w).
Proof.
  unfold packWords.
  apply (packWords_invariant textWidth p startX justifyArg
           (getTextWidth textWidth (doc w) [SPACE_CHAR]) words [] _).
  apply packStart_invariant.
Qed.

End RenderWordsProperties.

(** ** Page breaks *)

(** C4.  The page-break check.  It triggers exactly when
    [y + lineHeight + 2] exceeds [pageHeight - footerHeight -
    marginBottom].  On trigger a page is requested from the document, the
    page counter grows by one, and the result is the value returned by the
    callback for the new page number when a callback is configured (the
    callback runs on the document that holds the new page), otherwise
    [marginTop + headerHeight].  Without a trigger, [y] is returned and
    document and counter are untouched.  The check runs before every
    line: a line closed by the loop and the flushed line are rendered at
    the baseline the check returns, on the document the check leaves. *)
Theorem checkPageBreak_contract :
  forall p (y : Q) (w : World),
    (pageHeight p - footerHeight p - marginBottom p < y + lineHeight p + 2 ->
       let n := (pageCounter w + 1)%Z in
       docPages (addPage (doc w)) = (docPages (doc w) + 1)%Z
       /\ docOps (addPage (doc w)) = docOps (doc w) ++ [OpAddPage]
       /\ pageCounter (snd (checkPageBreak p y w)) = n
       /\ match onPageBreak p with
          | Some callback =>
              checkPageBreak p y w
              = (fst (callback n (addPage (doc w))),
                 mkWorld (snd (callback n (addPage (doc w)))) n)
          | None =>
              checkPageBreak p y w
              = (marginTop p + headerHeight p, mkWorld (addPage (doc w)) n)
          end)
    /\ (y + lineHeight p + 2 <= pageHeight p - footerHeight p - marginBottom p ->
        checkPageBreak p y w = (y, w))
    /\ (forall textWidth startX justifyArg spaceWidth ps word,
          let ps' := packWord textWidth p startX justifyArg spaceWidth ps word in
          let yw := checkPageBreak p (psY ps) (psWorld ps) in
          let shouldJustify := justifyArg && (1 <? length (psLineWords ps))%nat in
          (psCalls ps' = psCalls ps /\ psWorld ps' = psWorld ps /\ psY ps' = psY ps)
          \/ (psCalls ps'
              = psCalls ps ++ [mkLineCall (psLineWords ps) startX (fst yw) shouldJustify
                                          (psLineStartingState ps)]
              /\ psWorld ps'
                 = mkWorld (renderLine textWidth p (psLineWords ps) startX (fst yw)
                              shouldJustify (psLineStartingState ps) (doc (snd yw)))
                           (pageCounter (snd yw))
              /\ psY ps' = fst yw + lineHeight p))
    /\ (forall textWidth startX ps,
          let yw := checkPageBreak p (psY ps) (psWorld ps) in
          flushLine textWidth p startX ps
          = match psLineWords ps with
            | [] => (psY ps, psWorld ps, [])
            | _ :: _ =>
                (fst yw + lineHeight p,
                 mkWorld (renderLine textWidth p (psLineWords ps) startX (fst yw)
                            false (psLineStartingState ps) (doc (snd yw)))
                         (pageCounter (snd yw)),
                 [mkLineCall (psLineWords ps) startX (fst yw) false
                             (psLineStartingState ps)])
            end).
Proof.
  intros p y w. unfold checkPageBreak at 1 2 3 4, pageThreshold, PAGE_SAFETY.
  split; [|split; [|split]].
  - intros H. apply Qgtb_lt in H. rewrite H. cbv zeta.
    destruct (onPageBreak p) as [callback|].
    + destruct (callback (pageCounter w + 1)%Z (addPage (doc w))) as [y' d'].
      simpl. auto.
    + simpl. auto.
  - intros H. apply Qgtb_le in H. now rewrite H.
  - intros textWidth startX justifyArg spaceWidth ps word. cbv zeta.
    rewrite packWord_eq. cbv zeta.
    destruct (Qgtb _ (maxWidth p)); [right | left]; auto.
  - intros textWidth startX ps. cbv zeta. unfold flushLine.
    destruct (psLineWords ps); [reflexivity|].
    now destruct (checkPageBreak p (psY ps) (psWorld ps)).
Qed.

Lemma checkPageBreak_contract_witness :
  checkPageBreak (Demo.printer 60 (Some Demo.header)) 81 Demo.world
    = (25, mkWorld (docLine 0 12 210 12 (addPage Demo.page)) 2)
  /\ checkPageBreak (Demo.printer 60 None) 81 Demo.world
    = (10 + 0, mkWorld (addPage Demo.page) 2)
  /\ checkPageBreak (Demo.printer 60 (Some Demo.header)) 68 Demo.world
    = (68, Demo.world).
Proof.
  split; [|split].
  - apply (proj1 (checkPageBreak_contract (Demo.printer 60 (Some Demo.header))
                    81 Demo.world)).
    reflexivity.
  - apply (proj1 (checkPageBreak_contract (Demo.printer 60 None) 81 Demo.world)).
    reflexivity.
  - apply (proj1 (proj2 (checkPageBreak_contract (Demo.printer 60 (Some Demo.header))
                           68 Demo.world))).
    simpl. unfold Qle. simpl. lia.
Defined.

Lemma renderWords_lines textWidth p words startX startY justifyArg w :
  let ps := packWords textWidth p words startX startY justifyArg w in
  let final := snd (flushLine textWidth p startX ps) in
  snd (renderWords textWidth p words startX startY justifyArg w) = psCalls ps ++ final
  /\ wordsOf (psCalls ps ++ final) = words
  /\ callsFrom plainStyle (psCalls ps ++ final)
  /\ length final = match words with [] => 0%nat | _ :: _ => 1%nat end
  /\ Forall (fun c => lcJustify c = false) final.
Proof.
  intros ps final.
  destruct (packWords_structure textWidth p words startX startY justifyArg w)
    as (Hw & Hc & Hl & _ & _ & He).
  fold ps in Hw, Hc, Hl, He.
  split; [apply renderWords_calls|].
  subst final. rewrite flushLine_calls.
  destruct (psLineWords ps) as [|word0 line] eqn:Hline.
  - rewrite app_nil_r in *. rewrite (He eq_refl) in *.
    repeat split; auto.
  - rewrite wordsOf_snoc. cbn [lcWords].
    repeat split; auto.
    + apply callsFrom_app; [exact Hc|exact Hl].
    + destruct words; [|reflexivity]. now destruct (wordsOf (psCalls ps)).
Qed.

(** C5.  Which lines are justified.  The lines of a paragraph are the
    lines closed by the loop followed by the flushed line (there is one
    as soon as the paragraph has a word), and together they hold the
    words of the paragraph in order.  A line closed by the loop is
    painted by the justified loop exactly when justification is
    requested, the alignment is right and the line holds more than one
    word; the flushed line is never painted by it.  Every line that is not
    painted by the justified loop is painted by the regular renderer. *)
Theorem renderWords_justification :
  forall textWidth p (words : list jstring) (startX startY : Q)
         (justifyArg : bool) (w : World),
    let ps := packWords textWidth p words startX startY justifyArg w in
    let final := snd (flushLine textWidth p startX ps) in
    snd (renderWords textWidth p words startX startY justifyArg w) = psCalls ps ++ final
    /\ wordsOf (psCalls ps ++ final) = words
    /\ length final = match words with [] => 0%nat | _ :: _ => 1%nat end
    /\ Forall (fun c => justifiedRenderer p c
                        = justifyArg && isRight (align p)
                          && (1 <? length (lcWords c))%nat)
              (psCalls ps)
    /\ Forall (fun c => lcJustify c = false /\ justifiedRenderer p c = false) final
    /\ (forall c d,
          renderLine textWidth p (lcWords c) (lcStartX c) (lcY c) (lcJustify c)
                     (lcState c) d
          = if justifiedRenderer p c
            then
              let spaceWidth := getTextWidth textWidth d [SPACE_CHAR] in
              let total :=
                Qsum (wordWidths textWidth p (docFontSize d) (lcWords c) (lcState c)) in
              let extra := extraSpacePerGap p total spaceWidth
                             (Z.of_nat (length (lcWords c)) - 1) in
              snd (justifiedLoop textWidth p (length (lcWords c)) 0 (lcWords c) (lcY c)
                     spaceWidth extra (getFontSize d) (lcStartX c) (lcState c) d)
            else renderRegularLine textWidth p (lcWords c) (lcStartX c) (lcY c)
                                   (lcState c) d).
Proof.
  intros textWidth p words startX startY justifyArg w ps final.
  destruct (renderWords_lines textWidth p words startX startY justifyArg w)
    as (H1 & H2 & _ & H4 & H5).
  fold ps in H1, H2, H4, H5. fold final in H1, H2, H4, H5.
  destruct (packWords_structure textWidth p words startX startY justifyArg w)
    as (_ & _ & _ & _ & Hj & _).
  fold ps in Hj.
  repeat split; auto.
  - eapply Forall_impl; [|exact Hj].
    intros c [E _]. unfold justifiedRenderer. rewrite E.
    destruct justifyArg, (isRight (align p)), (1 <? length (lcWords c))%nat; reflexivity.
  - eapply Forall_impl; [|exact H5].
    intros c E. unfold justifiedRenderer. rewrite E. auto.
  - apply renderLine_dispatch.
Qed.

(** C6.  The style in which a line starts.  The lines handed to the
    renderer hold the words of the paragraph in order, and every line is
    rendered from the style vector reached after all the words before its
    first word.  In the loop, the vector recorded for a new line is the
    running vector before the breaking word is consumed, and the running
    vector then moves past that word.  Example: the text
    [<b>alpha beta</b> gamma] wrapped after [alpha] paints [alpha] in bold
    on the first line, [beta] in bold and [gamma] in the normal weight on
    the second. *)
Theorem line_starting_state :
  forall textWidth p (words : list jstring) (startX startY : Q)
         (justifyArg : bool) (w : World),
    let calls := snd (renderWords textWidth p words startX startY justifyArg w) in
    wordsOf calls = words
    /\ callsFrom plainStyle calls
    /\ (forall spaceWidth ps word,
          let ps' := packWord textWidth p startX justifyArg spaceWidth ps word in
          let spaceToUse :=
            if (0 <? length (psLineWords ps))%nat then spaceWidth else 0 in
          let width :=
            wordWidth textWidth p (docFontSize (doc (psWorld ps))) word (psState ps) in
          psState ps' = snd (parseSegmentsWithState word (psState ps))
          /\ psLineStartingState ps'
             = if Qgtb (psLineWidth ps + width + spaceToUse) (maxWidth p)
               then psState ps else psLineStartingState ps)
    /\ docOps (doc (snd (fst (print Demo.glyphWidth (Demo.printer 20 None)
                                (lit "<b>alpha beta</b> gamma")
                                (mkOptions None 20 None) Demo.world))))
       = [OpText (lit "alpha") 200 20 false (mkFont "Vazir" "bold") 10;
          OpText (lit "beta") 200 30 false (mkFont "Vazir" "bold") 10;
          OpText (lit "gamma") 191 30 false (mkFont "Vazir" "normal") 10].
Proof.
  intros textWidth p words startX startY justifyArg w calls.
  destruct (renderWords_lines textWidth p words startX startY justifyArg w)
    as (H1 & H2 & H3 & _).
  subst calls. rewrite H1.
  split; [exact H2|]. split; [exact H3|]. split.
  - intros spaceWidth ps word. cbv zeta. rewrite packWord_eq. cbv zeta.
    destruct (Qgtb _ _); auto.
  - vm_compute. reflexivity.
Qed.

(** *** The line breaker and the arithmetic of its loop *)

Section GreedyProperties.

Variable textWidth : Font -> Q -> jstring -> Q.
Variable p : Printer.
Variable startX startY : Q.
Variable justifyArg : bool.
Variable w : World.

Lemma run_passed words : forall seen rest,
  words = seen ++ rest ->
  let ps := fold_left (packWord textWidth p startX justifyArg
                         (getTextWidth textWidth (doc w) [SPACE_CHAR]))
                      seen (packStart startY w) in
  ((2 <= length (psLineWords ps))%nat ->
   passedTest textWidth p startX startY justifyArg w words (psLineWords ps))
  /\ Forall (fun c =>
               (2 <= length (lcWords c))%nat ->
               passedTest textWidth p startX startY justifyArg w words (lcWords c))
            (psCalls ps).
Proof.
  induction seen as [|word seen IH] using rev_ind; intros rest Hw.
  - cbn [fold_left packStart psLineWords psCalls length].
    split; [lia | constructor].
  - rewrite <- app_assoc in Hw. cbn [app] in Hw.
    destruct (IH (word :: rest) Hw) as [Hline Hcalls]. cbv zeta in Hline, Hcalls.
    cbv zeta. rewrite fold_left_app. cbn [fold_left].
    set (ps := fold_left (packWord textWidth p startX justifyArg
                            (getTextWidth textWidth (doc w) [SPACE_CHAR]))
                         seen (packStart startY w)) in *.
    rewrite packWord_eq. cbv zeta.
    destruct (Qgtb _ _) eqn:G; cbn [psLineWords psCalls].
    + split; [cbn [length]; lia|].
      apply Forall_app. split; [exact Hcalls|].
      constructor; [|constructor]. exact Hline.
    + split; [|exact Hcalls].
      rewrite length_app. cbn [length]. intros Hlen.
      assert (Hne : psLineWords ps <> [])
        by (destruct (psLineWords ps); [cbn [length] in Hlen; lia | discriminate]).
      exists seen, word, rest. split; [exact Hw|]. cbv zeta. fold ps.
      split; [exact Hne|]. split; [reflexivity|].
      apply Qgtb_le in G.
      destruct (psLineWords ps); [congruence | exact G].
Qed.

Lemma packWord_inStep spaceWidth ps b word :
  inStep ps b ->
  inStep (packWord textWidth p startX justifyArg spaceWidth ps word)
         (breakStep Q Qplus Qgtb 0 spaceWidth (maxWidth p) b
            (wordWidth textWidth p (docFontSize (doc (psWorld ps))) word (psState ps))).
Proof.
  intros (Hr & Hl & Hc). rewrite packWord_eq. cbv zeta. unfold breakStep.
  rewrite Hr.
  assert (Hs : match lineWidths b with [] => 0 | _ :: _ => spaceWidth end
               = if (0 <? length (psLineWords ps))%nat then spaceWidth else 0).
  { rewrite <- Hl. now destruct (lineWidths b). }
  rewrite Hs.
  destruct (Qgtb _ _); unfold inStep;
    cbn [running lineWidths closedLines psLineWidth psLineWords psCalls].
  - split; [reflexivity|]. split; [reflexivity|].
    rewrite !map_app, Hc. cbn [map lcWords]. now rewrite Hl.
  - split; [reflexivity|]. split; [|exact Hc].
    rewrite !length_app. cbn [length]. now rewrite Hl.
Qed.

Lemma packWords_inStep spaceWidth words : forall ps b,
  inStep ps b ->
  inStep (fold_left (packWord textWidth p startX justifyArg spaceWidth) words ps)
         (fold_left (breakStep Q Qplus Qgtb 0 spaceWidth (maxWidth p))
                    (measuredWidths textWidth p startX justifyArg spaceWidth ps words)
                    b).
Proof.
  induction words as [|word words IH]; intros ps b H; [exact H|].
  cbn [fold_left measuredWidths]. apply IH, packWord_inStep, H.
Qed.

End GreedyProperties.

Lemma breakLines_concat num plus greater zero spaceWidth maxWidth widths :
  concat (breakLines num plus greater zero spaceWidth maxWidth widths) = widths.
Proof.
  unfold breakLines. cbv zeta.
  assert (F : forall ws b,
             let b' := fold_left (breakStep num plus greater zero spaceWidth maxWidth)
                                 ws b in
             concat (closedLines b') ++ lineWidths b'
             = (concat (closedLines b) ++ lineWidths b) ++ ws).
  { induction ws as [|x ws IH]; intros b; cbv zeta; [now rewrite app_nil_r|].
    cbn [fold_left]. rewrite IH. unfold breakStep.
    destruct (greater _ _); cbn [closedLines lineWidths].
    - rewrite concat_app. cbn [concat]. rewrite app_nil_r, <- app_assoc.
      reflexivity.
    - rewrite <- !app_assoc. reflexivity. }
  specialize (F widths (mkBreaker num [] [] zero)). cbv zeta in F.
  cbn [closedLines lineWidths concat app] in F.
  etransitivity; [|exact F].
  destruct (lineWidths _); [now rewrite !app_nil_r|].
  rewrite concat_app. cbn [concat]. now rewrite app_nil_r.
Qed.

Lemma breakStep_exact spaceWidth maxWidth b x :
  exactBreaker spaceWidth maxWidth b ->
  exactBreaker spaceWidth maxWidth (breakStep Q Qplus Qgtb 0 spaceWidth maxWidth b x).
Proof.
  intros (Hr & Hf & Hc). unfold breakStep.
  destruct (Qgtb _ _) eqn:G; unfold exactBreaker;
    cbn [running lineWidths closedLines].
  - split; [|split].
    + unfold Qsum. cbn. ring.
    + cbn [length]. lia.
    + apply Forall_app. split; [exact Hc|]. constructor; [|constructor].
      intros Hlen. rewrite <- Hr. auto.
  - apply Qgtb_le in G.
    assert (E : running b + (x + match lineWidths b with
                                 | [] => 0 | _ :: _ => spaceWidth end)
                == Qsum (lineWidths b ++ [x])
                   + inject_Z (Z.of_nat (pred (length (lineWidths b ++ [x]))))
                     * spaceWidth).
    { rewrite Qsum_app, Qsum_single, Hr, length_app. cbn [length].
      destruct (lineWidths b) as [|x0 l]; cbn [length pred Nat.add].
      - change (inject_Z (Z.of_nat 0)) with 0. ring.
      - rewrite Nat.add_1_r. cbn [pred].
        rewrite Nat2Z.inj_succ, <- Z.add_1_r, inject_Z_plus.
        change (inject_Z 1) with 1. ring. }
    split; [exact E|]. split; [|exact Hc].
    intros _. lra.
Qed.

Lemma breakLines_exact spaceWidth maxWidth widths :
  Forall (fun ws =>
            (2 <= length ws)%nat ->
            Qsum ws + inject_Z (Z.of_nat (pred (length ws))) * spaceWidth <= maxWidth)
         (breakLines Q Qplus Qgtb 0 spaceWidth maxWidth widths).
Proof.
  unfold breakLines. cbv zeta.
  assert (F : forall ws b,
             exactBreaker spaceWidth maxWidth b ->
             exactBreaker spaceWidth maxWidth
               (fold_left (breakStep Q Qplus Qgtb 0 spaceWidth maxWidth) ws b)).
  { induction ws as [|x ws IH]; intros b H; [exact H|].
    cbn [fold_left]. apply IH, breakStep_exact, H. }
  destruct (F widths (mkBreaker Q [] [] 0)) as (Hr & Hf & Hc).
  { unfold exactBreaker. cbn. split; [unfold Qsum; cbn; ring|].
    split; [lia | constructor]. }
  apply Forall_app. split; [exact Hc|].
  destruct (lineWidths _) eqn:E; constructor; [|constructor].
  intros Hlen. rewrite <- Hr. auto.
Qed.

(** C2, as the code has it.  The effective maximum width is the
    configured width minus 5.  The loop closes the current line and starts
    a new one with the word exactly when the running width plus the width
    of the word plus one space (none on an empty line) exceeds it, and
    appends the word otherwise.  Hence every rendered line of two or more
    words got its last word by an append that passed this test: running
    width plus width of the word plus space width, added in this order,
    was at most the effective maximum width.  The rendered lines are the
    lines that the loop on the measured widths gives; in exact arithmetic
    each of these with two or more words has a sum of widths plus one
    space per gap that is at most the effective maximum width. *)
Theorem renderWords_greedy :
  forall textWidth config d0 (words : list jstring) (startX startY : Q)
         (justifyArg : bool) (w : World),
    let p := constructor config d0 in
    let spaceWidth := getTextWidth textWidth (doc w) [SPACE_CHAR] in
    let calls := snd (renderWords textWidth p words startX startY justifyArg w) in
    let widths :=
      measuredWidths textWidth p startX justifyArg spaceWidth
                     (packStart startY w) words in
    let lines := breakLines Q Qplus Qgtb 0 spaceWidth (cfgMaxWidth config - 5) widths in
    maxWidth p = cfgMaxWidth config - 5
    /\ (forall ps word,
          let ps' := packWord textWidth p startX justifyArg spaceWidth ps word in
          let spaceToUse :=
            if (0 <? length (psLineWords ps))%nat then spaceWidth else 0 in
          let width :=
            wordWidth textWidth p (docFontSize (doc (psWorld ps))) word (psState ps) in
          (cfgMaxWidth config - 5 < psLineWidth ps + width + spaceToUse ->
             psLineWords ps' = [word] /\ psLineWidth ps' = width
             /\ map lcWords (psCalls ps') = map lcWords (psCalls ps) ++ [psLineWords ps])
          /\ (psLineWidth ps + width + spaceToUse <= cfgMaxWidth config - 5 ->
             psLineWords ps' = psLineWords ps ++ [word]
             /\ psLineWidth ps' = psLineWidth ps + (width + spaceToUse)
             /\ psCalls ps' = psCalls ps))
    /\ Forall (fun c =>
                 (2 <= length (lcWords c))%nat ->
                 passedTest textWidth p startX startY justifyArg w words (lcWords c))
              calls
    /\ concat lines = widths
    /\ map (@length Q) lines = map (fun c => length (lcWords c)) calls
    /\ Forall (fun ws =>
                 (2 <= length ws)%nat ->
                 Qsum ws + inject_Z (Z.of_nat (pred (length ws))) * spaceWidth
                 <= cfgMaxWidth config - 5)
              lines.
Proof.
  intros textWidth config d0 words startX startY justifyArg w p spaceWidth calls
         widths lines.
  split; [reflexivity|]. split; [|split; [|split; [|split]]].
  - intros ps word. cbv zeta. rewrite packWord_eq. cbv zeta.
    change (cfgMaxWidth config - 5) with (maxWidth p).
    split; intros H.
    + apply Qgtb_lt in H. rewrite H. cbn [psLineWords psLineWidth psCalls].
      repeat split; auto. now rewrite map_app.
    + apply Qgtb_le in H. rewrite H. auto.
  - subst calls. rewrite renderWords_calls, flushLine_calls. unfold packWords.
    destruct (run_passed textWidth p startX startY justifyArg w words words []
                (eq_sym (app_nil_r words))) as [Hline Hcalls].
    cbv zeta in Hline, Hcalls. fold spaceWidth in Hline, Hcalls |- *.
    apply Forall_app. split; [exact Hcalls|].
    destruct (psLineWords _) eqn:E; constructor; [|constructor].
    cbn [lcWords]. exact Hline.
  - apply breakLines_concat.
  - subst calls lines widths. change (cfgMaxWidth config - 5) with (maxWidth p).
    rewrite renderWords_calls, flushLine_calls. unfold packWords, breakLines.
    cbv zeta. fold spaceWidth.
    destruct (packWords_inStep textWidth p startX justifyArg spaceWidth words
                (packStart startY w) (mkBreaker Q [] [] 0)) as (_ & Hl & Hc).
    { unfold inStep. cbn. auto. }
    rewrite !map_app, Hc. f_equal.
    destruct (lineWidths _) as [|x l]; destruct (psLineWords _) as [|x' l'];
      cbn [length] in Hl; try discriminate; [reflexivity|].
    cbn [map lcWords length]. now rewrite Hl.
  - apply breakLines_exact.
Qed.

Lemma renderWords_greedy_witness :
  passedTest Demo.glyphWidth (constructor (Demo.config 20 (Some Demo.header)) Demo.page)
    200 81 true Demo.world
    [lit "12345"; lit "6789"; lit "12345"] [lit "12345"; lit "6789"].
Proof.
  pose proof (renderWords_greedy Demo.glyphWidth (Demo.config 20 (Some Demo.header))
                Demo.page [lit "12345"; lit "6789"; lit "12345"] 200 81 true
                Demo.world) as H.
  cbv zeta in H. destruct H as (_ & _ & H & _).
  rewrite Forall_forall in H.
  apply (H (mkLineCall [lit "12345"; lit "6789"] 200 25 true plainStyle)).
  - vm_compute. left. reflexivity.
  - cbn [lcWords length]. lia.
Defined.

(** A word wider than the effective maximum width is rendered alone on a
    line that does not fit: with a configured width of 15 the effective
    maximum is 10, and the single word of width 12 is rendered. *)
Lemma overlong_word_overflows :
  exists c,
    In c (snd (renderWords Demo.glyphWidth (Demo.printer 15 None)
                 [lit "abcdefghijkl"] 200 20 true Demo.world))
    /\ ~ (Qsum (wordWidths Demo.glyphWidth (Demo.printer 15 None) 10
                  (lcWords c) (lcState c))
          + gapsOf (lcWords c) * 1 <= 15 - 5).
Proof.
  exists (mkLineCall [lit "abcdefghijkl"] 200 30 false plainStyle).
  split.
  - vm_compute. right. left. reflexivity.
  - vm_compute. intros H. apply H. reflexivity.
Qed.

(** With binary64 numbers the sum of a line that passed every test can
    still exceed the maximum: for a configured width of 66.8, a space
    width of 1.7 and the widths 25.3, 17.9 and 15.2 the loop keeps the
    three words on one line, and the sum of the three widths plus two
    space widths is above the effective maximum 66.8 - 5. *)
#[warnings="-inexact-float"] Lemma rounded_line_overflows :
  breakLines float PrimFloat.add float_gt 0%float 1.7%float
             (PrimFloat.sub 66.8 5)%float [25.3; 17.9; 15.2]%float
  = [[25.3; 17.9; 15.2]%float]
  /\ float_gt (PrimFloat.add (fold_left PrimFloat.add [25.3; 17.9; 15.2]%float 0%float)
                             (PrimFloat.mul 2 1.7)%float)
              (PrimFloat.sub 66.8 5)%float
     = true.
Proof. split; vm_compute; reflexivity. Qed.

(** ** Preprocessing *)

Lemma replaceAll_skip re n : forall s,
  replaceAll re n s = replaceAll re 0 (skipn n s).
Proof.
  induction n as [|n IH]; intros [|c s]; simpl; auto.
Qed.

Lemma replace_none re c s :
  re (c :: s) = None -> replace re (c :: s) = c :: replace re s.
Proof. unfold replace; simpl. now intros ->. Qed.

Lemma replace_some re c s out n :
  re (c :: s) = Some (out, n) ->
  replace re (c :: s) = out ++ replace re (skipn (pred n) s).
Proof. unfold replace; simpl. intros ->. now rewrite replaceAll_skip. Qed.

Lemma existsb_In_eqb c s : existsb (N.eqb c) s = true <-> In c s.
Proof.
  rewrite existsb_exists. split.
  - intros (x & Hx & E). apply N.eqb_eq in E. now subst.
  - intros H. exists c. split; [exact H | apply N.eqb_refl].
Qed.

Lemma ciPrefix_In pat : forall s r x, ciPrefix pat s = Some r -> In x r -> In x s.
Proof.
  induction pat as [|a pat IH]; intros s r x; simpl.
  - now intros [= ->].
  - destruct s as [|c s]; [discriminate|].
    destruct (ciEqb a c); [|discriminate].
    intros H Hx. right. eapply IH; eauto.
Qed.

Lemma dropWhile_In f s x : In x (dropWhile f s) -> In x s.
Proof.
  induction s as [|c s IH]; simpl; [auto|].
  destruct (f c); simpl; auto.
Qed.

Lemma ciEqb_GT c : ciEqb GT c = true -> c = GT.
Proof.
  unfold ciEqb. change (upcase GT) with 62%N. unfold upcase, isLower, GT.
  destruct (N.leb_spec 97 c), (N.leb_spec c 122); cbn [andb];
    intros E; apply N.eqb_eq in E; lia.
Qed.

Lemma ciPrefix_GT pat : forall s r, ciPrefix (pat ++ [GT]) s = Some r -> In GT s.
Proof.
  induction pat as [|a pat IH]; intros [|c s] r; simpl; try discriminate.
  - destruct (ciEqb GT c) eqn:E; [|discriminate].
    apply ciEqb_GT in E. subst. now left.
  - destruct (ciEqb a c); [|discriminate]. intros H. right. eapply IH; eauto.
Qed.

Lemma brRegex_needsTag : needsTag brRegex.
Proof.
  intros c s r. unfold brRegex.
  destruct (N.eqb_spec c LT) as [->|]; [|discriminate].
  destruct (ciPrefix (lit "br") s) as [s2|] eqn:E2; [|discriminate].
  set (s3 := dropWhile isSpace s2).
  set (s4 := match s3 with
             | [] => s3
             | c' :: s' => if N.eqb c' SLASH then s' else s3
             end).
  destruct s4 as [|c' s5] eqn:E4; [discriminate|].
  destruct (N.eqb_spec c' GT) as [->|]; [|discriminate].
  intros _. split; [reflexivity|].
  apply (ciPrefix_In _ _ _ _ E2). apply (dropWhile_In isSpace). fold s3.
  assert (H4 : In GT s4) by (rewrite E4; now left).
  subst s4. destruct s3 as [|c3 s3']; [exact H4|].
  destruct (N.eqb c3 SLASH); [now right | exact H4].
Qed.

Lemma firstAlternative_GT names : forall s r,
  firstAlternative names s = Some r -> In GT s.
Proof.
  induction names as [|name names IH]; intros s r; simpl; [discriminate|].
  destruct (tagBody name s) as [r'|] eqn:E; [|apply IH].
  intros _. unfold tagBody in E.
  destruct (ciPrefix (lit name ++ [GT]) s) as [s2|] eqn:E2; [|discriminate].
  eapply ciPrefix_GT; eauto.
Qed.

Lemma styleRegex_needsTag names start stop : needsTag (styleRegex names start stop).
Proof.
  intros c s r. unfold styleRegex.
  destruct (N.eqb_spec c LT) as [->|]; [|discriminate].
  destruct (firstAlternative names s) as [[inner n]|] eqn:E; [|discriminate].
  intros _. split; [reflexivity|]. eapply firstAlternative_GT; eauto.
Qed.

Lemma anyTagRegex_needsTag : needsTag anyTagRegex.
Proof.
  intros c s r. unfold anyTagRegex.
  destruct (N.eqb_spec c LT) as [->|]; [|discriminate].
  destruct (takeWhile _ s); [discriminate|].
  destruct (dropWhile (fun x => negb (N.eqb x GT)) s) as [|c' s'] eqn:E; [discriminate|].
  intros _. split; [reflexivity|].
  assert (Hc : c' = GT).
  { clear -E. induction s as [|x s IH]; simpl in E; [discriminate|].
    destruct (N.eqb_spec x GT) as [->|]; simpl in E; [congruence | auto]. }
  apply (dropWhile_In (fun x => negb (N.eqb x GT))). rewrite E, Hc. now left.
Qed.

Lemma replace_tagfree re s :
  needsTag re -> hasTag s = false -> replace re s = s.
Proof.
  intros Hre. induction s as [|c s IH]; intros H; [reflexivity|].
  simpl in H. apply orb_false_iff in H. destruct H as [Hc Hs].
  rewrite replace_none, IH; auto.
  destruct (re (c :: s)) as [r|] eqn:E; [|reflexivity].
  destruct (Hre c s r E) as [-> Hin].
  apply existsb_In_eqb in Hin. rewrite Hin in Hc. discriminate.
Qed.

Lemma untilStable_fixed n f s : f s = s -> untilStable (S n) f s = s.
Proof. intros E; simpl. now rewrite E, jeqb_refl. Qed.

Lemma replaceStyle_tagfree names start stop s :
  hasTag s = false -> replaceStyle names start stop s = s.
Proof.
  intros H. unfold replaceStyle. apply untilStable_fixed.
  apply replace_tagfree; [apply styleRegex_needsTag | exact H].
Qed.

(** On text without tag constructs only the LTR wrapping and the
    exchange of parentheses act. *)
Lemma markText_tagfree t :
  hasTag t = false ->
  markText t = replace anyTagRegex (replace ltrBlockRegex t).
Proof.
  intros H. unfold markText.
  rewrite (replace_tagfree brRegex t brRegex_needsTag H).
  rewrite (replaceStyle_tagfree _ _ _ t H).
  rewrite (replaceStyle_tagfree _ _ _ t H).
  rewrite (replaceStyle_tagfree _ _ _ t H).
  rewrite (replaceStyle_tagfree _ _ _ t H).
  reflexivity.
Qed.

(** *** The LTR block wrapping *)

Lemma takeWhile_dropWhile f s : takeWhile f s ++ dropWhile f s = s.
Proof.
  induction s as [|c s IH]; simpl; [reflexivity|].
  destruct (f c); simpl; [now rewrite IH | reflexivity].
Qed.

Lemma takeWhile_all f s : forallb f (takeWhile f s) = true.
Proof.
  induction s as [|c s IH]; simpl; [reflexivity|].
  destruct (f c) eqn:E; simpl; [now rewrite E | reflexivity].
Qed.

Lemma skipn_takeWhile f s : skipn (length (takeWhile f s)) s = dropWhile f s.
Proof.
  induction s as [|c s IH]; simpl; [reflexivity|].
  destruct (f c); simpl; [exact IH | reflexivity].
Qed.

Lemma dropWhile_length f s : (length (dropWhile f s) <= length s)%nat.
Proof.
  induction s as [|c s IH]; simpl; [lia|].
  destruct (f c); simpl; lia.
Qed.

Lemma isMarker_values c :
  isMarker c = true ->
  c = MARKERS.BOLD_START \/ c = MARKERS.BOLD_END
  \/ c = MARKERS.UNDERLINE_START \/ c = MARKERS.UNDERLINE_END
  \/ c = MARKERS.STRIKE_START \/ c = MARKERS.STRIKE_END
  \/ c = MARKERS.LTR_START \/ c = MARKERS.LTR_END.
Proof.
  unfold isMarker, MARKERS.values. cbn [existsb].
  repeat match goal with
  | |- context [N.eqb c ?m] => destruct (N.eqb_spec c m) as [->|_]; [tauto|]
  end.
  discriminate.
Qed.

Lemma blockChar_not_marker c : isLtrBlockChar c = true -> isMarker c = false.
Proof.
  intros H. destruct (isMarker c) eqn:E; [|reflexivity].
  apply isMarker_values in E.
  repeat (destruct E as [->|E]; [vm_compute in H; discriminate|]).
  subst. vm_compute in H. discriminate.
Qed.

Lemma letter_blockChar c : isLetter c = true -> isLtrBlockChar c = true.
Proof. unfold isLtrBlockChar. now intros ->. Qed.

Lemma block_lacks m block :
  isLtrBlockChar m = false -> forallb isLtrBlockChar block = true ->
  existsb (N.eqb m) block = false.
Proof.
  intros Hm. induction block as [|c block IH]; simpl; [reflexivity|].
  intros H. apply andb_true_iff in H. destruct H as [Hc Hb].
  rewrite (IH Hb), orb_false_r.
  destruct (N.eqb_spec m c) as [->|]; [congruence | reflexivity].
Qed.

Lemma wrapLtr_block block :
  forallb isLtrBlockChar block = true ->
  wrapLtr block = MARKERS.LTR_START :: block ++ [MARKERS.LTR_END].
Proof.
  intros H. unfold wrapLtr.
  now rewrite !block_lacks.
Qed.

Lemma ltrBlock_letter c s :
  isLetter c = true ->
  replace ltrBlockRegex (c :: s)
  = MARKERS.LTR_START :: c :: takeWhile isLtrBlockChar s
    ++ MARKERS.LTR_END :: replace ltrBlockRegex (dropWhile isLtrBlockChar s).
Proof.
  intros Hc.
  rewrite (replace_some ltrBlockRegex c s
             (wrapLtr (c :: takeWhile isLtrBlockChar s))
             (length (c :: takeWhile isLtrBlockChar s))).
  - rewrite wrapLtr_block.
    + cbn [length pred]. rewrite skipn_takeWhile. simpl.
      now rewrite <- app_assoc.
    + simpl. now rewrite (letter_blockChar c Hc), takeWhile_all.
  - unfold ltrBlockRegex. now rewrite Hc.
Qed.

Lemma ltrBlock_other c s :
  isLetter c = false ->
  replace ltrBlockRegex (c :: s) = c :: replace ltrBlockRegex s.
Proof.
  intros Hc. apply replace_none. unfold ltrBlockRegex. now rewrite Hc.
Qed.

Lemma stripMarkers_app a b : stripMarkers (a ++ b) = stripMarkers a ++ stripMarkers b.
Proof. apply filter_app. Qed.

Lemma ltrBlock_strip_aux n : forall s,
  (length s <= n)%nat ->
  stripMarkers (replace ltrBlockRegex s) = stripMarkers s.
Proof.
  induction n as [|n IH]; intros [|c s] Hlen; simpl in Hlen; try reflexivity; try lia.
  destruct (isLetter c) eqn:Hc.
  - rewrite ltrBlock_letter by exact Hc.
    rewrite <- (takeWhile_dropWhile isLtrBlockChar s) at 3.
    change (c :: takeWhile isLtrBlockChar s ++ dropWhile isLtrBlockChar s)
      with ((c :: takeWhile isLtrBlockChar s) ++ dropWhile isLtrBlockChar s).
    change (MARKERS.LTR_START :: c :: takeWhile isLtrBlockChar s
              ++ MARKERS.LTR_END :: replace ltrBlockRegex (dropWhile isLtrBlockChar s))
      with ([MARKERS.LTR_START] ++ (c :: takeWhile isLtrBlockChar s)
              ++ [MARKERS.LTR_END] ++ replace ltrBlockRegex (dropWhile isLtrBlockChar s)).
    rewrite !stripMarkers_app, IH.
    + reflexivity.
    + pose proof (dropWhile_length isLtrBlockChar s). lia.
  - rewrite ltrBlock_other by exact Hc.
    unfold stripMarkers in *. simpl. rewrite IH by lia. reflexivity.
Qed.

(** The wrapping only inserts markers. *)
Lemma ltrBlock_strip s : stripMarkers (replace ltrBlockRegex s) = stripMarkers s.
Proof. apply (ltrBlock_strip_aux (length s)). lia. Qed.

Lemma guarded_block prev run rest :
  isLtrBlockChar prev = true ->
  forallb isLtrBlockChar run = true ->
  (forall prev', guarded prev' rest = true) ->
  guarded prev (run ++ MARKERS.LTR_END :: rest) = true.
Proof.
  intros Hp Hrun Hrest. revert prev Hp.
  induction run as [|c run IH]; intros prev Hp; simpl.
  - now rewrite Hrest.
  - simpl in Hrun. apply andb_true_iff in Hrun. destruct Hrun as [Hc Hrun].
    rewrite (IH Hrun c Hc). unfold letterGuard. rewrite Hp.
    now rewrite !orb_true_r.
Qed.

Lemma ltrBlock_guarded_aux n : forall s prev,
  (length s <= n)%nat -> guarded prev (replace ltrBlockRegex s) = true.
Proof.
  induction n as [|n IH]; intros [|c s] prev Hlen; simpl in Hlen;
    try reflexivity; try lia.
  destruct (isLetter c) eqn:Hc.
  - rewrite ltrBlock_letter by exact Hc.
    cbn [guarded]. rewrite guarded_block.
    + unfold letterGuard. rewrite N.eqb_refl.
      now rewrite !orb_true_r.
    + now apply letter_blockChar.
    + apply takeWhile_all.
    + intros prev'. apply IH.
      pose proof (dropWhile_length isLtrBlockChar s). lia.
  - rewrite ltrBlock_other by exact Hc.
    cbn [guarded]. rewrite IH by lia.
    unfold letterGuard. now rewrite Hc.
Qed.

(** After the wrapping every letter is guarded. *)
Lemma ltrBlock_guarded s prev : guarded prev (replace ltrBlockRegex s) = true.
Proof. apply (ltrBlock_guarded_aux (length s)). lia. Qed.

(** *** Removal of the remaining tags *)

Lemma guarded_suffix a : forall prev x b,
  guarded prev (a ++ x :: b) = true -> guarded x b = true.
Proof.
  induction a as [|c a IH]; intros prev x b H; simpl in H;
    apply andb_true_iff in H; destruct H as [_ H]; [exact H|].
  eapply IH; eauto.
Qed.

Lemma guarded_after_GT rest prev :
  guarded GT rest = true -> guarded prev rest = true.
Proof.
  destruct rest as [|c rest]; [reflexivity|]. simpl.
  intros H. apply andb_true_iff in H. destruct H as [Hc Hrest].
  rewrite Hrest, andb_true_r.
  unfold letterGuard in *.
  change (N.eqb GT MARKERS.LTR_START) with false in Hc.
  change (isLtrBlockChar GT) with false in Hc.
  rewrite !orb_false_r in Hc. now rewrite Hc.
Qed.

Lemma dropWhile_head f s c rest : dropWhile f s = c :: rest -> f c = false.
Proof.
  induction s as [|x s IH]; simpl; [discriminate|].
  destruct (f x) eqn:E; [exact IH | congruence].
Qed.

Lemma anyTag_match c s out n :
  anyTagRegex (c :: s) = Some (out, n) ->
  exists inner rest,
    c = LT /\ s = inner ++ GT :: rest /\ out = []
    /\ skipn (pred n) s = rest.
Proof.
  unfold anyTagRegex.
  destruct (N.eqb_spec c LT) as [->|]; [|discriminate].
  pose proof (takeWhile_dropWhile (fun x => negb (N.eqb x GT)) s) as Hsplit.
  pose proof (skipn_takeWhile (fun x => negb (N.eqb x GT)) s) as Hskip.
  revert Hsplit Hskip.
  destruct (takeWhile _ s) as [|i0 inner]; [discriminate|].
  destruct (dropWhile (fun x => negb (N.eqb x GT)) s) as [|c' rest] eqn:Ed;
    [discriminate|].
  intros Hsplit Hskip [= <- <-].
  pose proof (dropWhile_head _ _ _ _ Ed) as Hc'.
  apply negb_false_iff, N.eqb_eq in Hc'. subst c'.
  exists (i0 :: inner), rest. repeat split.
  - now rewrite Hsplit.
  - replace (pred (S (S (S (length inner)))))
      with (1 + length (i0 :: inner))%nat by reflexivity.
    rewrite <- skipn_skipn. now rewrite Hskip.
Qed.

Lemma anyTag_guarded_aux n : forall s prev,
  (length s <= n)%nat ->
  guarded prev s = true -> guarded prev (replace anyTagRegex s) = true.
Proof.
  induction n as [|n IH]; intros [|c s] prev Hlen H; simpl in Hlen;
    try reflexivity; try lia.
  destruct (anyTagRegex (c :: s)) as [[out k]|] eqn:E.
  - rewrite (replace_some _ _ _ _ _ E).
    destruct (anyTag_match _ _ _ _ E) as (inner & rest & -> & Hs & -> & Hr).
    rewrite Hr. cbn [guarded app] in H |- *.
    apply andb_true_iff in H. destruct H as [_ H].
    rewrite Hs in H. apply guarded_suffix in H.
    apply IH.
    + rewrite Hs, length_app in Hlen. simpl in Hlen. lia.
    + now apply guarded_after_GT.
  - rewrite (replace_none _ _ _ E). cbn [guarded] in H |- *.
    apply andb_true_iff in H. destruct H as [Hc Hs].
    rewrite Hc. cbn [andb]. apply IH; [lia | exact Hs].
Qed.

Lemma anyTag_guarded s prev :
  guarded prev s = true -> guarded prev (replace anyTagRegex s) = true.
Proof. apply (anyTag_guarded_aux (length s)). lia. Qed.

(** Every letter of the marked text is guarded. *)
Lemma markText_guarded t prev : guarded prev (markText t) = true.
Proof. unfold markText. apply anyTag_guarded, ltrBlock_guarded. Qed.

(** *** The exchange of the parentheses *)

Lemma replace_char c out s :
  replace (charRegex c out) s
  = flat_map (fun x => if N.eqb x c then out else [x]) s.
Proof.
  induction s as [|x s IH]; [reflexivity|].
  cbn [flat_map]. destruct (N.eqb x c) eqn:E.
  - rewrite (replace_some _ x s out 1%nat); [|unfold charRegex; now rewrite E].
    simpl. now rewrite IH.
  - rewrite replace_none; [|unfold charRegex; now rewrite E].
    simpl. now rewrite IH.
Qed.

Lemma parenToken_passes s :
  replace (charRegex RPAREN [LPAREN]) (replace (charRegex LPAREN TEMP_OPEN) s)
  = flat_map parenToken s.
Proof.
  rewrite !replace_char.
  induction s as [|x s IH]; [reflexivity|].
  cbn [flat_map]. rewrite flat_map_app, IH. f_equal.
  unfold parenToken. destruct (N.eqb x LPAREN); [reflexivity|].
  simpl. now rewrite app_nil_r.
Qed.

Lemma jprefix_app p r : jprefix p (p ++ r) = Some r.
Proof.
  induction p as [|x p IH]; simpl; [reflexivity|].
  now rewrite N.eqb_refl.
Qed.

Lemma skipn_length_app (p r : jstring) : skipn (length p) (p ++ r) = r.
Proof. induction p as [|x p IH]; simpl; auto. Qed.

Lemma replace_literal_hit pat out r :
  pat <> [] ->
  replace (literalRegex pat out) (pat ++ r)
  = out ++ replace (literalRegex pat out) r.
Proof.
  destruct pat as [|x pat]; [congruence|]. intros _.
  cbn [app].
  rewrite (replace_some _ x (pat ++ r) out (length (x :: pat))).
  - cbn [length pred]. now rewrite skipn_length_app.
  - unfold literalRegex.
    change (x :: pat ++ r) with ((x :: pat) ++ r).
    now rewrite jprefix_app.
Qed.

Lemma TEMP_OPEN_units :
  TEMP_OPEN = [95; 95; 84; 69; 77; 80; 95; 79; 80; 69; 78; 95; 95]%N.
Proof. reflexivity. Qed.

(** Next to guarded letters no run of plain characters spells the
    placeholder. *)
Lemma placeholder_absent prev x s :
  guarded prev (x :: s) = true ->
  x <> LPAREN -> x <> RPAREN ->
  jprefix TEMP_OPEN (x :: flat_map parenToken s) = None.
Proof.
  intros Hg Hl Hr. rewrite TEMP_OPEN_units.
  cbn [jprefix]. destruct (N.eqb_spec 95 x) as [<-|]; [|reflexivity].
  destruct s as [|x2 s]; [reflexivity|].
  cbn [flat_map]. unfold parenToken at 1.
  destruct (N.eqb_spec x2 LPAREN) as [->|]; [reflexivity|].
  destruct (N.eqb_spec x2 RPAREN) as [->|]; [reflexivity|].
  cbn [app jprefix]. destruct (N.eqb_spec 95 x2) as [<-|]; [|reflexivity].
  destruct s as [|x3 s]; [reflexivity|].
  cbn [flat_map]. unfold parenToken at 1.
  destruct (N.eqb_spec x3 LPAREN) as [->|]; [reflexivity|].
  destruct (N.eqb_spec x3 RPAREN) as [->|]; [reflexivity|].
  cbn [app jprefix]. destruct (N.eqb_spec 84 x3) as [<-|]; [|reflexivity].
  cbn [guarded] in Hg.
  apply andb_true_iff in Hg. destruct Hg as [_ Hg].
  apply andb_true_iff in Hg. destruct Hg as [_ Hg].
  apply andb_true_iff in Hg. destruct Hg as [Hg _].
  vm_compute in Hg. discriminate.
Qed.

Lemma mirror_tokens s : forall prev,
  guarded prev s = true ->
  replace (literalRegex TEMP_OPEN [RPAREN]) (flat_map parenToken s)
  = map mirrorParen s.
Proof.
  induction s as [|x s IH]; intros prev Hg; [reflexivity|].
  assert (Hs : guarded x s = true).
  { cbn [guarded] in Hg. apply andb_true_iff in Hg. tauto. }
  cbn [flat_map map]. unfold parenToken at 1, mirrorParen at 1.
  destruct (N.eqb_spec x LPAREN) as [->|Hl].
  - rewrite replace_literal_hit by discriminate.
    now rewrite (IH _ Hs).
  - destruct (N.eqb_spec x RPAREN) as [->|Hr].
    + cbn [app]. rewrite replace_none; [now rewrite (IH _ Hs)|reflexivity].
    + cbn [app]. rewrite replace_none; [now rewrite (IH _ Hs)|].
      unfold literalRegex. now rewrite (placeholder_absent prev x s Hg Hl Hr).
Qed.

(** On text whose letters are guarded, the three replacements mirror
    every parenthesis and change nothing else. *)
Lemma fixParentheses_mirror s prev :
  guarded prev s = true -> fixParentheses s = map mirrorParen s.
Proof.
  intros H. unfold fixParentheses. rewrite parenToken_passes.
  now apply (mirror_tokens s prev).
Qed.

(** *** Plain text *)

Lemma existsb_strip c s :
  isMarker c = false ->
  existsb (N.eqb c) (stripMarkers s) = existsb (N.eqb c) s.
Proof.
  intros Hc. induction s as [|x s IH]; [reflexivity|].
  unfold stripMarkers in *. simpl.
  destruct (isMarker x) eqn:Hx; simpl; rewrite IH; [|reflexivity].
  destruct (N.eqb_spec c x) as [->|]; [congruence | reflexivity].
Qed.

Lemma hasTag_strip s : hasTag (stripMarkers s) = hasTag s.
Proof.
  induction s as [|x s IH]; [reflexivity|].
  unfold stripMarkers in *. simpl.
  destruct (isMarker x) eqn:Hx; simpl; rewrite IH.
  - destruct (N.eqb_spec x LT) as [->|]; [discriminate | reflexivity].
  - fold (stripMarkers s). now rewrite (existsb_strip GT s eq_refl).
Qed.

Lemma stripMarkers_markerFree t : markerFree t = true -> stripMarkers t = t.
Proof.
  unfold markerFree, stripMarkers.
  induction t as [|c t IH]; simpl; [reflexivity|].
  intros H. apply andb_true_iff in H. destruct H as [Hc Ht].
  now rewrite Hc, IH.
Qed.

Lemma isMarker_mirror c : isMarker (mirrorParen c) = isMarker c.
Proof.
  unfold mirrorParen.
  destruct (N.eqb_spec c LPAREN) as [->|]; [reflexivity|].
  destruct (N.eqb_spec c RPAREN) as [->|]; reflexivity.
Qed.

Lemma stripMarkers_mirror s :
  stripMarkers (map mirrorParen s) = map mirrorParen (stripMarkers s).
Proof.
  unfold stripMarkers. induction s as [|c s IH]; simpl; [reflexivity|].
  rewrite isMarker_mirror. destruct (isMarker c); simpl; now rewrite IH.
Qed.

Lemma mirror_without_parenthesis t :
  hasParenthesis t = false -> map mirrorParen t = t.
Proof.
  unfold hasParenthesis. induction t as [|c t IH]; simpl; [reflexivity|].
  intros H. apply orb_false_iff in H. destruct H as [Hc Ht].
  apply orb_false_iff in Hc. destruct Hc as [Hl Hr].
  unfold mirrorParen at 1. now rewrite Hl, Hr, IH.
Qed.

(** Preprocessing exchanges the parentheses of the marked text. *)
Lemma preprocessText_mirror t : preprocessText t = map mirrorParen (markText t).
Proof.
  unfold preprocessText.
  apply (fixParentheses_mirror (markText t) 0%N), markText_guarded.
Qed.

(** On plain literal text, preprocessing and stripping leaves the text
    with its parentheses exchanged. *)
Lemma plain_roundtrip t :
  plainText t -> stripMarkers (preprocessText t) = map mirrorParen t.
Proof.
  intros [Htag Hfree].
  rewrite preprocessText_mirror, stripMarkers_mirror, markText_tagfree by exact Htag.
  rewrite (replace_tagfree anyTagRegex).
  - now rewrite ltrBlock_strip, stripMarkers_markerFree.
  - apply anyTagRegex_needsTag.
  - now rewrite <- hasTag_strip, ltrBlock_strip, hasTag_strip.
Qed.

(** C10.  Preprocessing mirrors the parentheses.  Whatever the input,
    the last step of preprocessing turns every opening parenthesis of the
    marked text into a closing one and every closing one into an opening
    one, and changes no other character.  On plain literal text (no tag
    construct, no marker) the text that comes back after stripping the
    markers is the input with its parentheses mirrored; so there is plain
    literal text with a parenthesis that does not come back unchanged. *)
Theorem preprocessText_mirrors_parentheses :
  (forall t, preprocessText t = map mirrorParen (markText t))
  /\ (forall t, plainText t -> stripMarkers (preprocessText t) = map mirrorParen t)
  /\ (exists t, plainText t /\ hasParenthesis t = true
                /\ stripMarkers (preprocessText t) <> t).
Proof.
  split; [exact preprocessText_mirror|].
  split; [exact plain_roundtrip|].
  exists (lit "f(x)"). repeat split. vm_compute. discriminate.
Qed.

Lemma preprocessText_mirrors_parentheses_witness :
  plainText (lit "f(x)")
  /\ stripMarkers (preprocessText (lit "f(x)")) = map mirrorParen (lit "f(x)").
Proof.
  split; [split; reflexivity|].
  apply (proj1 (proj2 preprocessText_mirrors_parentheses) (lit "f(x)")).
  split; reflexivity.
Defined.

(** C3, as the code has it.  For plain literal text without tag
    constructs, without marker sentinels and without parentheses,
    preprocessing (marker insertion with the automatic LTR wrapping)
    followed by the strip-markers operation returns the text unchanged. *)
Theorem strip_preprocess_plain :
  forall t : jstring,
    plainText t -> hasParenthesis t = false ->
    stripMarkers (preprocessText t) = t.
Proof.
  intros t Hplain Hparen.
  rewrite plain_roundtrip by exact Hplain.
  now apply mirror_without_parenthesis.
Qed.

Lemma strip_preprocess_plain_witness :
  plainText (lit "Hello world 42 < 7")
  /\ hasParenthesis (lit "Hello world 42 < 7") = false
  /\ stripMarkers (preprocessText (lit "Hello world 42 < 7"))
     = lit "Hello world 42 < 7".
Proof.
  split; [split; reflexivity|]. split; [reflexivity|].
  apply (strip_preprocess_plain (lit "Hello world 42 < 7")).
  - split; reflexivity.
  - reflexivity.
Defined.

(** Plain literal text with parentheses does not come back: the text
    [(a)] comes back as [)a(]. *)
Lemma parenthesis_not_restored :
  plainText (lit "(a)")
  /\ stripMarkers (preprocessText (lit "(a)")) = lit ")a("
  /\ stripMarkers (preprocessText (lit "(a)")) <> lit "(a)".
Proof.
  split; [split; reflexivity|]. split; [reflexivity|].
  vm_compute. discriminate.
Qed.

(** *** The replacement loops end *)

Lemma ciPrefix_length pat : forall s r,
  ciPrefix pat s = Some r -> length s = (length pat + length r)%nat.
Proof.
  induction pat as [|a pat IH]; intros s r; simpl.
  - now intros [= ->].
  - destruct s as [|c s]; [discriminate|].
    destruct (ciEqb a c); [|discriminate].
    intros H. simpl. now rewrite (IH _ _ H).
Qed.

Lemma lazyUntil_length close : forall s inner,
  lazyUntil close s = Some inner ->
  (length inner + length close <= length s)%nat.
Proof.
  induction s as [|c s IH]; intros inner; simpl.
  - destruct (ciPrefix close []) as [r|] eqn:E; [|discriminate].
    intros [= <-]. apply ciPrefix_length in E. simpl in *. lia.
  - destruct (ciPrefix close (c :: s)) as [r|] eqn:E.
    + intros [= <-]. apply ciPrefix_length in E. simpl in *. lia.
    + destruct (isLineTerminator c); [discriminate|].
      destruct (lazyUntil close s) as [inner'|]; [|discriminate].
      intros [= <-]. specialize (IH inner' eq_refl). simpl. lia.
Qed.

Lemma firstAlternative_bounds names : forall s inner n,
  firstAlternative names s = Some (inner, n) ->
  (length inner + 2 <= n <= length s)%nat.
Proof.
  induction names as [|name names IH]; intros s inner n; simpl; [discriminate|].
  destruct (tagBody name s) as [r|] eqn:E; [|apply IH].
  intros [= ->]. unfold tagBody in E.
  destruct (ciPrefix (lit name ++ [GT]) s) as [s2|] eqn:E2; [|discriminate].
  destruct (lazyUntil _ s2) as [inner'|] eqn:E3; [|discriminate].
  injection E as <- <-.
  apply ciPrefix_length in E2. apply lazyUntil_length in E3.
  rewrite length_app in E2. simpl in E2, E3 |- *.
  rewrite length_app in E3 |- *. simpl in E3 |- *. lia.
Qed.

Lemma styleRegex_shrinking names start stop : shrinking (styleRegex names start stop).
Proof.
  intros [|c s] out n; simpl; [discriminate|].
  destruct (N.eqb c LT); [|discriminate].
  destruct (firstAlternative names s) as [[inner k]|] eqn:E; [|discriminate].
  intros [= <- <-]. apply firstAlternative_bounds in E.
  simpl. rewrite length_app. simpl. lia.
Qed.

Lemma replace_shrinks re :
  shrinking re ->
  forall m s, (length s <= m)%nat ->
    replace re s = s \/ (length (replace re s) < length s)%nat.
Proof.
  intros Hre. induction m as [|m IH]; intros [|c s] Hlen; simpl in Hlen;
    try (now left); try lia.
  destruct (re (c :: s)) as [[out n]|] eqn:E.
  - right. rewrite (replace_some _ _ _ _ _ E).
    destruct (Hre _ _ _ E) as [Hout Hn]. simpl in Hn.
    pose proof (length_skipn (pred n) s) as Hskip.
    rewrite length_app.
    destruct (IH (skipn (pred n) s)) as [H|H]; [lia| |]; simpl.
    + rewrite H. lia.
    + lia.
  - rewrite (replace_none _ _ _ E).
    destruct (IH s) as [H|H]; [lia| |].
    + left. now rewrite H.
    + right. simpl. lia.
Qed.

Lemma untilStable_stable f :
  (forall s, f s = s \/ (length (f s) < length s)%nat) ->
  forall fuel s, (length s < fuel)%nat ->
    f (untilStable fuel f s) = untilStable fuel f s.
Proof.
  intros Hf. induction fuel as [|fuel IH]; intros s Hlen; [lia|].
  simpl. destruct (jeqb_spec (f s) s) as [E|E].
  - now rewrite E, E.
  - apply IH. destruct (Hf s) as [H|H]; [congruence | lia].
Qed.

(** The loop over a style regex leaves a text on which the regex finds
    nothing more to replace: its exit test holds. *)
Lemma replaceStyle_stable names start stop s :
  replace (styleRegex names start stop) (replaceStyle names start stop s)
  = replaceStyle names start stop s.
Proof.
  unfold replaceStyle. apply untilStable_stable; [|lia].
  intros s'. apply (replace_shrinks _ (styleRegex_shrinking names start stop) (length s')).
  lia.
Qed.

(* ================================================================== *)
(** * Further properties of the code *)

(** ** Splitting and tokenizing *)

Lemma splitOn_cons sep s : exists part parts, splitOn sep s = part :: parts.
Proof.
  destruct s as [|c s]; simpl; [eauto|].
  destruct (N.eqb c sep); [eauto|]. destruct (splitOn sep s); eauto.
Qed.

Lemma joinWith_cons sep part part' rest :
  joinWith sep (part :: part' :: rest) = part ++ sep :: joinWith sep (part' :: rest).
Proof. reflexivity. Qed.

Lemma joinWith_head sep c part parts :
  joinWith sep ((c :: part) :: parts) = c :: joinWith sep (part :: parts).
Proof. destruct parts; reflexivity. Qed.

Lemma splitOn_join sep s : joinWith sep (splitOn sep s) = s.
Proof.
  induction s as [|c s IH]; [reflexivity|]. simpl.
  destruct (N.eqb_spec c sep) as [->|Hc].
  - destruct (splitOn_cons sep s) as (part & parts & E). rewrite E in *.
    rewrite joinWith_cons. cbn [app]. now rewrite IH.
  - destruct (splitOn_cons sep s) as (part & parts & E). rewrite E in *.
    rewrite joinWith_head. f_equal. exact IH.
Qed.

Lemma splitOn_free sep s :
  Forall (fun part => holds sep part = false) (splitOn sep s).
Proof.
  induction s as [|c s IH]; simpl; [repeat constructor|].
  destruct (N.eqb_spec c sep) as [->|Hc].
  - constructor; [reflexivity | exact IH].
  - destruct (splitOn sep s) as [|part parts]; [repeat constructor|].
    + unfold holds; simpl. destruct (N.eqb_spec sep c); [congruence | reflexivity].
    + inversion IH; subst. constructor; [|assumption].
      unfold holds in *; simpl.
      destruct (N.eqb_spec sep c); [congruence | assumption].
Qed.

Lemma splitOn_count sep s :
  length (splitOn sep s) = S (count_occ N.eq_dec s sep).
Proof.
  induction s as [|c s IH]; [reflexivity|]. simpl.
  destruct (N.eqb_spec c sep) as [->|Hc].
  - simpl. rewrite IH. destruct (N.eq_dec sep sep); [reflexivity | congruence].
  - destruct (N.eq_dec c sep); [congruence|].
    destruct (splitOn sep s); simpl in *; [discriminate | exact IH].
Qed.

Lemma splitOn_free_part sep part :
  holds sep part = false -> splitOn sep part = [part].
Proof.
  unfold holds. induction part as [|c part IH]; simpl; [reflexivity|].
  intros H. apply orb_false_iff in H. destruct H as [Hc Hp].
  rewrite N.eqb_sym, Hc, (IH Hp). reflexivity.
Qed.

Lemma splitOn_app sep part rest :
  holds sep part = false ->
  splitOn sep (part ++ sep :: rest) = part :: splitOn sep rest.
Proof.
  unfold holds. induction part as [|c part IH]; simpl.
  - now rewrite N.eqb_refl.
  - intros H. apply orb_false_iff in H. destruct H as [Hc Hp].
    rewrite N.eqb_sym, Hc, (IH Hp). reflexivity.
Qed.

Lemma splitOn_joinWith sep parts : forall part,
  Forall (fun x => holds sep x = false) (part :: parts) ->
  splitOn sep (joinWith sep (part :: parts)) = part :: parts.
Proof.
  induction parts as [|part' parts IH]; intros part H.
  - inversion H; subst. now apply splitOn_free_part.
  - inversion H; subst. rewrite joinWith_cons, splitOn_app by assumption.
    now rewrite IH.
Qed.

(** X1.  Splitting a text on a separator loses nothing: joining the
    parts with the separator gives the text back, no part holds the
    separator, and there is one part more than there are separators (so
    the empty text gives one empty part).  Conversely, parts that are
    free of the separator come back from splitting their join. *)
Theorem splitOn_roundtrip :
  forall (sep : N) (s : jstring),
    joinWith sep (splitOn sep s) = s
    /\ Forall (fun part => holds sep part = false) (splitOn sep s)
    /\ length (splitOn sep s) = S (count_occ N.eq_dec s sep)
    /\ (forall part parts,
          Forall (fun x => holds sep x = false) (part :: parts) ->
          splitOn sep (joinWith sep (part :: parts)) = part :: parts).
Proof.
  intros sep s.
  split; [apply splitOn_join|]. split; [apply splitOn_free|].
  split; [apply splitOn_count|].
  intros part parts. apply splitOn_joinWith.
Qed.

Lemma splitOn_roundtrip_witness :
  Forall (fun x => holds 10 x = false) [lit "ab"; []; lit "c"]
  /\ splitOn 10 (joinWith 10 [lit "ab"; []; lit "c"]) = [lit "ab"; []; lit "c"].
Proof.
  split; [repeat constructor|].
  apply (proj2 (proj2 (proj2 (splitOn_roundtrip 10 []))) (lit "ab") [[]; lit "c"]).
  repeat constructor.
Defined.

Lemma filter_nonempty_cons (part : jstring) parts :
  filter (fun w => negb (jeqb w [])) (part :: parts)
  = match part with
    | [] => filter (fun w => negb (jeqb w [])) parts
    | _ :: _ => part :: filter (fun w => negb (jeqb w [])) parts
    end.
Proof. destruct part; reflexivity. Qed.

Lemma tokenize_concat t :
  concat (tokenize t) = filter (fun c => negb (N.eqb c SPACE_CHAR)) t.
Proof.
  unfold tokenize. induction t as [|c t IH]; [reflexivity|]. simpl splitOn.
  destruct (N.eqb_spec c SPACE_CHAR) as [->|Hc].
  - rewrite filter_nonempty_cons. simpl. exact IH.
  - destruct (splitOn_cons SPACE_CHAR t) as (part & parts & E). rewrite E in *.
    rewrite filter_nonempty_cons. rewrite filter_nonempty_cons in IH.
    simpl. destruct (N.eqb_spec c SPACE_CHAR); [congruence|]. simpl.
    f_equal. destruct part; simpl in IH |- *; exact IH.
Qed.

Lemma tokenize_tokens t :
  Forall (fun w => w <> [] /\ holds SPACE_CHAR w = false) (tokenize t).
Proof.
  unfold tokenize. pose proof (splitOn_free SPACE_CHAR t) as H.
  induction H as [|part parts Hp _ IH]; [constructor|].
  rewrite filter_nonempty_cons. destruct part; [exact IH|].
  constructor; [split; [discriminate | exact Hp] | exact IH].
Qed.

(** X2.  Tokenizing a paragraph: every word is non-empty and holds no
    space, the words in order spell the paragraph without its spaces (so
    a paragraph of spaces has no word), and words that are non-empty and
    free of spaces come back from tokenizing their join with single
    spaces. *)
Theorem tokenize_words :
  forall t : jstring,
    Forall (fun w => w <> [] /\ holds SPACE_CHAR w = false) (tokenize t)
    /\ concat (tokenize t) = filter (fun c => negb (N.eqb c SPACE_CHAR)) t
    /\ (forall words,
          Forall (fun w => w <> [] /\ holds SPACE_CHAR w = false) words ->
          tokenize (joinWith SPACE_CHAR words) = words).
Proof.
  intros t. split; [apply tokenize_tokens|]. split; [apply tokenize_concat|].
  intros [|word words] H; [reflexivity|].
  unfold tokenize.
  rewrite splitOn_joinWith.
  - assert (F : forall ws : list jstring,
               Forall (fun w => w <> [] /\ holds SPACE_CHAR w = false) ws ->
               filter (fun w => negb (jeqb w [])) ws = ws).
    { intros ws Hws. induction Hws as [|w ws [Hw _] _ IH]; [reflexivity|].
      rewrite filter_nonempty_cons. destruct w; [congruence|]. now rewrite IH. }
    apply F, H.
  - eapply Forall_impl; [|exact H]. intros w [_ Hw]. exact Hw.
Qed.

Lemma tokenize_words_witness :
  Forall (fun w => w <> [] /\ holds SPACE_CHAR w = false) [lit "ab"; lit "c"]
  /\ tokenize (joinWith SPACE_CHAR [lit "ab"; lit "c"]) = [lit "ab"; lit "c"].
Proof.
  assert (H : Forall (fun w => w <> [] /\ holds SPACE_CHAR w = false)
                [lit "ab"; lit "c"])
    by (repeat constructor; discriminate).
  split; [exact H|].
  apply (proj2 (proj2 (tokenize_words [])) [lit "ab"; lit "c"]). exact H.
Defined.

(** ** Digits *)

Lemma isDigit_range c : isDigit c = true <-> (48 <= c <= 57)%N.
Proof.
  unfold isDigit. rewrite andb_true_iff, !N.leb_le. tauto.
Qed.

Lemma persianDigits_nth c :
  isDigit c = true ->
  nth (N.to_nat (c - 48)) persianDigits c = persianDigit c.
Proof.
  intros H. apply isDigit_range in H.
  assert (E : (c = 48 \/ c = 49 \/ c = 50 \/ c = 51 \/ c = 52 \/ c = 53
               \/ c = 54 \/ c = 55 \/ c = 56 \/ c = 57)%N) by lia.
  repeat (destruct E as [->|E]; [reflexivity|]). subst. reflexivity.
Qed.

Lemma persianDigit_not_digit c : isDigit c = true -> isDigit (persianDigit c) = false.
Proof.
  intros H. apply isDigit_range in H. unfold persianDigit, isDigit.
  apply andb_false_iff. right. apply N.leb_gt. lia.
Qed.

Lemma toPersianDigits_map t :
  toPersianDigits t = map (fun c => if isDigit c then persianDigit c else c) t.
Proof.
  unfold toPersianDigits. apply map_ext_in. intros c _.
  destruct (isDigit c) eqn:E; [now apply persianDigits_nth | reflexivity].
Qed.

Lemma toPersianDigits_no_digit t : existsb isDigit (toPersianDigits t) = false.
Proof.
  rewrite toPersianDigits_map. induction t as [|c t IH]; [reflexivity|].
  simpl. rewrite IH, orb_false_r.
  destruct (isDigit c) eqn:E; [now apply persianDigit_not_digit | exact E].
Qed.

Lemma toPersianDigits_digit_free t :
  existsb isDigit t = false -> toPersianDigits t = t.
Proof.
  rewrite toPersianDigits_map. induction t as [|c t IH]; [reflexivity|].
  simpl. intros H. apply orb_false_iff in H. destruct H as [Hc Ht].
  now rewrite Hc, IH.
Qed.

(** X3.  Digit localization: the text keeps its length, every ASCII digit
    becomes the Persian digit of the same value (code unit U+06F0 plus the
    value) and every other code unit stays; no ASCII digit is left, so a
    second application changes nothing, and a text without ASCII digits
    is returned as it is. *)
Theorem toPersianDigits_localizes :
  forall t : jstring,
    length (toPersianDigits t) = length t
    /\ toPersianDigits t = map (fun c => if isDigit c then persianDigit c else c) t
    /\ existsb isDigit (toPersianDigits t) = false
    /\ toPersianDigits (toPersianDigits t) = toPersianDigits t
    /\ (existsb isDigit t = false -> toPersianDigits t = t).
Proof.
  intros t.
  split; [apply length_map|]. split; [apply toPersianDigits_map|].
  split; [apply toPersianDigits_no_digit|].
  split; [apply toPersianDigits_digit_free, toPersianDigits_no_digit|].
  apply toPersianDigits_digit_free.
Qed.

Lemma toPersianDigits_localizes_witness :
  existsb isDigit (lit "abc") = false /\ toPersianDigits (lit "abc") = lit "abc".
Proof.
  split; [reflexivity|].
  apply (proj2 (proj2 (proj2 (proj2 (toPersianDigits_localizes (lit "abc")))))).
  reflexivity.
Defined.

(** ** More on segmentation *)

Lemma tokenText_marker t :
  isLiteral t = false -> stripMarkers (tokenText t) = [].
Proof. destruct t as [run|[]|[]]; simpl; intros H; try discriminate; reflexivity. Qed.

Lemma segmentsOf_texts ts : forall s,
  Forall (fun t => match t with
                   | Literal run => run <> [] /\ markerFree run = true
                   | _ => True
                   end) ts ->
  concat (map text (fst (segmentsOf ts s))) = stripMarkers (flat_map tokenText ts)
  /\ Forall (fun g => text g <> [] /\ markerFree (text g) = true)
            (fst (segmentsOf ts s)).
Proof.
  induction ts as [|t ts IH]; intros s H; [split; [reflexivity | constructor]|].
  inversion H as [|? ? Ht Hts]; subst.
  cbn [flat_map]. rewrite stripMarkers_app.
  destruct t as [run|k|k]; cbn [segmentsOf].
  - destruct (IH s Hts) as [E F]. destruct (segmentsOf ts s) as [segs s'].
    cbn [fst map concat snapshot text] in *. destruct Ht as [Hne Hfree].
    rewrite E. cbn [tokenText]. rewrite (stripMarkers_markerFree run Hfree).
    split; [reflexivity|]. constructor; [split; assumption | exact F].
  - rewrite tokenText_marker by reflexivity. apply IH, Hts.
  - rewrite tokenText_marker by reflexivity. apply IH, Hts.
Qed.

Lemma stripMarkers_is_markerFree t : markerFree (stripMarkers t) = true.
Proof.
  unfold markerFree, stripMarkers. induction t as [|c t IH]; [reflexivity|].
  simpl. destruct (isMarker c) eqn:E; simpl; [exact IH | now rewrite E, IH].
Qed.

(** The segments of a word are non-empty and free of markers. *)
Lemma parse_segments_clean word state :
  Forall (fun g => text g <> [] /\ markerFree (text g) = true)
         (fst (parseSegmentsWithState word state)).
Proof.
  rewrite parse_tokens. apply (segmentsOf_texts (tokens word) state), tokens_runs.
Qed.

(** X4.  Segmentation loses no text and keeps no marker: the texts of the
    segments, in order, spell the word with its markers stripped, and
    every segment is non-empty and free of markers; stripping is
    idempotent and its result is free of markers. *)
Theorem parseSegmentsWithState_text :
  forall (word : jstring) (state : StyleState),
    concat (map text (fst (parseSegmentsWithState word state))) = stripMarkers word
    /\ Forall (fun g => text g <> [] /\ markerFree (text g) = true)
              (fst (parseSegmentsWithState word state))
    /\ markerFree (stripMarkers word) = true
    /\ stripMarkers (stripMarkers word) = stripMarkers word.
Proof.
  intros word state.
  split; [|split; [apply parse_segments_clean|split]].
  - rewrite parse_tokens.
    rewrite (proj1 (segmentsOf_texts (tokens word) state (tokens_runs word))).
    now rewrite tokens_text.
  - apply stripMarkers_is_markerFree.
  - apply stripMarkers_markerFree, stripMarkers_is_markerFree.
Qed.




(** ** What painting a line can and cannot do to the document *)

Lemma toPersianDigits_clean t :
  markerFree t = true -> markerFree (toPersianDigits t) = true.
Proof.
  rewrite toPersianDigits_map. unfold markerFree.
  induction t as [|c t IH]; [reflexivity|]. simpl.
  intros H. apply andb_true_iff in H. destruct H as [Hc Ht].
  rewrite (IH Ht), andb_true_r.
  destruct (isDigit c) eqn:E; [|exact Hc].
  apply isDigit_range in E. apply negb_true_iff.
  destruct (isMarker (persianDigit c)) eqn:M; [|reflexivity].
  apply isMarker_values in M. unfold persianDigit in M.
  unfold MARKERS.BOLD_START, MARKERS.BOLD_END, MARKERS.UNDERLINE_START,
    MARKERS.UNDERLINE_END, MARKERS.STRIKE_START, MARKERS.STRIKE_END,
    MARKERS.LTR_START, MARKERS.LTR_END in M. lia.
Qed.

Section PaintInvariant.

Variable textWidth : Font -> Q -> jstring -> Q.
Variable p : Printer.

(** A property of the document that the drawing calls of the renderer
    keep. *)
Variable I : Doc -> Prop.

Hypothesis I_setFont : forall n s d, I d -> I (setFont n s d).
Hypothesis I_setLineWidth : forall x d, I d -> I (setLineWidth x d).
Hypothesis I_setLineDashPattern : forall l x d, I d -> I (setLineDashPattern l x d).
Hypothesis I_setDrawColor : forall r g b d, I d -> I (setDrawColor r g b d).
Hypothesis I_docLine : forall a b c e d, I d -> I (docLine a b c e d).
Hypothesis I_docText :
  forall t x y rtl d, t <> [] -> markerFree t = true -> I d -> I (docText t x y rtl d).

Lemma printableText_clean g :
  text g <> [] -> markerFree (text g) = true ->
  printableText p g <> [] /\ markerFree (printableText p g) = true.
Proof.
  intros Hne Hfree. unfold printableText.
  destruct (convertDigitsToPersian p && negb (segLtr g)); [|auto].
  split; [|now apply toPersianDigits_clean].
  unfold toPersianDigits. destruct (text g); [congruence | discriminate].
Qed.

Lemma renderSegment_keeps segments i g y fontSize x d :
  text g <> [] -> markerFree (text g) = true -> I d ->
  I (snd (renderSegment textWidth p segments i g y fontSize x d)).
Proof.
  intros Hne Hfree Hd.
  destruct (printableText_clean g Hne Hfree) as [Pne Pfree].
  unfold renderSegment. destruct (text g); [exact Hd|]. cbv zeta.
  apply I_setFont.
  destruct (segUnderline g), (segStrike g); cbn [orb];
    repeat first [ apply I_docLine | apply I_setDrawColor
                 | apply I_setLineDashPattern ];
    apply I_docText; auto.
Qed.

Lemma renderSegments_keeps segments y fontSize rest : forall i x d,
  Forall (fun g => text g <> [] /\ markerFree (text g) = true) rest -> I d ->
  I (snd (renderSegments textWidth p segments i rest y fontSize x d)).
Proof.
  induction rest as [|g rest IH]; intros i x d H Hd; [exact Hd|].
  inversion H as [|? ? [Hne Hfree] Hrest]; subst. cbn [renderSegments].
  pose proof (renderSegment_keeps segments i g y fontSize x d Hne Hfree Hd) as H1.
  destruct (renderSegment textWidth p segments i g y fontSize x d) as [x1 d1].
  apply IH; assumption.
Qed.

Lemma renderWordWithState_keeps word x y state d :
  I d -> I (snd (renderWordWithState textWidth p word x y state d)).
Proof.
  intros Hd. unfold renderWordWithState.
  pose proof (parse_segments_clean word state) as Hc.
  destruct (parseSegmentsWithState word state) as [segments nextState].
  cbn [fst] in Hc.
  pose proof (renderSegments_keeps segments y (getFontSize d) segments 0%nat x
                (setLineWidth (15 # 100) d) Hc (I_setLineWidth _ _ Hd)) as H1.
  destruct (renderSegments textWidth p segments 0 segments y (getFontSize d) x
              (setLineWidth (15 # 100) d)) as [x1 d1].
  cbn [snd] in *. now apply I_setFont.
Qed.

Lemma justifiedLoop_keeps len y spaceWidth extra fontSize rest : forall i x state d,
  I d ->
  I (snd (justifiedLoop textWidth p len i rest y spaceWidth extra fontSize x state d)).
Proof.
  induction rest as [|word rest IH]; intros i x state d Hd; [exact Hd|].
  cbn [justifiedLoop].
  pose proof (renderWordWithState_keeps word x y state d Hd) as H1.
  destruct (renderWordWithState textWidth p word x y state d) as [[x1 state1] d1].
  cbn [snd] in H1.
  destruct (i <? len - 1)%nat; cbv zeta; apply IH; [|exact H1].
  destruct (isStrike state1), (isUnderline state1);
    repeat apply I_docLine; exact H1.
Qed.

Lemma regularLoop_keeps len y spaceWidth fontSize rest : forall i x state d,
  I d ->
  I (snd (regularLoop textWidth p len i rest y spaceWidth fontSize x state d)).
Proof.
  induction rest as [|word rest IH]; intros i x state d Hd; [exact Hd|].
  cbn [regularLoop].
  pose proof (renderWordWithState_keeps word x y state d Hd) as H1.
  destruct (renderWordWithState textWidth p word x y state d) as [[x1 state1] d1].
  cbn [snd] in H1.
  destruct (i <? len - 1)%nat; cbv zeta; apply IH; [|exact H1].
  destruct (isStrike state1), (isUnderline state1);
    repeat first [apply I_docLine | apply I_setDrawColor]; exact H1.
Qed.

Lemma renderRegularLine_keeps words startX y state d :
  I d -> I (renderRegularLine textWidth p words startX y state d).
Proof.
  intros Hd. unfold renderRegularLine.
  destruct (align p); rewrite ?sumWidth_fold; cbv zeta;
    match goal with
    | |- context [regularLoop ?a ?b ?c ?e ?f ?g ?h ?i ?j ?k ?l] =>
        pose proof (regularLoop_keeps c g h i f e j k l Hd) as H;
        destruct (regularLoop a b c e f g h i j k l) as [[? ?] ?]
    end; exact H.
Qed.

Lemma renderLine_keeps words startX y shouldJustify state d :
  I d -> I (renderLine textWidth p words startX y shouldJustify state d).
Proof.
  intros Hd.
  pose proof (renderLine_dispatch textWidth p
                (mkLineCall words startX y shouldJustify state) d) as E.
  cbn [lcWords lcStartX lcY lcJustify lcState] in E. rewrite E. clear E.
  destruct (justifiedRenderer p _).
  - cbv zeta. now apply justifiedLoop_keeps.
  - now apply renderRegularLine_keeps.
Qed.

End PaintInvariant.

Section WorldInvariant.

Variable textWidth : Font -> Q -> jstring -> Q.
Variable p : Printer.

(** A property of document and page counter that the drawing calls and
    the page break keep. *)
Variable J : World -> Prop.

Hypothesis J_setFont : forall c n s d, J (mkWorld d c) -> J (mkWorld (setFont n s d) c).
Hypothesis J_setLineWidth :
  forall c x d, J (mkWorld d c) -> J (mkWorld (setLineWidth x d) c).
Hypothesis J_setLineDashPattern :
  forall c l x d, J (mkWorld d c) -> J (mkWorld (setLineDashPattern l x d) c).
Hypothesis J_setDrawColor :
  forall c r g b d, J (mkWorld d c) -> J (mkWorld (setDrawColor r g b d) c).
Hypothesis J_docLine :
  forall c a b e f d, J (mkWorld d c) -> J (mkWorld (docLine a b e f d) c).
Hypothesis J_docText :
  forall c t x y rtl d, t <> [] -> markerFree t = true ->
    J (mkWorld d c) -> J (mkWorld (docText t x y rtl d) c).
Hypothesis J_break :
  forall d c, J (mkWorld d c) ->
    match onPageBreak p with
    | Some callback =>
        J (mkWorld (snd (callback (c + 1)%Z (addPage d))) (c + 1)%Z)
    | None => J (mkWorld (addPage d) (c + 1)%Z)
    end.

Lemma checkPageBreak_keeps y w : J w -> J (snd (checkPageBreak p y w)).
Proof.
  intros Hw. unfold checkPageBreak. destruct (Qgtb _ _); [|exact Hw].
  cbv zeta. destruct w as [d c]. specialize (J_break d c Hw). cbn [doc pageCounter].
  destruct (onPageBreak p) as [callback|]; [|exact J_break].
  now destruct (callback (c + 1)%Z (addPage d)).
Qed.

Lemma renderLine_keeps_world words startX y shouldJustify state w :
  J w ->
  J (mkWorld (renderLine textWidth p words startX y shouldJustify state (doc w))
             (pageCounter w)).
Proof.
  intros Hw.
  apply (renderLine_keeps textWidth p (fun d => J (mkWorld d (pageCounter w))));
    auto.
  now destruct w.
Qed.

Lemma packWord_keeps startX justifyArg spaceWidth ps word :
  J (psWorld ps) ->
  J (psWorld (packWord textWidth p startX justifyArg spaceWidth ps word)).
Proof.
  intros H. rewrite packWord_eq. cbv zeta.
  destruct (Qgtb _ _); [|exact H].
  cbn [psWorld]. apply renderLine_keeps_world, checkPageBreak_keeps, H.
Qed.

Lemma packWords_keeps startX justifyArg spaceWidth words : forall ps,
  J (psWorld ps) ->
  J (psWorld (fold_left (packWord textWidth p startX justifyArg spaceWidth) words ps)).
Proof.
  induction words as [|word words IH]; intros ps H; [exact H|].
  apply IH, packWord_keeps, H.
Qed.

Lemma renderWords_keeps words startX startY justifyArg w :
  J w -> J (snd (fst (renderWords textWidth p words startX startY justifyArg w))).
Proof.
  intros Hw. unfold renderWords. cbv zeta.
  assert (Hps : J (psWorld (packWords textWidth p words startX startY justifyArg w)))
    by (apply packWords_keeps; exact Hw).
  set (ps := packWords textWidth p words startX startY justifyArg w) in *.
  unfold flushLine. destruct (psLineWords ps); [exact Hps|].
  pose proof (checkPageBreak_keeps (psY ps) (psWorld ps) Hps) as H1.
  destruct (checkPageBreak p (psY ps) (psWorld ps)) as [y w1].
  cbn [fst snd] in *. now apply renderLine_keeps_world.
Qed.

Lemma print_keeps text0 options w :
  J w -> J (snd (fst (print textWidth p text0 options w))).
Proof.
  intros Hw. unfold print. cbv zeta.
  generalize (splitOn NEWLINE (preprocessText text0)) as paragraphs.
  generalize (@nil LineCall) as calls. generalize (optStartY options) as y0.
  revert w Hw. intros w Hw y0 calls paragraphs. revert w Hw y0 calls.
  induction paragraphs as [|paragraph paragraphs IH]; intros w Hw y0 calls;
    [exact Hw|].
  cbn [fold_left]. unfold printParagraph at 2.
  destruct (isBlank paragraph); [now apply IH|].
  pose proof (renderWords_keeps (tokenize paragraph)
                (orElse (optStartX options) (defaultStartX p)) y0
                (orElse (optJustify options) (justify p)) w Hw) as H1.
  destruct (renderWords _ _ _ _ _ _ w) as [[y1 w1] made].
  cbn [fst snd] in H1. now apply IH.
Qed.

End WorldInvariant.

Lemma cleanLog_ops d d' : docOps d' = docOps d -> cleanLog d -> cleanLog d'.
Proof. unfold cleanLog. now intros ->. Qed.

Lemma cleanLog_emit d o :
  match o with OpText t _ _ _ _ _ => markerFree t = true | _ => True end ->
  cleanLog d -> cleanLog (emit o d).
Proof.
  unfold cleanLog, emit. cbn [docOps]. intros Ho Hd.
  rewrite painted_app. apply Forall_app. split; [exact Hd|].
  destruct o; simpl; repeat constructor. exact Ho.
Qed.

(** X6.  Markers are never painted.  When no text paint request of the
    document holds a marker before [print] and the page-break callback
    paints none, none holds a marker after [print], whatever the text,
    the options and the glyph metrics are. *)
Theorem print_paints_no_marker :
  forall textWidth p (text0 : jstring) (options : PrintOptions) (w : World),
    callbackKeepsClean p ->
    cleanLog (doc w) ->
    cleanLog (doc (snd (fst (print textWidth p text0 options w)))).
Proof.
  intros textWidth p text0 options w Hcb Hw.
  apply (print_keeps textWidth p (fun w => cleanLog (doc w))); cbn [doc]; auto.
  - intros c a b e f d. now apply cleanLog_emit.
  - intros c t x y rtl d _ Ht. now apply cleanLog_emit.
  - intros d c Hd. unfold callbackKeepsClean in Hcb.
    assert (Ha : cleanLog (addPage d)).
    { unfold cleanLog, addPage. cbn [docOps]. rewrite painted_app.
      apply Forall_app. split; [exact Hd | constructor]. }
    destruct (onPageBreak p) as [callback|]; [|exact Ha].
    cbn [doc]. now apply Hcb.
Qed.

Lemma print_paints_no_marker_witness :
  callbackKeepsClean (Demo.printer 20 (Some Demo.header))
  /\ cleanLog Demo.page
  /\ cleanLog (doc (snd (fst (print Demo.glyphWidth (Demo.printer 20 (Some Demo.header))
                                (lit "<b>alpha beta</b> gamma")
                                (mkOptions None 81 None) Demo.world)))).
Proof.
  assert (Hcb : callbackKeepsClean (Demo.printer 20 (Some Demo.header))).
  { intros n d Hd. unfold Demo.header. cbn [snd]. now apply cleanLog_emit. }
  assert (Hp : cleanLog Demo.page) by constructor.
  split; [exact Hcb|]. split; [exact Hp|].
  apply (print_paints_no_marker Demo.glyphWidth (Demo.printer 20 (Some Demo.header))
           (lit "<b>alpha beta</b> gamma") (mkOptions None 81 None) Demo.world Hcb Hp).
Defined.

(** X7.  Pages and page counter.  [print] never lowers the page counter;
    and when the page-break callback adds no page of its own (or there is
    none), the document gains exactly as many pages as the counter gains:
    painting never adds a page, a page break adds one. *)
Theorem print_page_counter :
  forall textWidth p (text0 : jstring) (options : PrintOptions) (w : World),
    let w' := snd (fst (print textWidth p text0 options w)) in
    (pageCounter w <= pageCounter w')%Z
    /\ (callbackKeepsPages p ->
        (docPages (doc w') - docPages (doc w) = pageCounter w' - pageCounter w)%Z).
Proof.
  intros textWidth p text0 options w w'. split.
  - subst w'.
    apply (print_keeps textWidth p (fun w0 => (pageCounter w <= pageCounter w0)%Z));
      cbn [pageCounter]; auto; try lia.
    intros d c Hc. destruct (onPageBreak p); cbn [pageCounter]; lia.
  - intros Hcb. subst w'.
    apply (print_keeps textWidth p
             (fun w0 => (docPages (doc w0) - docPages (doc w)
                         = pageCounter w0 - pageCounter w)%Z));
      cbn [doc pageCounter]; auto; try lia.
    intros d c Hc. unfold callbackKeepsPages in Hcb.
    destruct (onPageBreak p) as [callback|]; cbn [doc pageCounter].
    + rewrite Hcb. cbn [addPage docPages]. lia.
    + cbn [addPage docPages]. lia.
Qed.

Lemma print_page_counter_witness :
  callbackKeepsPages (Demo.printer 20 (Some Demo.header))
  /\ (docPages (doc (snd (fst (print Demo.glyphWidth
                                 (Demo.printer 20 (Some Demo.header))
                                 (lit "<b>alpha beta</b> gamma")
                                 (mkOptions None 81 None) Demo.world))))
      - docPages Demo.page
      = pageCounter (snd (fst (print Demo.glyphWidth
                                 (Demo.printer 20 (Some Demo.header))
                                 (lit "<b>alpha beta</b> gamma")
                                 (mkOptions None 81 None) Demo.world)))
        - 1)%Z.
Proof.
  assert (Hcb : callbackKeepsPages (Demo.printer 20 (Some Demo.header)))
    by (intros n d; reflexivity).
  split; [exact Hcb|].
  apply (proj2 (print_page_counter Demo.glyphWidth (Demo.printer 20 (Some Demo.header))
                  (lit "<b>alpha beta</b> gamma") (mkOptions None 81 None) Demo.world)
               Hcb).
Defined.

(** ** The whole of print *)

Section PrintProperties.

Variable textWidth : Font -> Q -> jstring -> Q.
Variable p : Printer.

Lemma renderWords_wordsOf words startX startY justifyArg w :
  wordsOf (snd (renderWords textWidth p words startX startY justifyArg w)) = words.
Proof.
  destruct (renderWords_lines textWidth p words startX startY justifyArg w)
    as (E & H & _).
  rewrite E. exact H.
Qed.

Lemma printParagraphs_wordsOf startX shouldJustify paragraphs : forall y w calls,
  wordsOf (snd (fold_left (printParagraph textWidth p startX shouldJustify)
                          paragraphs (y, w, calls)))
  = wordsOf calls
    ++ flat_map tokenize (filter (fun par => negb (isBlank par)) paragraphs).
Proof.
  induction paragraphs as [|paragraph paragraphs IH]; intros y w calls.
  - simpl. now rewrite app_nil_r.
  - cbn [fold_left filter]. unfold printParagraph at 2.
    destruct (isBlank paragraph); cbn [negb]; [apply IH|].
    pose proof (renderWords_wordsOf (tokenize paragraph) startX y shouldJustify w) as H.
    destruct (renderWords textWidth p (tokenize paragraph) startX y shouldJustify w)
      as [[y1 w1] made].
    cbn [snd] in H. rewrite IH, wordsOf_app, H. cbn [flat_map].
    now rewrite app_assoc.
Qed.

End PrintProperties.

(** X8.  [print] hands every word to the line renderer exactly once and
    in order: the words of the rendered lines, line after line, are the
    words of the paragraphs of the preprocessed text that are not blank,
    paragraph after paragraph.  No word is dropped, repeated or moved,
    whatever the widths and the page breaks are. *)
Theorem print_renders_every_word :
  forall textWidth p (text0 : jstring) (options : PrintOptions) (w : World),
    wordsOf (snd (print textWidth p text0 options w))
    = flat_map tokenize
        (filter (fun par => negb (isBlank par))
                (splitOn NEWLINE (preprocessText text0))).
Proof.
  intros. unfold print. cbv zeta.
  now rewrite printParagraphs_wordsOf.
Qed.

Lemma isSpace_facts c :
  isSpace c = true ->
  isLetter c = false /\ isMarker c = false /\ c <> LT
  /\ c <> LPAREN /\ c <> RPAREN.
Proof.
  unfold isSpace. intros H. apply orb_true_iff in H. destruct H as [H|H].
  - cbn [existsb] in H.
    repeat match type of H with
    | (N.eqb c ?m || _) = true =>
        destruct (N.eqb_spec c m) as [E|_];
        [clear H; rewrite E; repeat split; vm_compute; congruence | cbn [orb] in H]
    end.
    discriminate.
  - apply andb_true_iff in H. destruct H as [H1 H2].
    apply N.leb_le in H1. apply N.leb_le in H2.
    unfold isLetter, isUpper, isLower, LT, LPAREN, RPAREN.
    repeat split; try lia.
    + apply orb_false_iff. split; apply andb_false_iff; right; apply N.leb_gt; lia.
    + destruct (isMarker c) eqn:M; [|reflexivity].
      apply isMarker_values in M.
      unfold MARKERS.BOLD_START, MARKERS.BOLD_END, MARKERS.UNDERLINE_START,
        MARKERS.UNDERLINE_END, MARKERS.STRIKE_START, MARKERS.STRIKE_END,
        MARKERS.LTR_START, MARKERS.LTR_END in M. lia.
Qed.

Lemma ltrBlock_letter_free s :
  forallb (fun c => negb (isLetter c)) s = true -> replace ltrBlockRegex s = s.
Proof.
  induction s as [|c s IH]; [reflexivity|]. simpl.
  intros H. apply andb_true_iff in H. destruct H as [Hc Hs].
  apply negb_true_iff in Hc. now rewrite ltrBlock_other, IH.
Qed.

Lemma hasTag_without_LT s : holds LT s = false -> hasTag s = false.
Proof.
  unfold holds. induction s as [|c s IH]; [reflexivity|]. cbn [existsb hasTag].
  intros H. apply orb_false_iff in H. destruct H as [Hc Hs].
  rewrite (IH Hs), orb_false_r. rewrite N.eqb_sym, Hc. reflexivity.
Qed.

(** Text without letters, angle brackets and parentheses passes
    preprocessing unchanged. *)
Lemma preprocessText_inert t :
  forallb (fun c => negb (isLetter c)) t = true ->
  holds LT t = false -> hasParenthesis t = false ->
  preprocessText t = t.
Proof.
  intros Hl Ht Hp.
  rewrite preprocessText_mirror, markText_tagfree by now apply hasTag_without_LT.
  rewrite ltrBlock_letter_free by exact Hl.
  rewrite (replace_tagfree anyTagRegex t anyTagRegex_needsTag)
    by now apply hasTag_without_LT.
  now apply mirror_without_parenthesis.
Qed.

Lemma spaces_inert t :
  forallb isSpace t = true ->
  forallb (fun c => negb (isLetter c)) t = true
  /\ holds LT t = false /\ hasParenthesis t = false.
Proof.
  unfold holds, hasParenthesis.
  induction t as [|c t IH]; [auto|]. cbn [forallb existsb].
  intros H. apply andb_true_iff in H. destruct H as [Hc Ht].
  destruct (IH Ht) as (A & B & C). rewrite A, B, C.
  destruct (isSpace_facts c Hc) as (L & _ & Hlt & Hl & Hr).
  rewrite L. repeat split; cbn [negb andb]; rewrite ?orb_false_r.
  - destruct (N.eqb_spec LT c); [congruence | reflexivity].
  - destruct (N.eqb_spec c LPAREN), (N.eqb_spec c RPAREN); try congruence.
    reflexivity.
Qed.

Lemma splitOn_forallb f sep s :
  forallb f s = true -> Forall (fun part => forallb f part = true) (splitOn sep s).
Proof.
  induction s as [|c s IH]; simpl; [repeat constructor|].
  intros H. apply andb_true_iff in H. destruct H as [Hc Hs].
  specialize (IH Hs).
  destruct (N.eqb c sep); [constructor; [reflexivity | exact IH]|].
  destruct (splitOn sep s) as [|part parts]; [repeat constructor; simpl; now rewrite Hc|].
  inversion IH; subst. constructor; [simpl; now rewrite Hc | assumption].
Qed.

Lemma advance_shift h n y : advance h n (y + h) = advance h (S n) y.
Proof. unfold advance. now rewrite Nat.iter_succ_r. Qed.

Lemma advance_add h n m y : advance h n (advance h m y) = advance h (m + n) y.
Proof. unfold advance. now rewrite Nat.add_comm, Nat.iter_add. Qed.

Lemma printParagraphs_blank textWidth p startX shouldJustify paragraphs :
  forall y w calls,
    Forall (fun par => isBlank par = true) paragraphs ->
    let r := fold_left (printParagraph textWidth p startX shouldJustify) paragraphs
                       (y, w, calls) in
    snd (fst r) = w /\ snd r = calls
    /\ fst (fst r) = advance (lineHeight p) (length paragraphs) y.
Proof.
  induction paragraphs as [|paragraph paragraphs IH]; intros y w calls H.
  - simpl. repeat split.
  - inversion H as [|? ? Hb Hrest]; subst.
    cbn [fold_left].
    assert (E : printParagraph textWidth p startX shouldJustify (y, w, calls) paragraph
                = (y + lineHeight p, w, calls))
      by (unfold printParagraph; now rewrite Hb).
    rewrite E.
    destruct (IH (y + lineHeight p) w calls Hrest) as (A & B & C).
    cbv zeta. split; [exact A|]. split; [exact B|]. rewrite C.
    cbn [length]. apply advance_shift.
Qed.

(** X9.  A text of white space only paints nothing: [print] leaves the
    document and the page counter as they are, renders no line and makes
    no page-break check, and returns the start baseline after one step
    [currentY += lineHeight] per paragraph, that is, one step more than
    there are line feeds in the text.  The steps are the additions of the
    code in their order, so the equation does not depend on rounding. *)
Theorem print_blank_text :
  forall textWidth p (text0 : jstring) (options : PrintOptions) (w : World),
    forallb isSpace text0 = true ->
    let r := print textWidth p text0 options w in
    snd (fst r) = w
    /\ snd r = []
    /\ fst (fst r)
       = advance (lineHeight p) (S (count_occ N.eq_dec text0 NEWLINE))
                 (optStartY options).
Proof.
  intros textWidth p text0 options w H. cbv zeta.
  destruct (spaces_inert text0 H) as (A & B & C).
  unfold print. cbv zeta. rewrite (preprocessText_inert text0 A B C).
  rewrite <- (splitOn_count NEWLINE text0).
  apply printParagraphs_blank.
  apply (splitOn_forallb isSpace NEWLINE text0 H).
Qed.

Lemma print_blank_text_witness :
  forallb isSpace [32; 10; 9; 10]%N = true
  /\ snd (fst (print Demo.glyphWidth (Demo.printer 20 None) [32; 10; 9; 10]%N
                 (mkOptions None 95 None) Demo.world)) = Demo.world.
Proof.
  split; [reflexivity|].
  apply (print_blank_text Demo.glyphWidth (Demo.printer 20 None) [32; 10; 9; 10]%N
           (mkOptions None 95 None) Demo.world).
  reflexivity.
Defined.

(** ** The regular line renderer *)

Section RegularLineProperties.

Variable textWidth : Font -> Q -> jstring -> Q.
Variable p : Printer.

Lemma regularLoop_cursor len y spaceWidth fontSize rest :
  forall i x state d,
    (i + length rest = len)%nat ->
    let r := regularLoop textWidth p len i rest y spaceWidth fontSize x state d in
    fst (fst r)
      == x - Qsum (wordWidths textWidth p (docFontSize d) rest state)
           - gapsOf rest * spaceWidth
    /\ docFontSize (snd r) = docFontSize d
    /\ exists more, painted (docOps (snd r)) = painted (docOps d) ++ more.
Proof.
  induction rest as [|word rest IH]; intros i x state d Hlen.
  - simpl. unfold gapsOf, Qsum. simpl. repeat split; try ring.
    exists []. now rewrite app_nil_r.
  - cbn [regularLoop].
    pose proof (renderWord_cursor textWidth p word x y state d) as Hx.
    destruct (renderWordWithState_spec textWidth p word x y state d)
      as (_ & Hs & Hp & Hsize & _).
    destruct (renderWordWithState textWidth p word x y state d)
      as [[x1 state1] d1].
    cbn [fst snd] in Hx, Hs, Hp, Hsize.
    destruct rest as [|word' rest'].
    + assert (Hlast : (i <? len - 1)%nat = false)
        by (apply Nat.ltb_ge; simpl in Hlen; lia).
      rewrite Hlast. simpl.
      repeat split; auto.
      * rewrite Hx. unfold gapsOf. simpl. rewrite Qsum_single. ring.
      * eexists. exact Hp.
    + assert (Hgap : (i <? len - 1)%nat = true)
        by (apply Nat.ltb_lt; simpl in Hlen; lia).
      rewrite Hgap. cbv zeta.
      set (d2 := if isStrike state1 then _ else _).
      assert (Hd2 : docFontSize d2 = docFontSize d
                    /\ exists more, painted (docOps d2) = painted (docOps d) ++ more).
      { subst d2. split.
        - destruct (isStrike state1), (isUnderline state1); simpl; exact Hsize.
        - destruct (isStrike state1), (isUnderline state1); simpl;
            rewrite ?painted_app, Hp, <- ?app_assoc; eexists; reflexivity. }
      destruct Hd2 as [Hsize2 [more2 Hp2]].
      destruct (IH (S i) (x1 - spaceWidth) state1 d2) as (F1 & F3 & F4).
      { simpl in Hlen |- *. lia. }
      repeat split.
      * rewrite F1, Hsize2, Hx, Hs.
        cbn [wordWidths]. rewrite (Qsum_cons (wordWidth _ _ _ word state)).
        unfold gapsOf. cbn [length pred].
        rewrite Nat2Z.inj_succ, <- Z.add_1_r, inject_Z_plus.
        change (inject_Z 1) with 1. ring.
      * rewrite F3. exact Hsize2.
      * destruct F4 as [more F4]. rewrite F4, Hp2, <- app_assoc. eexists; reflexivity.
Qed.

Lemma regularLoop_first len y spaceWidth fontSize word rest i x state d :
  (i + length (word :: rest) = len)%nat ->
  exists more,
    painted (docOps (snd (regularLoop textWidth p len i (word :: rest) y
                            spaceWidth fontSize x state d)))
    = painted (docOps d)
      ++ paintRun textWidth p (docFontSize d) x
           (fst (parseSegmentsWithState word state))
      ++ more.
Proof.
  intros Hlen. cbn [regularLoop].
  destruct (renderWordWithState_spec textWidth p word x y state d)
    as (_ & _ & Hp & _).
  destruct (renderWordWithState textWidth p word x y state d)
    as [[x1 state1] d1].
  cbn [fst snd] in Hp.
  match goal with
  | |- context [let '(cx, dd) := ?e in _] => set (gap := e)
  end.
  assert (Hgap : painted (docOps (snd gap)) = painted (docOps d1)).
  { subst gap. destruct (i <? len - 1)%nat; [|reflexivity].
    cbv zeta. destruct (isStrike state1), (isUnderline state1); simpl;
      rewrite ?painted_app; simpl; rewrite ?app_nil_r; reflexivity. }
  destruct gap as [x2 d2]. cbn [snd] in Hgap.
  destruct (regularLoop_cursor len y spaceWidth fontSize rest
              (S i) x2 state1 d2) as (_ & _ & more & Hmore).
  { simpl in Hlen |- *. lia. }
  exists more. rewrite Hmore, Hgap, Hp, <- app_assoc. reflexivity.
Qed.

End RegularLineProperties.

(** X10.  The regular line renderer and the alignment.  The renderer
    takes [lineLength] as the measured widths of the words, summed from 0,
    plus the number of gaps times the space width, and
    [remaining = maxWidth - lineLength]; the alignment offset is zero for
    right alignment, [remaining] for left alignment and half of it for
    centred lines, and the first word of a non-empty line is painted from
    the right edge [startX] minus the offset.  In exact arithmetic (the
    equations stated with [==] relate sums of different order, and hold
    up to rounding only) the cursor after the last word is [lineLength]
    further to the left: a right-aligned line starts at [startX], a
    left-aligned line ends at [startX - maxWidth], and a centred line has
    equal margins on both sides. *)
Theorem renderRegularLine_alignment :
  forall textWidth p (words : list jstring) (startX y : Q)
         (initialState : StyleState) (d : Doc),
    (0 < length words)%nat ->
    let spaceWidth := getTextWidth textWidth d [SPACE_CHAR] in
    let lineLength :=
      Qsum (wordWidths textWidth p (docFontSize d) words initialState)
      + inject_Z (Z.of_nat (length words) - 1) * spaceWidth in
    let remaining := maxWidth p - lineLength in
    let offset := match align p with
                  | AlignRight => 0
                  | AlignLeft => remaining
                  | AlignCenter => remaining / 2
                  end in
    let loop := regularLoop textWidth p (length words) 0 words y spaceWidth
                            (getFontSize d) (startX - offset) initialState d in
    renderRegularLine textWidth p words startX y initialState d = snd loop
    /\ (exists more,
          painted (docOps (snd loop))
          = painted (docOps d)
            ++ paintRun textWidth p (docFontSize d) (startX - offset)
                 (fst (parseSegmentsWithState (hd [] words) initialState))
            ++ more)
    /\ fst (fst loop) == startX - offset - lineLength
    /\ match align p with
       | AlignRight => startX - offset == startX
       | AlignLeft => fst (fst loop) == startX - maxWidth p
       | AlignCenter =>
           startX - (startX - offset) == fst (fst loop) - (startX - maxWidth p)
       end.
Proof.
  intros textWidth p words startX y initialState d Hlen
         spaceWidth lineLength remaining offset loop.
  assert (Hcur : fst (fst loop) == startX - offset - lineLength).
  { destruct (regularLoop_cursor textWidth p (length words) y spaceWidth
                (getFontSize d) words 0%nat (startX - offset) initialState d eq_refl)
      as (E & _).
    fold loop in E. rewrite E. unfold lineLength, gapsOf.
    replace (Z.of_nat (pred (length words))) with (Z.of_nat (length words) - 1)%Z
      by lia.
    ring. }
  split; [|split; [|split; [exact Hcur|]]].
  - unfold renderRegularLine. fold spaceWidth.
    subst loop offset remaining lineLength.
    destruct (align p); rewrite ?sumWidth_fold; cbv zeta; unfold Qsum;
      match goal with
      | |- context [regularLoop ?a ?b ?c ?e ?f ?g ?h ?i ?j ?k ?l] =>
          now destruct (regularLoop a b c e f g h i j k l) as [[? ?] ?]
      end.
  - subst loop. destruct words as [|word rest]; [simpl in Hlen; lia|].
    apply regularLoop_first. reflexivity.
  - revert Hcur. generalize (fst (fst loop)). subst offset remaining.
    destruct (align p); intros x1 Hcur.
    + ring.
    + rewrite Hcur. field.
    + rewrite Hcur. ring.
Qed.

Lemma renderRegularLine_alignment_witness :
  (0 < length [lit "ab"; lit "cde"])%nat
  /\ fst (fst (regularLoop Demo.glyphWidth
                 (mkPrinter 10 10 200 AlignLeft true 10 10 0 0 100 None "Vazir"
                            true (18 # 100) (1 # 10))
                 2 0 [lit "ab"; lit "cde"] 20 1 10 (200 - (10 - (5 + 1 * 1)))
                 plainStyle Demo.page))
     == 200 - 10.
Proof.
  split; [simpl; lia|].
  pose proof (renderRegularLine_alignment Demo.glyphWidth
                (mkPrinter 10 10 200 AlignLeft true 10 10 0 0 100 None "Vazir"
                           true (18 # 100) (1 # 10))
                [lit "ab"; lit "cde"] 200 20 plainStyle Demo.page
                ltac:(simpl; lia)) as H.
  exact (proj2 (proj2 (proj2 H))).
Defined.

(** ** The width probe and lines that fit *)

Lemma fold_plus_nonneg l : forall a,
  0 <= a -> Forall (fun x => 0 <= x) l -> 0 <= fold_left Qplus l a.
Proof.
  induction l as [|x l IH]; intros a Ha H; [exact Ha|].
  inversion H; subst. simpl. apply IH; [lra | assumption].
Qed.

Lemma Qsum_nonneg l : Forall (fun x => 0 <= x) l -> 0 <= Qsum l.
Proof. apply fold_plus_nonneg. lra. Qed.

Lemma gapsOf_app a b : gapsOf a <= gapsOf (a ++ b).
Proof.
  unfold gapsOf. rewrite <- Zle_Qle, length_app. lia.
Qed.

Lemma gapsOf_nonneg a : 0 <= gapsOf a.
Proof. unfold gapsOf. change 0 with (inject_Z 0). rewrite <- Zle_Qle. lia. Qed.

Section FitProperties.

Variable textWidth : Font -> Q -> jstring -> Q.
Variable p : Printer.
Hypothesis widths_nonneg : nonNegative textWidth.

Lemma wordWidth_nonneg size word state :
  0 <= wordWidth textWidth p size word state.
Proof.
  unfold wordWidth. apply Qsum_nonneg, Forall_forall.
  intros x Hx. apply in_map_iff in Hx. destruct Hx as (g & <- & _).
  apply widths_nonneg.
Qed.

Lemma wordWidths_nonneg size words : forall state,
  Forall (fun x => 0 <= x) (wordWidths textWidth p size words state).
Proof.
  induction words as [|w words IH]; intros state; constructor;
    [apply wordWidth_nonneg | apply IH].
Qed.

Lemma wordWidths_app' size a b s :
  wordWidths textWidth p size (a ++ b) s
  = wordWidths textWidth p size a s
    ++ wordWidths textWidth p size b (stateAfter a s).
Proof.
  revert s; induction a as [|w a IH]; intros s; simpl; [reflexivity|].
  now rewrite IH.
Qed.

(** A line is at least as wide as each of its beginnings. *)
Lemma lineWidth_prefix size spaceWidth a b :
  0 <= spaceWidth ->
  lineWidth textWidth p size spaceWidth a
  <= lineWidth textWidth p size spaceWidth (a ++ b).
Proof.
  intros Hs. unfold lineWidth. rewrite wordWidths_app', Qsum_app.
  pose proof (Qsum_nonneg _ (wordWidths_nonneg size b (stateAfter a plainStyle))).
  pose proof (gapsOf_app a b). pose proof (gapsOf_nonneg a).
  nra.
Qed.

Lemma packWords_fit startX justifyArg size spaceWidth rest : forall ps,
  0 <= spaceWidth ->
  psCalls ps = [] ->
  psLineStartingState ps = plainStyle ->
  psState ps = stateAfter (psLineWords ps) plainStyle ->
  psLineWidth ps == lineWidth textWidth p size spaceWidth (psLineWords ps) ->
  docFontSize (doc (psWorld ps)) = size ->
  lineWidth textWidth p size spaceWidth (psLineWords ps ++ rest) <= maxWidth p ->
  let ps' := fold_left (packWord textWidth p startX justifyArg spaceWidth) rest ps in
  psCalls ps' = [] /\ psLineWords ps' = psLineWords ps ++ rest
  /\ psLineStartingState ps' = plainStyle
  /\ psWorld ps' = psWorld ps /\ psY ps' = psY ps.
Proof.
  induction rest as [|word rest IH];
    intros ps Hs Hc Hl Hst Hw Hsize Hfit.
  - simpl. rewrite app_nil_r. auto.
  - cbn [fold_left].
    assert (Hstep : packWord textWidth p startX justifyArg spaceWidth ps word
                    = mkPack (psY ps) (psLineWords ps ++ [word])
                        (psLineWidth ps
                         + (wordWidth textWidth p size word (psState ps)
                            + (if (0 <? length (psLineWords ps))%nat
                               then spaceWidth else 0)))
                        (snd (parseSegmentsWithState word (psState ps)))
                        (psLineStartingState ps) (psWorld ps) (psCalls ps)
                    /\ psLineWidth ps
                       + (wordWidth textWidth p size word (psState ps)
                          + (if (0 <? length (psLineWords ps))%nat
                             then spaceWidth else 0))
                       == lineWidth textWidth p size spaceWidth
                            (psLineWords ps ++ [word])).
    { assert (E : psLineWidth ps
                  + (wordWidth textWidth p size word (psState ps)
                     + (if (0 <? length (psLineWords ps))%nat
                        then spaceWidth else 0))
                  == lineWidth textWidth p size spaceWidth
                       (psLineWords ps ++ [word])).
      { rewrite Hw. unfold lineWidth.
        rewrite wordWidths_app', Qsum_app, gapsOf_snoc, <- Hst.
        cbn [wordWidths]. rewrite Qsum_single.
        destruct (0 <? length (psLineWords ps))%nat; ring. }
      split; [|exact E].
      rewrite packWord_eq. cbv zeta. rewrite Hsize.
      assert (Hno : Qgtb (psLineWidth ps
                          + wordWidth textWidth p size word (psState ps)
                          + (if (0 <? length (psLineWords ps))%nat
                             then spaceWidth else 0)) (maxWidth p) = false).
      { apply Qgtb_le.
        pose proof (lineWidth_prefix size spaceWidth (psLineWords ps ++ [word]) rest Hs)
          as Hp.
        rewrite <- app_assoc in Hp. cbn [app] in Hp. lra. }
      now rewrite Hno. }
    destruct Hstep as [Hstep Hwidth]. rewrite Hstep.
    match goal with
    | |- context [fold_left _ rest ?q] => destruct (IH q) as (A & B & C & D & E)
    end; cbn [psCalls psLineStartingState psState psLineWords psLineWidth psWorld psY];
      auto.
    + now rewrite stateAfter_app, <- Hst.
    + now rewrite <- app_assoc.
    + cbn [psLineWords psWorld psY] in *. rewrite B, <- app_assoc. auto.
Qed.

(** The words of a paragraph that fit the maximum width are rendered as
    one line. *)
Lemma renderWords_one_line words startX startY justifyArg w :
  words <> [] ->
  lineWidth textWidth p (docFontSize (doc w))
            (getTextWidth textWidth (doc w) [SPACE_CHAR]) words <= maxWidth p ->
  snd (renderWords textWidth p words startX startY justifyArg w)
  = [mkLineCall words startX (fst (checkPageBreak p startY w)) false plainStyle].
Proof.
  intros Hne Hfit.
  rewrite renderWords_calls, flushLine_calls. unfold packWords.
  destruct (packWords_fit startX justifyArg (docFontSize (doc w))
              (getTextWidth textWidth (doc w) [SPACE_CHAR]) words
              (packStart startY w)) as (A & B & C & D & E);
    try reflexivity.
  - apply widths_nonneg.
  - exact Hfit.
  - rewrite A, B, C, D, E. cbn [app packStart psLineWords psWorld psY].
    destruct words; [congruence | reflexivity].
Qed.

Lemma paragraphWidth_eq len spaceWidth rest : forall i width state d,
  (i + length rest = len)%nat ->
  paragraphWidth textWidth p len i rest spaceWidth width state d
  = (probeSum Q Qplus spaceWidth
       (wordWidths textWidth p (docFontSize d) rest state) width, d).
Proof.
  induction rest as [|word rest IH]; intros i width state d Hlen; [reflexivity|].
  cbn [paragraphWidth]. rewrite getWordWidthWithState_eq.
  cbn [wordWidths probeSum]. cbv zeta.
  destruct rest as [|word' rest'].
  - assert (Hlast : (i <? len - 1)%nat = false)
      by (apply Nat.ltb_ge; simpl in Hlen; lia).
    rewrite Hlast. reflexivity.
  - assert (Hgap : (i <? len - 1)%nat = true)
      by (apply Nat.ltb_lt; simpl in Hlen; lia).
    rewrite Hgap, IH by (simpl in Hlen |- *; lia).
    reflexivity.
Qed.

End FitProperties.


Lemma tokenize_nonblank par : isBlank par = false -> tokenize par <> [].
Proof.
  intros Hb Ht. pose proof (tokenize_concat par) as Hc. rewrite Ht in Hc.
  cbn [concat] in Hc.
  assert (Hall : forallb isSpace par = true).
  { clear Hb Ht. induction par as [|c par IH]; [reflexivity|].
    cbn [filter] in Hc. destruct (N.eqb_spec c SPACE_CHAR) as [->|Hn];
      cbn [negb] in Hc; [|discriminate].
    cbn [forallb]. rewrite (IH Hc). reflexivity. }
  unfold isBlank in Hb. congruence.
Qed.

Lemma wordWidths_length textWidth p size words : forall state,
  length (wordWidths textWidth p size words state) = length words.
Proof.
  induction words as [|x words IH]; intros state; [reflexivity|].
  cbn [wordWidths length]. now rewrite IH.
Qed.

(** In exact arithmetic the sum of the probe is the sum of the widths
    plus one space width for each gap. *)
Lemma probeSum_exact spaceWidth widths : forall width,
  probeSum Q Qplus spaceWidth widths width
  == width + Qsum widths + inject_Z (Z.of_nat (pred (length widths))) * spaceWidth.
Proof.
  induction widths as [|x widths IH]; intros width.
  - cbn. unfold Qsum. cbn. ring.
  - cbn [probeSum]. cbv zeta. rewrite IH, Qsum_cons.
    destruct widths as [|y widths]; cbn [length pred].
    + unfold Qsum. cbn. ring.
    + rewrite Qsum_cons, Nat2Z.inj_succ, <- Z.add_1_r, inject_Z_plus.
      change (inject_Z 1) with 1. ring.
Qed.

Section ProbeProperties.

Variable textWidth : Font -> Q -> jstring -> Q.
Variable p : Printer.

Lemma widestParagraph_eq spaceWidth widest d paragraph :
  let r := widestParagraph textWidth p spaceWidth (widest, d) paragraph in
  let width :=
    probedWidth textWidth p (docFontSize d) spaceWidth (tokenize paragraph) in
  snd r = d
  /\ (isBlank paragraph = true -> fst r = widest)
  /\ (isBlank paragraph = false ->
      widest <= fst r /\ width <= fst r /\ (fst r = widest \/ fst r = width)).
Proof.
  cbv zeta. unfold widestParagraph, probedWidth.
  destruct (isBlank paragraph) eqn:Hb.
  - cbn [fst snd]. split; [reflexivity|]. split; [reflexivity | discriminate].
  - rewrite (paragraphWidth_eq textWidth p (length (tokenize paragraph)) spaceWidth
               (tokenize paragraph) 0%nat 0 plainStyle d eq_refl).
    split; [reflexivity|]. split; [discriminate|]. intros _.
    destruct (Qgtb _ widest) eqn:G; cbn [fst].
    + apply Qgtb_lt in G.
      split; [apply Qlt_le_weak, G|]. split; [apply Qle_refl | now right].
    + apply Qgtb_le in G.
      split; [apply Qle_refl|]. split; [exact G | now left].
Qed.

Lemma widestParagraphs_eq spaceWidth d paragraphs : forall widest,
  let r := fold_left (widestParagraph textWidth p spaceWidth) paragraphs (widest, d) in
  let width par :=
    probedWidth textWidth p (docFontSize d) spaceWidth (tokenize par) in
  let shown := filter (fun par => negb (isBlank par)) paragraphs in
  snd r = d
  /\ widest <= fst r
  /\ Forall (fun par => width par <= fst r) shown
  /\ (fst r = widest \/ Exists (fun par => fst r = width par) shown).
Proof.
  cbv zeta. induction paragraphs as [|par paragraphs IH]; intros widest.
  - cbn [fold_left filter fst snd].
    repeat split; [apply Qle_refl | constructor | now left].
  - cbn [fold_left filter].
    destruct (widestParagraph_eq spaceWidth widest d par) as (A & B & C).
    destruct (widestParagraph textWidth p spaceWidth (widest, d) par)
      as [widest1 d1].
    cbn [fst snd] in A, B, C. subst d1.
    destruct (IH widest1) as (A1 & B1 & C1 & D1).
    destruct (isBlank par) eqn:Hb; cbn [negb].
    + rewrite (B eq_refl) in *. auto.
    + destruct (C eq_refl) as (C2 & C3 & C4).
      split; [exact A1|]. split; [exact (Qle_trans _ _ _ C2 B1)|]. split.
      * constructor; [exact (Qle_trans _ _ _ C3 B1) | exact C1].
      * destruct D1 as [D1|D1]; [|right; now apply Exists_cons_tl].
        destruct C4 as [C4|C4]; [left; congruence|].
        right. apply Exists_cons_hd. congruence.
Qed.

End ProbeProperties.

(** X11.  The width probe [getTextWidth(text)] of the printer leaves the
    document as it found it (font included) and returns the width of the
    widest paragraph: the result is not negative, no paragraph that is
    not blank is wider than the result, and the result is 0 or the width
    of one of these paragraphs.  The width of a paragraph is the sum the
    loop builds, in its order: from 0, the width of each word, measured in
    the style the words before it left, and after every word but the last
    a space width; the statement relates no sums of different order, so
    it does not depend on rounding. *)
Theorem printerGetTextWidth_widest :
  forall textWidth p (text0 : jstring) (d : Doc),
    let r := printerGetTextWidth textWidth p text0 d in
    let width par :=
      probedWidth textWidth p (docFontSize d)
                  (getTextWidth textWidth d [SPACE_CHAR]) (tokenize par) in
    let shown :=
      filter (fun par => negb (isBlank par))
             (splitOn NEWLINE (preprocessText text0)) in
    snd r = d
    /\ 0 <= fst r
    /\ Forall (fun par => width par <= fst r) shown
    /\ (fst r = 0 \/ Exists (fun par => fst r = width par) shown).
Proof.
  intros textWidth p text0 d. cbv zeta. unfold printerGetTextWidth. cbv zeta.
  exact (widestParagraphs_eq textWidth p
           (getTextWidth textWidth d [SPACE_CHAR]) d
           (splitOn NEWLINE (preprocessText text0)) 0).
Qed.

(** X12.  In exact arithmetic the probe predicts the layout.  For glyph
    widths that are not negative and a text of one paragraph that is not
    blank: when the width that the probe reports for the text is within
    the maximum width of the printer, [print] renders the text as a
    single line that holds all its words, at the start x, on the baseline
    that the page-break check returns for the start baseline, regular
    (the last line is never justified) and starting in the plain style.
    The probe adds word, space, word, and the line breaker tests running
    width plus word plus space: the two sums agree in exact arithmetic
    only, see [probe_and_breaker_rounded]. *)
Theorem print_probed_line :
  forall textWidth p (text0 : jstring) (options : PrintOptions) (w : World),
    nonNegative textWidth ->
    holds NEWLINE (preprocessText text0) = false ->
    isBlank (preprocessText text0) = false ->
    fst (printerGetTextWidth textWidth p text0 (doc w)) <= maxWidth p ->
    snd (print textWidth p text0 options w)
    = [mkLineCall (tokenize (preprocessText text0))
                  (orElse (optStartX options) (defaultStartX p))
                  (fst (checkPageBreak p (optStartY options) w))
                  false plainStyle].
Proof.
  intros textWidth p text0 options w Hnn Hone Hb Hfit.
  unfold printerGetTextWidth in Hfit. cbv zeta in Hfit.
  destruct (widestParagraphs_eq textWidth p
              (getTextWidth textWidth (doc w) [SPACE_CHAR]) (doc w)
              (splitOn NEWLINE (preprocessText text0)) 0) as (_ & _ & C & _).
  revert C Hfit. unfold print. cbv zeta.
  rewrite (splitOn_free_part NEWLINE _ Hone).
  cbn [filter]. rewrite Hb. cbn [negb]. intros C Hfit. cbn [fold_left].
  inversion C as [|? ? Hw _]; subst.
  unfold printParagraph. rewrite Hb.
  pose proof (renderWords_one_line textWidth p Hnn (tokenize (preprocessText text0))
                (orElse (optStartX options) (defaultStartX p)) (optStartY options)
                (orElse (optJustify options) (justify p)) w
                (tokenize_nonblank _ Hb)) as H.
  destruct (renderWords textWidth p (tokenize (preprocessText text0))
              (orElse (optStartX options) (defaultStartX p)) (optStartY options)
              (orElse (optJustify options) (justify p)) w) as [[y1 w1] made].
  cbn [snd app] in H |- *. apply H.
  unfold probedWidth in Hw. rewrite probeSum_exact in Hw.
  unfold lineWidth, gapsOf.
  rewrite wordWidths_length in Hw. lra.
Qed.

Lemma print_probed_line_witness :
  snd (print Demo.glyphWidth (Demo.printer 100 None) (lit "ab cd")
         (mkOptions None 20 None) Demo.world)
  = [mkLineCall (tokenize (preprocessText (lit "ab cd")))
                (orElse None (defaultStartX (Demo.printer 100 None)))
                (fst (checkPageBreak (Demo.printer 100 None) 20 Demo.world))
                false plainStyle].
Proof.
  apply (print_probed_line Demo.glyphWidth (Demo.printer 100 None) (lit "ab cd")
           (mkOptions None 20 None) Demo.world).
  - intros f size t. unfold Demo.glyphWidth.
    apply Qmult_le_0_compat.
    + change 0 with (inject_Z 0). rewrite <- Zle_Qle. lia.
    + destruct (String.eqb (fontStyle f) "bold"); lra.
  - reflexivity.
  - reflexivity.
  - apply Qle_bool_iff. vm_compute. reflexivity.
Defined.

(** With binary64 numbers the probe and the line breaker can disagree:
    for a configured width of 67.3, a space width of 3.1 and the widths
    32.0 and 27.2 the probe reports a width that is not above the
    effective maximum 67.3 - 5, and the line breaker puts the two words
    on two lines. *)
#[warnings="-inexact-float"] Lemma probe_and_breaker_rounded :
  float_gt (probeSum float PrimFloat.add 3.1%float [32.0; 27.2]%float 0%float)
           (PrimFloat.sub 67.3 5)%float
  = false
  /\ breakLines float PrimFloat.add float_gt 0%float 3.1%float
                (PrimFloat.sub 67.3 5)%float [32.0; 27.2]%float
     = [[32.0]%float; [27.2]%float].
Proof. split; vm_compute; reflexivity. Qed.


(** ** Baselines *)

Lemma checkPageBreak_baseline p y w :
  fitsPage p (fst (checkPageBreak p y w))
  \/ resumeBaseline p (fst (checkPageBreak p y w)).
Proof.
  unfold checkPageBreak, fitsPage, resumeBaseline. cbv zeta.
  destruct (Qgtb (y + lineHeight p + PAGE_SAFETY) (pageThreshold p)) eqn:G.
  - right. destruct (onPageBreak p) as [callback|]; [|reflexivity].
    exists (pageCounter w + 1)%Z, (addPage (doc w)).
    now destruct (callback (pageCounter w + 1)%Z (addPage (doc w))).
  - left. apply Qgtb_le in G. exact G.
Qed.

Lemma checkPageBreak_cases p y w :
  checkPageBreak p y w = (y, w)
  \/ pageCounter (snd (checkPageBreak p y w)) = (pageCounter w + 1)%Z.
Proof.
  unfold checkPageBreak. cbv zeta.
  destruct (Qgtb _ _); [right | now left].
  destruct (onPageBreak p) as [callback|]; [|reflexivity].
  now destruct (callback (pageCounter w + 1)%Z (addPage (doc w))).
Qed.

Lemma evenlySpaced_snoc y h calls c :
  evenlySpaced y h calls ->
  lcY c = advance h (length calls) y ->
  evenlySpaced y h (calls ++ [c]).
Proof.
  intros H Hc k c' Hk.
  destruct (Nat.lt_ge_cases k (length calls)) as [L|L].
  - rewrite nth_error_app1 in Hk by exact L. now apply H.
  - rewrite nth_error_app2 in Hk by exact L.
    destruct (k - length calls)%nat as [|m] eqn:E.
    + cbn in Hk. injection Hk as <-.
      assert (k = length calls) by lia. subst k. exact Hc.
    + cbn in Hk. destruct m; discriminate.
Qed.

Section BaselineProperties.

Variable textWidth : Font -> Q -> jstring -> Q.
Variable p : Printer.

Lemma packWords_onPage startX justifyArg spaceWidth words : forall ps,
  Forall (onPage p) (psCalls ps) ->
  Forall (onPage p)
    (psCalls (fold_left (packWord textWidth p startX justifyArg spaceWidth) words ps)).
Proof.
  induction words as [|word words IH]; intros ps H; [exact H|].
  cbn [fold_left]. apply IH. rewrite packWord_eq. cbv zeta.
  destruct (Qgtb _ _); [|exact H].
  cbn [psCalls]. apply Forall_app. split; [exact H|].
  constructor; [|constructor]. apply checkPageBreak_baseline.
Qed.

Lemma renderWords_onPage words startX startY justifyArg w :
  Forall (onPage p) (snd (renderWords textWidth p words startX startY justifyArg w)).
Proof.
  rewrite renderWords_calls. apply Forall_app. split.
  - apply packWords_onPage. constructor.
  - rewrite flushLine_calls.
    destruct (psLineWords _); constructor; [|constructor].
    apply checkPageBreak_baseline.
Qed.

Lemma printParagraphs_onPage startX shouldJustify paragraphs : forall y w calls,
  Forall (onPage p) calls ->
  Forall (onPage p)
    (snd (fold_left (printParagraph textWidth p startX shouldJustify) paragraphs
                    (y, w, calls))).
Proof.
  induction paragraphs as [|par paragraphs IH]; intros y w calls H; [exact H|].
  cbn [fold_left]. unfold printParagraph at 2.
  destruct (isBlank par); [now apply IH|].
  pose proof (renderWords_onPage (tokenize par) startX y shouldJustify w) as R.
  destruct (renderWords textWidth p (tokenize par) startX y shouldJustify w)
    as [[y1 w1] made].
  apply IH, Forall_app. split; [exact H | exact R].
Qed.

Lemma packWords_unbroken startX justifyArg spaceWidth startY w0 words : forall ps,
  unbroken p startY w0 ps ->
  unbroken p startY w0
    (fold_left (packWord textWidth p startX justifyArg spaceWidth) words ps).
Proof.
  induction words as [|word words IH]; intros ps H; [exact H|].
  cbn [fold_left]. apply IH. rewrite packWord_eq. cbv zeta.
  destruct (Qgtb _ _); [|exact H].
  destruct H as [Hmono Hsame]. unfold unbroken. cbn [psWorld psCalls psY pageCounter].
  destruct (checkPageBreak_cases p (psY ps) (psWorld ps)) as [E|E].
  - rewrite E. cbn [fst snd]. split; [exact Hmono|]. intros Hc.
    destruct (Hsame Hc) as [Hs Hy]. split.
    + apply evenlySpaced_snoc; [exact Hs | exact Hy].
    + rewrite length_app, Nat.add_1_r, Hy. reflexivity.
  - rewrite E. split; [lia|]. intros Hc. lia.
Qed.

Lemma renderWords_unbroken words startX startY justifyArg w :
  let r := renderWords textWidth p words startX startY justifyArg w in
  (pageCounter w <= pageCounter (snd (fst r)))%Z
  /\ (pageCounter (snd (fst r)) = pageCounter w ->
      evenlySpaced startY (lineHeight p) (snd r)
      /\ fst (fst r) = advance (lineHeight p) (length (snd r)) startY).
Proof.
  cbv zeta. unfold renderWords. cbv zeta.
  pose proof (packWords_unbroken startX justifyArg
                (getTextWidth textWidth (doc w) [SPACE_CHAR]) startY w words
                (packStart startY w)) as H.
  fold (packWords textWidth p words startX startY justifyArg w) in H.
  destruct H as [Hmono Hsame].
  { split; [cbn; lia|]. intros _. cbn [packStart psCalls psY length]. split.
    - intros k c Hk. destruct k; discriminate.
    - reflexivity. }
  set (ps := packWords textWidth p words startX startY justifyArg w) in *.
  unfold flushLine.
  destruct (psLineWords ps) as [|word0 line] eqn:El.
  - cbn [fst snd]. rewrite app_nil_r. split; [exact Hmono | exact Hsame].
  - destruct (checkPageBreak_cases p (psY ps) (psWorld ps)) as [E|E].
    + rewrite E. cbn [fst snd pageCounter]. split; [exact Hmono|]. intros Hc.
      destruct (Hsame Hc) as [Hs Hy]. split.
      * apply evenlySpaced_snoc; [exact Hs | exact Hy].
      * rewrite length_app, Nat.add_1_r, Hy. reflexivity.
    + destruct (checkPageBreak p (psY ps) (psWorld ps)) as [y1 w1].
      cbn [fst snd pageCounter] in E |- *. split; [lia|]. intros Hc. lia.
Qed.

Lemma printParagraphs_unbroken startX shouldJustify paragraphs : forall y w calls,
  let r := fold_left (printParagraph textWidth p startX shouldJustify) paragraphs
                     (y, w, calls) in
  (pageCounter w <= pageCounter (snd (fst r)))%Z
  /\ (pageCounter (snd (fst r)) = pageCounter w ->
      exists made,
        length (snd r) = (length calls + made)%nat
        /\ fst (fst r)
           = advance (lineHeight p)
                     (made + length (filter isBlank paragraphs)) y).
Proof.
  induction paragraphs as [|par paragraphs IH]; intros y w calls.
  - cbn [fold_left fst snd filter length]. split; [lia|]. intros _.
    exists 0%nat. split; [lia | reflexivity].
  - cbn [fold_left filter].
    destruct (isBlank par) eqn:Hb.
    + assert (E : printParagraph textWidth p startX shouldJustify (y, w, calls) par
                  = (y + lineHeight p, w, calls))
        by (unfold printParagraph; now rewrite Hb).
      rewrite E.
      destruct (IH (y + lineHeight p) w calls) as [A B]. cbv zeta in A, B.
      cbv zeta. split; [exact A|]. intros Hc.
      destruct (B Hc) as (made & Hlen & Hy). exists made. split; [exact Hlen|].
      rewrite Hy, advance_shift. cbn [length]. f_equal. lia.
    + pose proof (renderWords_unbroken (tokenize par) startX y shouldJustify w) as R.
      cbv zeta in R.
      assert (E : printParagraph textWidth p startX shouldJustify (y, w, calls) par
                  = (let '(y1, w1, made) :=
                       renderWords textWidth p (tokenize par) startX y shouldJustify w
                     in (y1, w1, calls ++ made)))
        by (unfold printParagraph; now rewrite Hb).
      rewrite E.
      destruct (renderWords textWidth p (tokenize par) startX y shouldJustify w)
        as [[y1 w1] lines].
      cbn [fst snd] in R. destruct R as [R1 R2].
      destruct (IH y1 w1 (calls ++ lines)) as [A B]. cbv zeta in A, B.
      cbv zeta. split; [lia|]. intros Hc.
      assert (Hc1 : pageCounter w1 = pageCounter w) by lia.
      destruct (R2 Hc1) as [_ Hy].
      assert (Hc2 : pageCounter
                      (snd (fst (fold_left
                                   (printParagraph textWidth p startX shouldJustify)
                                   paragraphs (y1, w1, calls ++ lines))))
                    = pageCounter w1) by lia.
      destruct (B Hc2) as (made & Hlen & Hr).
      exists (length lines + made)%nat. split.
      * rewrite Hlen, length_app. lia.
      * rewrite Hr, Hy, advance_add. f_equal. lia.
Qed.

End BaselineProperties.

(** X13.  No line below the page.  Every line that [print] renders has a
    baseline [y] that leaves room for a line above the bottom threshold,
    [y + lineHeight + 2 <= pageHeight - footerHeight - marginBottom], or
    is a baseline at which rendering resumes after a page break: the
    value returned by the callback when one is configured, otherwise
    [marginTop + headerHeight]. *)
Theorem print_baselines_on_page :
  forall textWidth p (text0 : jstring) (options : PrintOptions) (w : World),
    Forall (fun c => fitsPage p (lcY c) \/ resumeBaseline p (lcY c))
           (snd (print textWidth p text0 options w)).
Proof.
  intros. unfold print. cbv zeta.
  apply (printParagraphs_onPage textWidth p). constructor.
Qed.

(** X14.  Line spacing.  The page counter never decreases in renderWords,
    and when it is the same after the call as before (no page break
    happened), line [k] of the lines rendered for the words (from 0) is at
    the start baseline after [k] steps [y += lineHeight], and the
    baseline returned is the start baseline after one such step for each
    line.  The steps are the additions of the code in their order, so the
    equations do not depend on rounding. *)
Theorem renderWords_line_spacing :
  forall textWidth p (words : list jstring) (startX startY : Q) (justifyArg : bool)
         (w : World),
    let r := renderWords textWidth p words startX startY justifyArg w in
    (pageCounter w <= pageCounter (snd (fst r)))%Z
    /\ (pageCounter (snd (fst r)) = pageCounter w ->
        evenlySpaced startY (lineHeight p) (snd r)
        /\ fst (fst r) = advance (lineHeight p) (length (snd r)) startY).
Proof.
  intros textWidth p words startX startY justifyArg w. cbv zeta.
  apply (renderWords_unbroken textWidth p).
Qed.

Lemma renderWords_line_spacing_witness :
  fst (fst (renderWords Demo.glyphWidth (Demo.printer 9 None)
              [lit "abc"; lit "de"; lit "f"] 200 20 true Demo.world))
  = advance (lineHeight (Demo.printer 9 None))
            (length (snd (renderWords Demo.glyphWidth (Demo.printer 9 None)
                            [lit "abc"; lit "de"; lit "f"] 200 20 true Demo.world)))
            20.
Proof.
  destruct (renderWords_line_spacing Demo.glyphWidth (Demo.printer 9 None)
              [lit "abc"; lit "de"; lit "f"] 200 20 true Demo.world) as [_ H].
  apply H. reflexivity.
Defined.

(** X15.  The height that [print] reports.  When the page counter is the
    same after [print] as before, the baseline returned is the start
    baseline after one step [currentY += lineHeight] for each rendered line
    and for each blank paragraph of the preprocessed text.  The steps are
    the additions of the code in their order, so the equation does not
    depend on rounding. *)
Theorem print_returns_height :
  forall textWidth p (text0 : jstring) (options : PrintOptions) (w : World),
    let r := print textWidth p text0 options w in
    pageCounter (snd (fst r)) = pageCounter w ->
    fst (fst r)
    = advance (lineHeight p)
              (length (snd r)
               + length (filter isBlank (splitOn NEWLINE (preprocessText text0))))
              (optStartY options).
Proof.
  intros textWidth p text0 options w. cbv zeta. unfold print. cbv zeta. intros Hc.
  destruct (printParagraphs_unbroken textWidth p
              (orElse (optStartX options) (defaultStartX p))
              (orElse (optJustify options) (justify p))
              (splitOn NEWLINE (preprocessText text0))
              (optStartY options) w []) as [_ B].
  cbv zeta in B. destruct (B Hc) as (made & Hlen & Hy).
  cbn [length Nat.add] in Hlen. rewrite Hy, Hlen. reflexivity.
Qed.

Lemma print_returns_height_witness :
  fst (fst (print Demo.glyphWidth (Demo.printer 9 None) [49; 50; 10; 10; 51]%N
              (mkOptions None 20 None) Demo.world))
  = advance (lineHeight (Demo.printer 9 None))
            (length (snd (print Demo.glyphWidth (Demo.printer 9 None)
                            [49; 50; 10; 10; 51]%N
                            (mkOptions None 20 None) Demo.world))
             + length (filter isBlank
                         (splitOn NEWLINE (preprocessText [49; 50; 10; 10; 51]%N))))
            20.
Proof.
  apply (print_returns_height Demo.glyphWidth (Demo.printer 9 None)
           [49; 50; 10; 10; 51]%N (mkOptions None 20 None) Demo.world).
  reflexivity.
Defined.

(** ** No tag is left *)

Lemma anyTag_without_GT s : holds GT s = false -> replace anyTagRegex s = s.
Proof.
  unfold holds. induction s as [|c s IH]; [reflexivity|]. cbn [existsb].
  intros H. apply orb_false_iff in H. destruct H as [_ Hs].
  rewrite replace_none, (IH Hs); [reflexivity|].
  destruct (anyTagRegex (c :: s)) as [r|] eqn:E; [|reflexivity].
  destruct (anyTagRegex_needsTag c s r E) as [_ Hin].
  apply existsb_In_eqb in Hin. congruence.
Qed.

Lemma anyTag_none_cases s :
  anyTagRegex (LT :: s) = None ->
  s = [] \/ (exists s', s = GT :: s') \/ holds GT s = false.
Proof.
  unfold anyTagRegex. rewrite N.eqb_refl.
  destruct s as [|c s]; [now left|]. intros H.
  destruct (N.eqb_spec c GT) as [->|Hc]; [right; left; now eexists|].
  right; right.
  cbn [takeWhile] in H. apply N.eqb_neq in Hc. rewrite Hc in H. cbn [negb] in H.
  destruct (dropWhile (fun x => negb (N.eqb x GT)) (c :: s)) as [|c' s'] eqn:E;
    [|discriminate].
  pose proof (takeWhile_dropWhile (fun x => negb (N.eqb x GT)) (c :: s)) as Hs.
  rewrite E, app_nil_r in Hs. rewrite <- Hs.
  pose proof (takeWhile_all (fun x => negb (N.eqb x GT)) (c :: s)) as Ha.
  unfold holds. apply not_true_is_false. intros Hex.
  apply existsb_exists in Hex. destruct Hex as (x & Hx & Ex).
  apply N.eqb_eq in Ex. subst x.
  rewrite forallb_forall in Ha. specialize (Ha GT Hx).
  rewrite N.eqb_refl in Ha. discriminate.
Qed.

Lemma anyTag_clean_aux n : forall s k,
  (length s <= n)%nat ->
  anyTagRegex (skipn k (replace anyTagRegex s)) = None.
Proof.
  induction n as [|n IH]; intros [|c s] k Hlen; simpl in Hlen;
    try (now destruct k); try lia.
  destruct (anyTagRegex (c :: s)) as [[out m]|] eqn:E.
  - rewrite (replace_some _ _ _ _ _ E).
    destruct (anyTag_match _ _ _ _ E) as (inner & rest & -> & Hs & -> & Hr).
    rewrite Hr. cbn [app]. apply IH.
    subst s. rewrite length_app in Hlen. cbn [length] in Hlen. lia.
  - rewrite (replace_none _ _ _ E).
    destruct k as [|k]; [|cbn [skipn]; apply IH; lia].
    cbn [skipn].
    destruct (N.eqb_spec c LT) as [->|Hc].
    + destruct (anyTag_none_cases s E) as [->|[[s' ->]|Hg]].
      * reflexivity.
      * rewrite replace_none by reflexivity.
        unfold anyTagRegex. rewrite N.eqb_refl. cbn [takeWhile].
        rewrite N.eqb_refl. reflexivity.
      * rewrite (anyTag_without_GT s Hg). exact E.
    + unfold anyTagRegex. apply N.eqb_neq in Hc. now rewrite Hc.
Qed.

Lemma anyTag_mirror s : anyTagRegex (map mirrorParen s) = anyTagRegex s.
Proof.
  assert (Hgt : forall c, N.eqb (mirrorParen c) GT = N.eqb c GT).
  { intros c. unfold mirrorParen.
    destruct (N.eqb_spec c LPAREN) as [->|]; [reflexivity|].
    destruct (N.eqb_spec c RPAREN) as [->|]; reflexivity. }
  assert (Hlt : forall c, N.eqb (mirrorParen c) LT = N.eqb c LT).
  { intros c. unfold mirrorParen.
    destruct (N.eqb_spec c LPAREN) as [->|]; [reflexivity|].
    destruct (N.eqb_spec c RPAREN) as [->|]; reflexivity. }
  assert (Ht : forall t,
             takeWhile (fun x => negb (N.eqb x GT)) (map mirrorParen t)
             = map mirrorParen (takeWhile (fun x => negb (N.eqb x GT)) t)).
  { induction t as [|c t IH]; [reflexivity|]. cbn [map takeWhile].
    rewrite Hgt. destruct (N.eqb c GT); cbn [negb map]; [reflexivity|].
    f_equal. exact IH. }
  assert (Hd : forall t,
             dropWhile (fun x => negb (N.eqb x GT)) (map mirrorParen t)
             = map mirrorParen (dropWhile (fun x => negb (N.eqb x GT)) t)).
  { induction t as [|c t IH]; [reflexivity|]. cbn [map dropWhile].
    rewrite Hgt. destruct (N.eqb c GT); cbn [negb map]; [reflexivity | exact IH]. }
  destruct s as [|c s]; [reflexivity|]. cbn [map]. unfold anyTagRegex.
  rewrite Hlt, Ht, Hd.
  destruct (N.eqb c LT); [|reflexivity].
  destruct (takeWhile _ s) as [|x inner]; [reflexivity|].
  destruct (dropWhile _ s) as [|y rest]; [reflexivity|].
  cbn [map length]. now rewrite length_map.
Qed.

(** X16.  No tag is left.  In the text that preprocessing returns, the
    regular expression for a leftover tag (an opening angle bracket, one
    or more characters other than the closing angle bracket, a closing
    angle bracket) matches at no position, whatever the input is: the
    removal is complete after its single pass, and the exchange of the
    parentheses makes no tag. *)
Theorem preprocessText_leaves_no_tag :
  forall (text0 : jstring) (k : nat),
    anyTagRegex (skipn k (preprocessText text0)) = None.
Proof.
  intros text0 k. rewrite preprocessText_mirror, skipn_map, anyTag_mirror.
  unfold markText.
  match goal with
  | |- context [replace anyTagRegex ?s] => apply (anyTag_clean_aux (length s) s k)
  end.
  lia.
Qed.


(** ** Style elements *)

Lemma markText_styles text0 :
  markText text0
  = replace anyTagRegex (replace ltrBlockRegex (applyStyles (replace brRegex text0))).
Proof. reflexivity. Qed.

Lemma replace_other re c s :
  needsTag re -> c <> LT -> replace re (c :: s) = c :: replace re s.
Proof.
  intros Hre Hc. apply replace_none.
  destruct (re (c :: s)) as [r|] eqn:E; [|reflexivity].
  destruct (Hre _ _ _ E) as [H _]. contradiction.
Qed.

Lemma replace_inert_prefix re a :
  needsTag re -> holds LT a = false ->
  forall s, replace re (a ++ s) = a ++ replace re s.
Proof.
  intros Hre. unfold holds. induction a as [|c a IH]; intros H s; [reflexivity|].
  cbn [existsb] in H. apply orb_false_iff in H. destruct H as [Hc Ha].
  cbn [app]. rewrite (replace_other re c (a ++ s) Hre), (IH Ha); [reflexivity|].
  intros ->. rewrite N.eqb_refl in Hc. discriminate.
Qed.

Lemma replace_element_fixed re name inner :
  needsTag re ->
  (forall rest, re (LT :: lit name ++ GT :: rest) = None) ->
  (forall rest, re (LT :: SLASH :: rest) = None) ->
  holds LT (lit name) = false ->
  holds LT inner = false ->
  replace re (element name inner) = element name inner.
Proof.
  intros Hre H1 H2 Hn Hi. unfold element.
  rewrite (replace_none re _ _ (H1 _)).
  rewrite (replace_inert_prefix re (lit name) Hre Hn).
  rewrite (replace_other re GT _ Hre) by discriminate.
  rewrite (replace_inert_prefix re inner Hre Hi).
  rewrite (replace_none re _ _ (H2 _)).
  rewrite (replace_other re SLASH _ Hre) by discriminate.
  rewrite (replace_inert_prefix re (lit name) Hre Hn).
  rewrite (replace_other re GT _ Hre) by discriminate.
  reflexivity.
Qed.

Lemma ciEqb_LT c : ciEqb LT c = N.eqb LT c.
Proof.
  unfold ciEqb, upcase. change (isLower LT) with false. cbv iota.
  destruct (isLower c) eqn:E; [|reflexivity].
  unfold isLower in E. apply andb_true_iff in E. destruct E as [E1 E2].
  apply N.leb_le in E1, E2.
  assert (A : N.eqb LT (c - 32) = false) by (apply N.eqb_neq; unfold LT; lia).
  assert (B : N.eqb LT c = false) by (apply N.eqb_neq; unfold LT; lia).
  now rewrite A, B.
Qed.

Lemma ciPrefix_self pat : forall rest, ciPrefix pat (pat ++ rest) = Some rest.
Proof.
  induction pat as [|x pat IH]; intros rest; [reflexivity|].
  cbn [app ciPrefix]. unfold ciEqb. rewrite N.eqb_refl. apply IH.
Qed.

Lemma lazyUntil_eq close s :
  lazyUntil close s
  = match ciPrefix close s with
    | Some _ => Some []
    | None =>
        match s with
        | c :: s' =>
            if isLineTerminator c then None
            else match lazyUntil close s' with
                 | Some inner => Some (c :: inner)
                 | None => None
                 end
        | [] => None
        end
    end.
Proof. destruct s; reflexivity. Qed.

Lemma lazyUntil_inert close' inner rest :
  forallb inertChar inner = true ->
  lazyUntil (LT :: close') (inner ++ LT :: close' ++ rest) = Some inner.
Proof.
  induction inner as [|c inner IH]; intros H.
  - cbn [app]. rewrite lazyUntil_eq.
    change (LT :: close' ++ rest) with ((LT :: close') ++ rest).
    now rewrite ciPrefix_self.
  - cbn [forallb] in H. apply andb_true_iff in H. destruct H as [Hc Hi].
    unfold inertChar in Hc.
    apply andb_true_iff in Hc. destruct Hc as [Hc Hl].
    apply andb_true_iff in Hc. destruct Hc as [Hc _].
    apply negb_true_iff in Hc, Hl.
    rewrite lazyUntil_eq. cbn [app ciPrefix].
    rewrite ciEqb_LT, N.eqb_sym, Hc, Hl, (IH Hi). reflexivity.
Qed.

Lemma tagBody_element name inner :
  forallb inertChar inner = true ->
  tagBody name (lit name ++ GT :: inner ++ LT :: SLASH :: lit name ++ [GT])
  = Some (inner,
          length (lit name ++ GT :: inner ++ LT :: SLASH :: lit name ++ [GT])).
Proof.
  intros Hi. unfold tagBody.
  assert (E : lit name ++ GT :: inner ++ LT :: SLASH :: lit name ++ [GT]
              = (lit name ++ [GT])
                ++ inner ++ LT :: (SLASH :: lit name ++ [GT]) ++ [])
    by (rewrite <- app_assoc, app_nil_r; reflexivity).
  rewrite E at 1. rewrite ciPrefix_self. cbv zeta.
  rewrite (lazyUntil_inert (SLASH :: lit name ++ [GT]) inner [] Hi).
  f_equal. f_equal.
  repeat (progress (rewrite ?length_app; cbn [length])). lia.
Qed.

Lemma replace_element_hit names start stop name inner :
  (forall rest r, tagBody name (lit name ++ GT :: rest) = Some r ->
                  firstAlternative names (lit name ++ GT :: rest) = Some r) ->
  forallb inertChar inner = true ->
  replace (styleRegex names start stop) (element name inner)
  = start :: inner ++ [stop].
Proof.
  intros Hf Hi. unfold element.
  rewrite (replace_some (styleRegex names start stop) LT _
             (start :: inner ++ [stop])
             (S (length (lit name ++ GT :: inner ++ LT :: SLASH :: lit name ++ [GT])))).
  - cbn [pred]. rewrite skipn_all. cbn [replace replaceAll]. apply app_nil_r.
  - unfold styleRegex.
    rewrite N.eqb_refl, (Hf _ _ (tagBody_element name inner Hi)).
    reflexivity.
Qed.

Lemma untilStable_settles f s s' fuel :
  (2 <= fuel)%nat -> f s = s' -> f s' = s' -> untilStable fuel f s = s'.
Proof.
  intros Hfuel E1 E2. destruct fuel as [|[|k]]; try lia.
  simpl. rewrite E1. destruct (jeqb s' s); [reflexivity|].
  now rewrite E2, jeqb_refl.
Qed.

Lemma inert_facts inner :
  forallb inertChar inner = true ->
  holds LT inner = false
  /\ forallb (fun c => negb (isLetter c)) inner = true.
Proof.
  unfold holds. induction inner as [|c inner IH]; intros H; [split; reflexivity|].
  cbn [forallb] in H. apply andb_true_iff in H. destruct H as [Hc Hi].
  destruct (IH Hi) as [A B]. unfold inertChar in Hc.
  apply andb_true_iff in Hc. destruct Hc as [Hc _].
  apply andb_true_iff in Hc. destruct Hc as [Hc Hl].
  apply negb_true_iff in Hc.
  cbn [existsb forallb]. rewrite A, B, Hl, N.eqb_sym, Hc. split; reflexivity.
Qed.

Lemma wrapped_clean start stop inner :
  isMarker start = true -> isMarker stop = true ->
  forallb inertChar inner = true ->
  holds LT (start :: inner ++ [stop]) = false
  /\ forallb (fun c => negb (isLetter c)) (start :: inner ++ [stop]) = true.
Proof.
  intros Hs He Hi. destruct (inert_facts inner Hi) as [A B].
  assert (M : forall c, isMarker c = true ->
                        N.eqb LT c = false /\ isLetter c = false).
  { intros c Hc. unfold isMarker in Hc. apply existsb_exists in Hc.
    destruct Hc as (m & Hm & E). apply N.eqb_eq in E. subst m.
    cbn in Hm. repeat (destruct Hm as [<-|Hm]; [split; reflexivity|]).
    contradiction. }
  destruct (M start Hs) as [S1 S2]. destruct (M stop He) as [E1 E2].
  unfold holds in *. cbn [existsb forallb].
  rewrite existsb_app, forallb_app, A, B, S1, S2. cbn [existsb forallb].
  rewrite E1, E2. split; reflexivity.
Qed.

Lemma replaceStyle_element_hit names start stop name inner :
  (forall rest r, tagBody name (lit name ++ GT :: rest) = Some r ->
                  firstAlternative names (lit name ++ GT :: rest) = Some r) ->
  isMarker start = true -> isMarker stop = true ->
  forallb inertChar inner = true ->
  replaceStyle names start stop (element name inner) = start :: inner ++ [stop].
Proof.
  intros Hf Hs He Hi. unfold replaceStyle. apply untilStable_settles.
  - unfold element. cbn [length]. lia.
  - apply replace_element_hit; assumption.
  - apply replace_tagfree; [apply styleRegex_needsTag|].
    apply hasTag_without_LT. now apply wrapped_clean.
Qed.

Lemma replaceStyle_element_fixed names start stop name inner :
  (forall rest, styleRegex names start stop (LT :: lit name ++ GT :: rest) = None) ->
  (forall rest, styleRegex names start stop (LT :: SLASH :: rest) = None) ->
  holds LT (lit name) = false ->
  forallb inertChar inner = true ->
  replaceStyle names start stop (element name inner) = element name inner.
Proof.
  intros H1 H2 Hn Hi. unfold replaceStyle. apply untilStable_fixed.
  apply replace_element_fixed; auto using styleRegex_needsTag.
  now apply inert_facts.
Qed.

Lemma markText_wrapped start stop inner :
  isMarker start = true -> isMarker stop = true ->
  forallb inertChar inner = true ->
  replace anyTagRegex (replace ltrBlockRegex (start :: inner ++ [stop]))
  = start :: inner ++ [stop].
Proof.
  intros Hs He Hi. destruct (wrapped_clean start stop inner Hs He Hi) as [A B].
  rewrite (ltrBlock_letter_free _ B).
  apply (replace_tagfree anyTagRegex _ anyTagRegex_needsTag).
  now apply hasTag_without_LT.
Qed.

Ltac style_pass Hi :=
  match goal with
  | |- context [replaceStyle ?ns ?a ?b (element ?n ?i)] =>
      first
        [ rewrite (replaceStyle_element_hit ns a b n i);
          [| solve [intros rest r H; unfold firstAlternative; rewrite H;
                    reflexivity]
           | reflexivity | reflexivity | exact Hi]
        | rewrite (replaceStyle_element_fixed ns a b n i
                     (fun rest => eq_refl) (fun rest => eq_refl) eq_refl Hi) ]
  | |- context [replaceStyle ?ns ?a ?b (?s :: ?i ++ [?e])] =>
      rewrite (replaceStyle_tagfree ns a b (s :: i ++ [e]))
        by (apply hasTag_without_LT;
            now apply (wrapped_clean s e i eq_refl eq_refl Hi))
  end.

(** X17.  Style elements become marker pairs.  For each tag name of the
    [styles] table (b, strong, u, ins, s, strike, del, ltr) and an inner
    text without opening angle bracket, Latin letter and line
    terminator, preprocessing the element (opening tag, inner text,
    closing tag of the same name) gives the start marker of the style,
    the inner text with its parentheses exchanged, and the end marker:
    both tags are consumed and nothing else is added. *)
Theorem preprocessText_style_element :
  forall (names : list string) (start stop : N) (name : string) (inner : jstring),
    In (names, start, stop) styles ->
    In name names ->
    forallb inertChar inner = true ->
    preprocessText (element name inner)
    = start :: map mirrorParen inner ++ [stop].
Proof.
  intros names start stop name inner Hstyle Hname Hi.
  rewrite preprocessText_mirror.
  assert (E : markText (element name inner) = start :: inner ++ [stop]).
  { rewrite markText_styles.
    unfold styles in Hstyle. cbn [In] in Hstyle.
    repeat (destruct Hstyle as [Hstyle|Hstyle];
            [injection Hstyle as <- <- <-|]); try contradiction;
      cbn [In] in Hname;
      repeat (destruct Hname as [Hname|Hname]; [subst name|]); try contradiction;
      (match goal with
       | |- context [element ?n inner] =>
           rewrite (replace_element_fixed brRegex n inner brRegex_needsTag
                      (fun rest => eq_refl) (fun rest => eq_refl) eq_refl
                      (proj1 (inert_facts inner Hi)))
       end;
       unfold applyStyles, styles; cbn [fold_left];
       repeat style_pass Hi;
       apply markText_wrapped; [reflexivity | reflexivity | exact Hi]). }
  rewrite E. cbn [map]. rewrite map_app. cbn [map].
  unfold styles in Hstyle. cbn [In] in Hstyle.
  repeat (destruct Hstyle as [Hstyle|Hstyle];
          [injection Hstyle as <- <- <-; reflexivity|]).
  contradiction.
Qed.

Lemma preprocessText_style_element_witness :
  preprocessText (element "strong" [1587; 40; 49; 41; 32; 1605]%N)
  = MARKERS.BOLD_START :: map mirrorParen [1587; 40; 49; 41; 32; 1605]%N
    ++ [MARKERS.BOLD_END].
Proof.
  apply (preprocessText_style_element ["b"; "strong"]%string
           MARKERS.BOLD_START MARKERS.BOLD_END "strong"
           [1587; 40; 49; 41; 32; 1605]%N).
  - left. reflexivity.
  - right. left. reflexivity.
  - reflexivity.
Defined.


(** ** The font that rendering leaves *)

Section FontProperties.

Variable textWidth : Font -> Q -> jstring -> Q.
Variable p : Printer.

Lemma renderWordWithState_font word x y state d :
  docFont (snd (renderWordWithState textWidth p word x y state d))
  = mkFont (printerFontName p) "normal".
Proof.
  unfold renderWordWithState.
  destruct (parseSegmentsWithState word state) as [segments nextState].
  cbv zeta.
  destruct (renderSegments textWidth p segments 0 segments y
              (getFontSize d) x (setLineWidth (15 # 100) d)) as [currentX d'].
  reflexivity.
Qed.

Lemma regularLoop_font len y spaceWidth fontSize rest : forall i currentX state d,
  rest <> [] ->
  docFont (snd (regularLoop textWidth p len i rest y spaceWidth fontSize
                            currentX state d))
  = mkFont (printerFontName p) "normal".
Proof.
  induction rest as [|word rest IH]; intros i currentX state d Hne; [congruence|].
  cbn [regularLoop].
  pose proof (renderWordWithState_font word currentX y state d) as Hf.
  destruct (renderWordWithState textWidth p word currentX y state d)
    as [[x1 state1] d1].
  cbn [snd] in Hf.
  destruct rest as [|word2 rest].
  - cbn [regularLoop].
    destruct (i <? len - 1)%nat; [|exact Hf].
    cbn [snd]. destruct (isUnderline state1), (isStrike state1); exact Hf.
  - destruct (i <? len - 1)%nat; apply IH; discriminate.
Qed.

Lemma justifiedLoop_font len y spaceWidth extra fontSize rest :
  forall i currentX state d,
    rest <> [] ->
    docFont (snd (justifiedLoop textWidth p len i rest y spaceWidth extra fontSize
                                currentX state d))
    = mkFont (printerFontName p) "normal".
Proof.
  induction rest as [|word rest IH]; intros i currentX state d Hne; [congruence|].
  cbn [justifiedLoop].
  pose proof (renderWordWithState_font word currentX y state d) as Hf.
  destruct (renderWordWithState textWidth p word currentX y state d)
    as [[x1 state1] d1].
  cbn [snd] in Hf.
  destruct rest as [|word2 rest].
  - cbn [justifiedLoop].
    destruct (i <? len - 1)%nat; [|exact Hf].
    cbn [snd]. destruct (isUnderline state1), (isStrike state1); exact Hf.
  - destruct (i <? len - 1)%nat; apply IH; discriminate.
Qed.

Lemma renderRegularLine_font words startX y initialState d :
  words <> [] ->
  docFont (renderRegularLine textWidth p words startX y initialState d)
  = mkFont (printerFontName p) "normal".
Proof.
  intros Hne. unfold renderRegularLine. cbv zeta.
  match goal with
  | |- context [let '(_, _) := ?e in _] => destruct e as [offset d1]
  end.
  pose proof (regularLoop_font (length words) y (getTextWidth textWidth d [SPACE_CHAR])
                (getFontSize d1) words 0%nat (startX - offset) initialState d1 Hne)
    as H.
  destruct (regularLoop textWidth p (length words) 0 words y
              (getTextWidth textWidth d [SPACE_CHAR]) (getFontSize d1)
              (startX - offset) initialState d1) as [[x1 s1] d2].
  exact H.
Qed.

Lemma renderLine_font words startX y shouldJustify initialState d :
  words <> [] ->
  docFont (renderLine textWidth p words startX y shouldJustify initialState d)
  = mkFont (printerFontName p) "normal".
Proof.
  intros Hne. unfold renderLine.
  destruct (shouldJustify && isRight (align p));
    [|now apply renderRegularLine_font].
  unfold renderJustifiedLine.
  destruct (fold_left (sumWidth textWidth p) words (0, initialState, d))
    as [[total s1] d1].
  cbv zeta.
  destruct (Z.of_nat (length words) - 1 <=? 0)%Z;
    [now apply renderRegularLine_font|].
  match goal with
  | |- context [justifiedLoop textWidth p ?len ?i ?ws ?yy ?sw ?ex ?fs ?cx ?st ?dd] =>
      pose proof (justifiedLoop_font len yy sw ex fs ws i cx st dd Hne) as H;
      destruct (justifiedLoop textWidth p len i ws yy sw ex fs cx st dd)
        as [[x1 s2] d2]
  end.
  exact H.
Qed.

Lemma packWords_line startX justifyArg spaceWidth words : forall ps,
  words <> [] \/ psLineWords ps <> [] ->
  psLineWords (fold_left (packWord textWidth p startX justifyArg spaceWidth) words ps)
  <> [].
Proof.
  induction words as [|word words IH]; intros ps H.
  - destruct H as [H|H]; [congruence | exact H].
  - cbn [fold_left]. apply IH. right. rewrite packWord_eq. cbv zeta.
    destruct (Qgtb _ _); cbn [psLineWords]; [discriminate|].
    destruct (psLineWords ps); discriminate.
Qed.

Lemma renderWords_font words startX startY justifyArg w :
  words <> [] ->
  docFont (doc (snd (fst (renderWords textWidth p words startX startY justifyArg w))))
  = mkFont (printerFontName p) "normal".
Proof.
  intros Hne. unfold renderWords. cbv zeta.
  pose proof (packWords_line startX justifyArg
                (getTextWidth textWidth (doc w) [SPACE_CHAR]) words
                (packStart startY w) (or_introl Hne)) as Hl.
  fold (packWords textWidth p words startX startY justifyArg w) in Hl.
  set (ps := packWords textWidth p words startX startY justifyArg w) in *.
  unfold flushLine.
  destruct (psLineWords ps) as [|word0 line] eqn:El; [congruence|].
  destruct (checkPageBreak p (psY ps) (psWorld ps)) as [y1 w1].
  cbn [fst snd doc]. apply renderLine_font. discriminate.
Qed.

Lemma printParagraphs_font startX shouldJustify paragraphs : forall y w calls,
  (calls <> [] -> docFont (doc w) = mkFont (printerFontName p) "normal") ->
  let r := fold_left (printParagraph textWidth p startX shouldJustify) paragraphs
                     (y, w, calls) in
  snd r <> [] -> docFont (doc (snd (fst r))) = mkFont (printerFontName p) "normal".
Proof.
  induction paragraphs as [|par paragraphs IH]; intros y w calls H; [exact H|].
  cbn [fold_left].
  destruct (isBlank par) eqn:Hb.
  - assert (E : printParagraph textWidth p startX shouldJustify (y, w, calls) par
                = (y + lineHeight p, w, calls))
      by (unfold printParagraph; now rewrite Hb).
    rewrite E. apply IH, H.
  - assert (E : printParagraph textWidth p startX shouldJustify (y, w, calls) par
                = (let '(y1, w1, made) :=
                     renderWords textWidth p (tokenize par) startX y shouldJustify w
                   in (y1, w1, calls ++ made)))
      by (unfold printParagraph; now rewrite Hb).
    rewrite E.
    pose proof (renderWords_font (tokenize par) startX y shouldJustify w
                  (tokenize_nonblank par Hb)) as Hf.
    destruct (renderWords textWidth p (tokenize par) startX y shouldJustify w)
      as [[y1 w1] made].
    apply IH. intros _. exact Hf.
Qed.

End FontProperties.

(** X18.  The font that [print] leaves.  When [print] renders at least
    one line, the font of the document after the call is the font of the
    printer in the style normal, whatever it was before and whatever the
    page-break callback set: the font of the caller is not restored. *)
Theorem print_final_font :
  forall textWidth p (text0 : jstring) (options : PrintOptions) (w : World),
    let r := print textWidth p text0 options w in
    snd r <> [] ->
    getFont (doc (snd (fst r))) = mkFont (printerFontName p) "normal".
Proof.
  intros textWidth p text0 options w. cbv zeta. unfold print, getFont. cbv zeta.
  apply (printParagraphs_font textWidth p). congruence.
Qed.

Lemma print_final_font_witness :
  getFont (doc (snd (fst (print Demo.glyphWidth (Demo.printer 100 None)
                            (lit "<b>12</b>") (mkOptions None 20 None)
                            (mkWorld (setFont "Courier" "italic" Demo.page)
                                     initialPageCounter)))))
  = mkFont "Vazir" "normal".
Proof.
  apply (print_final_font Demo.glyphWidth (Demo.printer 100 None)
           (lit "<b>12</b>") (mkOptions None 20 None)
           (mkWorld (setFont "Courier" "italic" Demo.page) initialPageCounter)).
  vm_compute. discriminate.
Defined.


(** ** Left-to-right blocks *)

Lemma takeWhile_whole f s : forallb f s = true -> takeWhile f s = s.
Proof.
  induction s as [|c s IH]; [reflexivity|]. cbn [forallb takeWhile].
  intros H. apply andb_true_iff in H. destruct H as [Hc Hs].
  now rewrite Hc, (IH Hs).
Qed.

Lemma dropWhile_whole f s : forallb f s = true -> dropWhile f s = [].
Proof.
  induction s as [|c s IH]; [reflexivity|]. cbn [forallb dropWhile].
  intros H. apply andb_true_iff in H. destruct H as [Hc Hs].
  now rewrite Hc, (IH Hs).
Qed.

Lemma firstn_takeWhile f s : firstn (length (takeWhile f s)) s = takeWhile f s.
Proof.
  induction s as [|c s IH]; [reflexivity|]. cbn [takeWhile].
  destruct (f c); [|reflexivity]. cbn [length firstn]. now rewrite IH.
Qed.

(** X19.  The callback of the LTR block regex always wraps.  Whatever
    the regex matches consists of characters of its two classes, none of
    which is an LTR marker, so the test for a marker inside the match
    never holds: the replacement is the LTR start marker, the matched
    text, and the LTR end marker, also when the match lies inside a
    block that an ltr tag already marked. *)
Theorem ltrBlockRegex_always_wraps :
  forall (s out : jstring) (n : nat),
    ltrBlockRegex s = Some (out, n) ->
    out = MARKERS.LTR_START :: firstn n s ++ [MARKERS.LTR_END]
    /\ (1 <= n <= length s)%nat
    /\ forallb isLtrBlockChar (firstn n s) = true
    /\ holds MARKERS.LTR_START (firstn n s) = false
    /\ holds MARKERS.LTR_END (firstn n s) = false.
Proof.
  intros [|c s1] out n; [discriminate|]. unfold ltrBlockRegex.
  destruct (isLetter c) eqn:Hc; [|discriminate].
  cbv zeta. intros H. injection H as <- <-.
  assert (Hb : forallb isLtrBlockChar (c :: takeWhile isLtrBlockChar s1) = true).
  { cbn [forallb]. now rewrite (letter_blockChar c Hc), takeWhile_all. }
  cbn [length firstn]. rewrite firstn_takeWhile.
  split; [now apply wrapLtr_block|]. split.
  - pose proof (takeWhile_dropWhile isLtrBlockChar s1) as E.
    apply (f_equal (@length N)) in E. rewrite length_app in E. lia.
  - split; [exact Hb|]. unfold holds.
    split; apply block_lacks; auto.
Qed.

Lemma ltrBlockRegex_always_wraps_witness :
  ltrBlockRegex (MARKERS.LTR_START :: lit "ab c" ++ [MARKERS.LTR_END])
  = None
  /\ ltrBlockRegex (lit "ab c" ++ [MARKERS.LTR_END])
     = Some (MARKERS.LTR_START :: lit "ab c" ++ [MARKERS.LTR_END], 4%nat)
  /\ MARKERS.LTR_START :: lit "ab c" ++ [MARKERS.LTR_END]
     = MARKERS.LTR_START
       :: firstn 4 (lit "ab c" ++ [MARKERS.LTR_END]) ++ [MARKERS.LTR_END].
Proof.
  split; [reflexivity|]. split; [reflexivity|].
  apply (ltrBlockRegex_always_wraps (lit "ab c" ++ [MARKERS.LTR_END])
           (MARKERS.LTR_START :: lit "ab c" ++ [MARKERS.LTR_END]) 4%nat).
  reflexivity.
Defined.

(** X20.  Latin text is isolated as one block.  A text that starts with
    a Latin letter and continues with characters of the LTR block class
    only (letters, digits, white space and the listed punctuation) is
    returned by preprocessing between one LTR start marker and one LTR
    end marker, with its parentheses exchanged: spaces and line feeds do
    not end the block. *)
Theorem preprocessText_latin_block :
  forall (c : N) (rest : jstring),
    isLetter c = true ->
    forallb isLtrBlockChar rest = true ->
    preprocessText (c :: rest)
    = MARKERS.LTR_START :: map mirrorParen (c :: rest) ++ [MARKERS.LTR_END].
Proof.
  intros c rest Hc Hrest.
  assert (Hb : forallb isLtrBlockChar (c :: rest) = true)
    by (cbn [forallb]; now rewrite (letter_blockChar c Hc)).
  assert (Hlt : holds LT (c :: rest) = false)
    by (apply block_lacks; [reflexivity | exact Hb]).
  rewrite preprocessText_mirror.
  rewrite (markText_tagfree _ (hasTag_without_LT _ Hlt)).
  rewrite (ltrBlock_letter c rest Hc).
  rewrite (takeWhile_whole _ _ Hrest), (dropWhile_whole _ _ Hrest).
  change (replace ltrBlockRegex []) with (@nil N).
  rewrite (replace_tagfree anyTagRegex _ anyTagRegex_needsTag).
  - change (MARKERS.LTR_START :: c :: rest ++ [MARKERS.LTR_END])
      with (MARKERS.LTR_START :: (c :: rest) ++ [MARKERS.LTR_END]).
    cbn [map]. rewrite map_app. reflexivity.
  - apply hasTag_without_LT.
    change (MARKERS.LTR_START :: c :: rest ++ [MARKERS.LTR_END])
      with ((MARKERS.LTR_START :: c :: rest) ++ [MARKERS.LTR_END]).
    unfold holds in *. rewrite existsb_app. cbn [existsb] in Hlt |- *.
    rewrite Hlt. reflexivity.
Qed.

Lemma preprocessText_latin_block_witness :
  preprocessText (lit "Hello (big) world")
  = MARKERS.LTR_START :: map mirrorParen (lit "Hello (big) world")
    ++ [MARKERS.LTR_END].
Proof.
  apply (preprocessText_latin_block 72%N (lit "ello (big) world"));
    reflexivity.
Defined.


(** ** Decoration lines *)

Lemma lineOps_app a b : lineOps (a ++ b) = lineOps a ++ lineOps b.
Proof. apply filter_app. Qed.

Lemma splitMarkers_forallb f word :
  forallb f word = true ->
  Forall (fun part => forallb f part = true) (splitMarkers word).
Proof.
  induction word as [|c word IH]; [repeat constructor|].
  cbn [forallb splitMarkers]. intros H. apply andb_true_iff in H.
  destruct H as [Hc Hw]. specialize (IH Hw).
  destruct (isMarker c).
  - constructor; [reflexivity|]. constructor; [|exact IH].
    cbn [forallb]. now rewrite Hc.
  - destruct (splitMarkers word) as [|part parts];
      [repeat constructor; cbn [forallb]; now rewrite Hc|].
    inversion IH; subst. constructor; [|assumption].
    cbn [forallb]. now rewrite Hc.
Qed.

Lemma switchPart_undecorated segments state part :
  forallb startsNoDecoration part = true ->
  Forall (fun g => decorated g = false) segments -> undecorated state ->
  Forall (fun g => decorated g = false) (fst (switchPart (segments, state) part))
  /\ undecorated (snd (switchPart (segments, state) part)).
Proof.
  intros Hp Hs [Hu Hk]. unfold switchPart.
  repeat match goal with
  | |- context [jeqb part ?m] =>
      destruct (jeqb_spec part m) as [->|_];
        [first [discriminate Hp
               | cbn [fst snd]; split;
                 [exact Hs
                 | split; cbn [setBold setUnderline setStrike setLtr
                               isUnderline isStrike];
                   first [assumption | reflexivity]]]|]
  end.
  destruct part as [|c part]; cbn [fst snd]; (split; [|split; assumption]);
    [exact Hs|].
  apply Forall_app. split; [exact Hs|]. constructor; [|constructor].
  unfold decorated, snapshot. cbn [segUnderline segStrike]. now rewrite Hu, Hk.
Qed.

Lemma parse_undecorated word state :
  forallb startsNoDecoration word = true -> undecorated state ->
  Forall (fun g => decorated g = false) (fst (parseSegmentsWithState word state))
  /\ undecorated (snd (parseSegmentsWithState word state)).
Proof.
  intros Hw Hs. unfold parseSegmentsWithState.
  pose proof (splitMarkers_forallb startsNoDecoration word Hw) as Hparts.
  assert (F : forall parts acc,
             Forall (fun part => forallb startsNoDecoration part = true) parts ->
             Forall (fun g => decorated g = false) (fst acc) ->
             undecorated (snd acc) ->
             Forall (fun g => decorated g = false) (fst (fold_left switchPart parts acc))
             /\ undecorated (snd (fold_left switchPart parts acc))).
  { induction parts as [|part parts IH]; intros [segments st] Hps Ha Hb;
      [split; assumption|].
    inversion Hps; subst. cbn [fold_left]. cbn [fst snd] in Ha, Hb.
    destruct (switchPart_undecorated segments st part) as [A B]; auto. }
  apply F; [exact Hparts | constructor | exact Hs].
Qed.

Section DecorationProperties.

Variable textWidth : Font -> Q -> jstring -> Q.
Variable p : Printer.

Lemma renderSegment_lines segments i segment y fontSize currentX d :
  decorated segment = false ->
  lineOps (docOps (snd (renderSegment textWidth p segments i segment y fontSize
                          currentX d)))
  = lineOps (docOps d).
Proof.
  unfold decorated, renderSegment. intros H.
  destruct (text segment); [reflexivity|].
  rewrite H. cbn [snd setFont docOps docText emit].
  rewrite lineOps_app. cbn. apply app_nil_r.
Qed.

Lemma renderSegments_lines segments y fontSize rest : forall i currentX d,
  Forall (fun g => decorated g = false) rest ->
  lineOps (docOps (snd (renderSegments textWidth p segments i rest y fontSize
                           currentX d)))
  = lineOps (docOps d).
Proof.
  induction rest as [|segment rest IH]; intros i currentX d H; [reflexivity|].
  inversion H as [|? ? Hg Hrest]; subst. cbn [renderSegments].
  pose proof (renderSegment_lines segments i segment y fontSize currentX d Hg) as E.
  destruct (renderSegment textWidth p segments i segment y fontSize currentX d)
    as [x1 d1].
  cbn [snd] in E. rewrite (IH (S i) x1 d1 Hrest). exact E.
Qed.

Lemma renderWordWithState_lines word x y state d :
  forallb startsNoDecoration word = true -> undecorated state ->
  lineOps (docOps (snd (renderWordWithState textWidth p word x y state d)))
  = lineOps (docOps d)
  /\ undecorated (snd (fst (renderWordWithState textWidth p word x y state d))).
Proof.
  intros Hw Hs. destruct (parse_undecorated word state Hw Hs) as [A B].
  unfold renderWordWithState.
  destruct (parseSegmentsWithState word state) as [segments nextState].
  cbn [fst snd] in A, B. cbv zeta.
  pose proof (renderSegments_lines segments y (getFontSize d) segments 0%nat x
                (setLineWidth (15 # 100) d) A) as E.
  destruct (renderSegments textWidth p segments 0 segments y (getFontSize d) x
              (setLineWidth (15 # 100) d)) as [x1 d1].
  cbn [fst snd] in E |- *. split; [exact E | exact B].
Qed.

Lemma regularLoop_lines len y spaceWidth fontSize rest : forall i currentX state d,
  Forall (fun word => forallb startsNoDecoration word = true) rest ->
  undecorated state ->
  lineOps (docOps (snd (regularLoop textWidth p len i rest y spaceWidth fontSize
                          currentX state d)))
  = lineOps (docOps d).
Proof.
  induction rest as [|word rest IH]; intros i currentX state d H Hs; [reflexivity|].
  inversion H as [|? ? Hw Hrest]; subst. cbn [regularLoop].
  destruct (renderWordWithState_lines word currentX y state d Hw Hs) as [E U].
  destruct (renderWordWithState textWidth p word currentX y state d)
    as [[x1 state1] d1].
  cbn [fst snd] in E, U. destruct U as [Hu Hk]. rewrite Hu, Hk.
  destruct (i <? len - 1)%nat; rewrite IH; auto; split; assumption.
Qed.

Lemma justifiedLoop_lines len y spaceWidth extra fontSize rest :
  forall i currentX state d,
    Forall (fun word => forallb startsNoDecoration word = true) rest ->
    undecorated state ->
    lineOps (docOps (snd (justifiedLoop textWidth p len i rest y spaceWidth extra
                            fontSize currentX state d)))
    = lineOps (docOps d).
Proof.
  induction rest as [|word rest IH]; intros i currentX state d H Hs; [reflexivity|].
  inversion H as [|? ? Hw Hrest]; subst. cbn [justifiedLoop].
  destruct (renderWordWithState_lines word currentX y state d Hw Hs) as [E U].
  destruct (renderWordWithState textWidth p word currentX y state d)
    as [[x1 state1] d1].
  cbn [fst snd] in E, U. destruct U as [Hu Hk]. rewrite Hu, Hk.
  destruct (i <? len - 1)%nat; rewrite IH; auto; split; assumption.
Qed.

Lemma renderRegularLine_lines words startX y state d :
  Forall (fun word => forallb startsNoDecoration word = true) words ->
  undecorated state ->
  lineOps (docOps (renderRegularLine textWidth p words startX y state d))
  = lineOps (docOps d).
Proof.
  intros Hw Hs. unfold renderRegularLine. cbv zeta.
  rewrite sumWidth_fold.
  destruct (align p); cbv beta iota zeta;
    match goal with
    | |- context [regularLoop textWidth p ?len ?i ?ws ?yy ?sw ?fs ?cx ?st ?dd] =>
        pose proof (regularLoop_lines len yy sw fs ws i cx st dd Hw Hs) as E;
        destruct (regularLoop textWidth p len i ws yy sw fs cx st dd)
          as [[x1 s1] d1]
    end; exact E.
Qed.

Lemma renderLine_lines words startX y shouldJustify state d :
  Forall (fun word => forallb startsNoDecoration word = true) words ->
  undecorated state ->
  lineOps (docOps (renderLine textWidth p words startX y shouldJustify state d))
  = lineOps (docOps d).
Proof.
  intros Hw Hs. unfold renderLine.
  destruct (shouldJustify && isRight (align p));
    [|now apply renderRegularLine_lines].
  unfold renderJustifiedLine. rewrite sumWidth_fold. cbv zeta.
  match goal with
  | |- context [if ?c then _ else _] => destruct c
  end; [now apply renderRegularLine_lines|].
  match goal with
  | |- context [justifiedLoop textWidth p ?len ?i ?ws ?yy ?sw ?ex ?fs ?cx ?st ?dd] =>
      pose proof (justifiedLoop_lines len yy sw ex fs ws i cx st dd Hw Hs) as E;
      destruct (justifiedLoop textWidth p len i ws yy sw ex fs cx st dd)
        as [[x1 s2] d2]
  end.
  exact E.
Qed.

Hypothesis callback_draws_no_line : callbackDrawsNoLine p.

Lemma checkPageBreak_lines y w :
  lineOps (docOps (doc (snd (checkPageBreak p y w)))) = lineOps (docOps (doc w)).
Proof.
  unfold checkPageBreak. cbv zeta. destruct (Qgtb _ _); [|reflexivity].
  assert (A : lineOps (docOps (addPage (doc w))) = lineOps (docOps (doc w))).
  { cbn [addPage docOps]. rewrite lineOps_app. cbn. apply app_nil_r. }
  unfold callbackDrawsNoLine in callback_draws_no_line.
  destruct (onPageBreak p) as [callback|]; [|exact A].
  specialize (callback_draws_no_line (pageCounter w + 1)%Z (addPage (doc w))).
  destruct (callback (pageCounter w + 1)%Z (addPage (doc w))) as [y1 d1].
  cbn [snd doc] in *. now rewrite callback_draws_no_line.
Qed.

Lemma packWords_plain d0 startX justifyArg spaceWidth words : forall ps,
  Forall (fun word => forallb startsNoDecoration word = true) words ->
  plainPack d0 ps ->
  plainPack d0 (fold_left (packWord textWidth p startX justifyArg spaceWidth) words ps).
Proof.
  induction words as [|word words IH]; intros ps Hw H; [exact H|].
  inversion Hw as [|? ? Hword Hrest]; subst.
  cbn [fold_left]. apply IH; [exact Hrest|].
  destruct H as (A & B & C & D).
  destruct (parse_undecorated word (psState ps) Hword B) as [_ Hnext].
  rewrite packWord_eq. cbv zeta.
  destruct (Qgtb _ _); unfold plainPack;
    cbn [psWorld psState psLineStartingState psLineWords doc].
  - split; [|split; [exact Hnext | split; [exact B | repeat constructor; exact Hword]]].
    rewrite renderLine_lines by assumption.
    rewrite checkPageBreak_lines. exact A.
  - split; [exact A|]. split; [exact Hnext|]. split; [exact C|].
    apply Forall_app. split; [exact D | repeat constructor; exact Hword].
Qed.

Lemma renderWords_lines_kept words startX startY justifyArg w :
  Forall (fun word => forallb startsNoDecoration word = true) words ->
  lineOps (docOps (doc (snd (fst (renderWords textWidth p words startX startY
                                    justifyArg w)))))
  = lineOps (docOps (doc w)).
Proof.
  intros Hw. unfold renderWords. cbv zeta.
  pose proof (packWords_plain (doc w) startX justifyArg
                (getTextWidth textWidth (doc w) [SPACE_CHAR]) words
                (packStart startY w) Hw) as H.
  fold (packWords textWidth p words startX startY justifyArg w) in H.
  destruct H as (A & B & C & D).
  { unfold plainPack, packStart, undecorated, plainStyle. cbn. repeat split.
    constructor. }
  set (ps := packWords textWidth p words startX startY justifyArg w) in *.
  unfold flushLine.
  destruct (psLineWords ps) as [|word0 line] eqn:El; [exact A|].
  pose proof (checkPageBreak_lines (psY ps) (psWorld ps)) as E.
  destruct (checkPageBreak p (psY ps) (psWorld ps)) as [y1 w1].
  cbn [fst snd doc] in E |- *.
  rewrite renderLine_lines by assumption. now rewrite E.
Qed.

Lemma printParagraphs_lines startX shouldJustify paragraphs : forall y w calls,
  Forall (fun par => forallb startsNoDecoration par = true) paragraphs ->
  lineOps (docOps (doc (snd (fst (fold_left
                                    (printParagraph textWidth p startX shouldJustify)
                                    paragraphs (y, w, calls))))))
  = lineOps (docOps (doc w)).
Proof.
  induction paragraphs as [|par paragraphs IH]; intros y w calls H; [reflexivity|].
  inversion H as [|? ? Hpar Hrest]; subst. cbn [fold_left].
  destruct (isBlank par) eqn:Hb.
  - assert (E : printParagraph textWidth p startX shouldJustify (y, w, calls) par
                = (y + lineHeight p, w, calls))
      by (unfold printParagraph; now rewrite Hb).
    rewrite E. now apply IH.
  - assert (E : printParagraph textWidth p startX shouldJustify (y, w, calls) par
                = (let '(y1, w1, made) :=
                     renderWords textWidth p (tokenize par) startX y shouldJustify w
                   in (y1, w1, calls ++ made)))
      by (unfold printParagraph; now rewrite Hb).
    rewrite E.
    assert (Hwords : Forall (fun word => forallb startsNoDecoration word = true)
                            (tokenize par)).
    { unfold tokenize.
      pose proof (splitOn_forallb startsNoDecoration SPACE_CHAR par Hpar) as Hs.
      apply Forall_forall. intros word Hin. apply filter_In in Hin.
      rewrite Forall_forall in Hs. apply Hs, Hin. }
    pose proof (renderWords_lines_kept (tokenize par) startX y shouldJustify w Hwords)
      as R.
    destruct (renderWords textWidth p (tokenize par) startX y shouldJustify w)
      as [[y1 w1] made].
    cbn [fst snd] in R. rewrite (IH y1 w1 (calls ++ made) Hrest). exact R.
Qed.

End DecorationProperties.

(** X21.  Decoration lines only where asked.  When the preprocessed text
    holds neither the underline start marker nor the strike start marker
    and the page-break callback draws no line, [print] draws no line at
    all: the line paint requests of the document after the call are
    those before it, whatever else the text holds (bold and LTR markers,
    end markers without a start). *)
Theorem print_draws_no_line :
  forall textWidth p (text0 : jstring) (options : PrintOptions) (w : World),
    callbackDrawsNoLine p ->
    forallb startsNoDecoration (preprocessText text0) = true ->
    lineOps (docOps (doc (snd (fst (print textWidth p text0 options w)))))
    = lineOps (docOps (doc w)).
Proof.
  intros textWidth p text0 options w Hcb Htext. unfold print. cbv zeta.
  apply (printParagraphs_lines textWidth p Hcb).
  apply splitOn_forallb, Htext.
Qed.

Lemma print_draws_no_line_witness :
  lineOps (docOps (doc (snd (fst (print Demo.glyphWidth (Demo.printer 20 None)
                                    (lit "<b>12 34</b> 56</u>")
                                    (mkOptions None 85 None) Demo.world)))))
  = lineOps (docOps (doc Demo.world)).
Proof.
  apply (print_draws_no_line Demo.glyphWidth (Demo.printer 20 None)
           (lit "<b>12 34</b> 56</u>") (mkOptions None 85 None) Demo.world).
  - exact I.
  - reflexivity.
Defined.
